(** * Token Extractor: the colour pipeline of [code.ts]

    A shallow embedding of the extraction, deduplication, naming and JSON
    export functions of the plugin, and the properties of its design
    document that concern them.

    Conventions of the embedding.
    - A JavaScript number is an IEEE 754 double.  A finite double is
      modelled by the rational [Q] it denotes, and every [+], [-], [*] and
      [/] of the source is the exact operation followed by the rounding
      [Float64.rnd] to the nearest double, ties to even; a decimal literal
      such as [0.12] is the double nearest to it ([JsMath.lit]).
      Comparisons, [Math.max], [Math.min] and [Math.round] are exact on
      doubles.  The infinities, NaN and the sign of zero are not
      represented: an overflow or a division by zero is outside the model,
      and none occurs for components between 0 and 1
      ([rgbToHsl_divisors]).  Counters and array indices are integers.
    - A JavaScript string is modelled by the [string] of the bytes of its
      UTF-8 encoding; the strings the code builds itself are ASCII.
    - Objects used as dictionaries are finite maps, or association lists in
      insertion order where the enumeration order is observable.  They hold
      the own properties; the keys every object literal inherits are listed
      in [JsObject.protoKeys], never reach the registry of the naming engine
      ([candidateName_own]) and are kept out of the export by [exportable].
    - [undefined] results are [None]. *)

From Stdlib Require Import QArith Qround Qabs Qpower Lqa.
From Stdlib Require Import Ascii String.
From stdpp Require Import gmap strings list pretty.

Local Open Scope string_scope.
Local Open Scope list_scope.

(** ** Numbers *)

Module Float64.

Local Open Scope Q_scope.

(** The power of two [2^e], for any integer [e]. *)
Definition pow2 (e : Z) : Q := 2 ^ e.

(** For [x > 0], the integer [k] with [2^k <= x < 2^(k+1)]. *)
Definition ilog2 (x : Q) : Z :=
  let k := (Z.log2 (Qnum x) - Z.log2 (Zpos (Qden x)))%Z in
  if Qle_bool (pow2 k) x then k else (k - 1)%Z.

(** The integer nearest to [x]; a half goes to the even neighbour. *)
Definition rne (x : Q) : Z :=
  let f := Qfloor x in
  match Qcompare (x - inject_Z f) (1 # 2) with
  | Lt => f
  | Gt => (f + 1)%Z
  | Eq => if Z.even f then f else (f + 1)%Z
  end.

(** The exponent of the last bit of the double nearest to [x > 0]: 53
    significant bits, and no exponent below that of the subnormal
    numbers. *)
Definition exponent (x : Q) : Z := Z.max (-1074) (ilog2 x - 52).

(** The double nearest to [x >= 0]. *)
Definition rndAbs (x : Q) : Q :=
  let e := exponent x in Qred (inject_Z (rne (x / pow2 e)) * pow2 e).

(** The double nearest to [x], ties to even: the rounding of every
    arithmetic operation on doubles. *)
Definition rnd (x : Q) : Q :=
  if Qle_bool 0 x then rndAbs x else - rndAbs (- x).

(** The rationals that are finite doubles. *)
Definition isDouble (x : Q) : Prop := rnd x == x.

End Float64.

Module JsMath.

(** [Math.max] and [Math.min] on two numbers. *)
Definition max2 (a b : Q) : Q := if Qle_bool a b then b else a.
Definition min2 (a b : Q) : Q := if Qle_bool a b then a else b.

(** [Math.max(a, b, c)] and [Math.min(a, b, c)]. *)
Definition max3 (a b c : Q) : Q := max2 (max2 a b) c.
Definition min3 (a b c : Q) : Q := min2 (min2 a b) c.

(** [Math.round]: the nearest integer, halves rounded towards plus
    infinity. *)
Definition round (x : Q) : Z := Qfloor (x + (1 # 2)).

(** [a < b], [a > b] and [a >= b] as booleans. *)
Definition ltb (a b : Q) : bool := negb (Qle_bool b a).
Definition gtb (a b : Q) : bool := ltb b a.
Definition geb (a b : Q) : bool := Qle_bool b a.

(** [a === b] on numbers. *)
Definition eqb (a b : Q) : bool := Qeq_bool a b.

(** [a + b], [a - b], [a * b] and [a / b] on doubles. *)
Definition add (a b : Q) : Q := Float64.rnd (a + b).
Definition sub (a b : Q) : Q := Float64.rnd (a - b).
Definition mul (a b : Q) : Q := Float64.rnd (a * b).
Definition div (a b : Q) : Q := Float64.rnd (a / b).

(** The value of a decimal literal. *)
Definition lit (q : Q) : Q := Float64.rnd q.

End JsMath.

(** ** Strings *)

Module JsString.

(** The digit of [Number.prototype.toString(16)] for a value below 16. *)
Definition hexDigit (d : N) : ascii :=
  match d with
  | 0 => "0" | 1 => "1" | 2 => "2" | 3 => "3" | 4 => "4" | 5 => "5"
  | 6 => "6" | 7 => "7" | 8 => "8" | 9 => "9" | 10 => "a" | 11 => "b"
  | 12 => "c" | 13 => "d" | 14 => "e" | _ => "f"
  end%N%char.

(** Hexadecimal digits of [n], most significant first, prepended to
    [acc]; [fuel] bounds the number of digits. *)
Fixpoint hexDigits (fuel : nat) (n : N) (acc : string) : string :=
  match fuel with
  | O => acc
  | S fuel' =>
      let acc' := String (hexDigit (n mod 16)) acc in
      if (n / 16 =? 0)%N then acc' else hexDigits fuel' (n / 16) acc'
  end.

(** [n.toString(16)] for an integer [n]. *)
Definition toString16 (n : Z) : string :=
  let digits m := hexDigits (S (N.to_nat (N.log2 m))) m EmptyString in
  if (n <? 0)%Z then String "-" (digits (Z.to_N (- n)))
  else digits (Z.to_N n).

(** [s.padStart(2, "0")]. *)
Definition padStart2 (s : string) : string :=
  match s with
  | EmptyString => "00"
  | String c EmptyString => String "0" (String c EmptyString)
  | _ => s
  end.

(** [c.toUpperCase()] on one character: only the ASCII letters change. *)
Definition upperChar (c : ascii) : ascii :=
  let n := N_of_ascii c in
  if ((97 <=? n) && (n <=? 122))%N then ascii_of_N (n - 32) else c.

(** [s.toUpperCase()]. *)
Fixpoint toUpperCase (s : string) : string :=
  match s with
  | EmptyString => EmptyString
  | String c s' => String (upperChar c) (toUpperCase s')
  end.

(** A continuation byte of UTF-8. *)
Definition isContinuation (c : ascii) : bool :=
  let n := N_of_ascii c in ((128 <=? n) && (n <=? 191))%N.

(** The first code point of a string and what follows it, for the code
    points encoded in one, two or three bytes (those below U+10000);
    [None] for the empty string, a longer sequence and a malformed one. *)
Definition codePointAt (s : string) : option (N * string) :=
  match s with
  | EmptyString => None
  | String c0 s0 =>
      let n0 := N_of_ascii c0 in
      if (n0 <? 128)%N then Some (n0, s0)
      else if ((194 <=? n0) && (n0 <=? 223))%N then
        match s0 with
        | String c1 s1 =>
            if isContinuation c1
            then Some (((n0 - 192) * 64 + (N_of_ascii c1 - 128))%N, s1)
            else None
        | EmptyString => None
        end
      else if ((224 <=? n0) && (n0 <=? 239))%N then
        match s0 with
        | String c1 (String c2 s2) =>
            let cp := ((n0 - 224) * 4096 + (N_of_ascii c1 - 128) * 64
                       + (N_of_ascii c2 - 128))%N in
            if isContinuation c1 && isContinuation c2 && (2048 <=? cp)%N
            then Some (cp, s2)
            else None
        | _ => None
        end
      else None
  end.

(** The code points [trim] removes, the white space and the line
    terminators of ECMAScript: U+0009 to U+000D, U+0020, U+00A0, U+1680,
    U+2000 to U+200A, U+2028, U+2029, U+202F, U+205F, U+3000 and U+FEFF. *)
Definition isWhiteSpace (cp : N) : bool :=
  ((9 <=? cp) && (cp <=? 13) || (cp =? 32) || (cp =? 160) || (cp =? 5760)
   || (8192 <=? cp) && (cp <=? 8202) || (cp =? 8232) || (cp =? 8233)
   || (cp =? 8239) || (cp =? 8287) || (cp =? 12288) || (cp =? 65279))%N.

(** The string without its first code point, when that is white space. *)
Definition stripWhite (s : string) : option string :=
  match codePointAt s with
  | Some (cp, rest) => if isWhiteSpace cp then Some rest else None
  | None => None
  end.

(** Drops leading white space; [fuel] bounds the number of code points
    dropped. *)
Fixpoint trimStartFrom (fuel : nat) (s : string) : string :=
  match fuel with
  | O => s
  | S fuel' =>
      match stripWhite s with
      | Some rest => trimStartFrom fuel' rest
      | None => s
      end
  end.

Definition trimStart (s : string) : string :=
  trimStartFrom (String.length s) s.

(** A string of white space only. *)
Definition isBlank (s : string) : bool :=
  match trimStart s with
  | EmptyString => true
  | String _ _ => false
  end.

(** Drops trailing white space: the longest suffix that is white space
    only. *)
Fixpoint trimEnd (s : string) : string :=
  match s with
  | EmptyString => EmptyString
  | String c s' => if isBlank s then EmptyString else String c (trimEnd s')
  end.

(** [s.trim()]. *)
Definition trim (s : string) : string := trimEnd (trimStart s).

(** [s.split("-")]: the segments between hyphens; never empty. *)
Fixpoint split (s : string) : list string :=
  match s with
  | EmptyString => [EmptyString]
  | String c s' =>
      if Ascii.eqb c "-" then EmptyString :: split s'
      else match split s' with
           | [] => [String c EmptyString]
           | seg :: segs => String c seg :: segs
           end
  end.

(** [parts.join("-")]. *)
Fixpoint join (parts : list string) : string :=
  match parts with
  | [] => EmptyString
  | [p] => p
  | p :: ps => p +:+ "-" +:+ join ps
  end.

(** The decimal form of an integer, as a template literal prints it. *)
Definition ofInt (n : Z) : string := pretty n.

End JsString.

Import Float64 JsMath JsString.

(** ** Types *)

Inductive Source := fill | stroke | text.

#[global] Instance Source_eq_dec : EqDecision Source.
Proof. solve_decision. Defined.

Record ExtractedColor := {
  hex : string;
  r : Q;
  g : Q;
  b : Q;
  a : Q;
  source : Source;
  tokenName : string
}.

(** A paint descriptor of the host: [paint_type] is its [type] field,
    [paint_visible] and [paint_opacity] are absent when [None], and
    [paint_color] holds the [r], [g], [b] of [paint.color] (read only when
    the type is SOLID). *)
Record Paint := {
  paint_type : string;
  paint_visible : option bool;
  paint_opacity : option Q;
  paint_color : Q * Q * Q
}.

(** A node of the host's tree.  [node_fills] and [node_strokes] are [Some]
    when the property exists and is an array ([None] covers both a missing
    property and a value that is not an array); [node_children] is [Some]
    when the node has a [children] property. *)
Unset Elimination Schemes.
Inductive SceneNode :=
  Node (node_type : string)
       (node_fills node_strokes : option (list Paint))
       (node_children : option (list SceneNode)).
Set Elimination Schemes.

(** ** Color extraction *)

Definition toHex (n : Q) : string :=
  padStart2 (toString16 (round (mul n 255))).

Definition rgbToHex (r g b : Q) : string :=
  toUpperCase (String "#" (toHex r +:+ toHex g +:+ toHex b)).

Definition extractPaint (paint : Paint) (source : Source)
  : option ExtractedColor :=
  if negb (String.eqb (paint_type paint) "SOLID")
     || bool_decide (paint_visible paint = Some false)
  then None
  else
    let '(r, g, b) := paint_color paint in
    let a := default 1%Q (paint_opacity paint) in
    Some {| hex := rgbToHex r g b; r := r; g := g; b := b; a := a;
            source := source; tokenName := EmptyString |}.

(** The loop [for (const p of paints) { const c = extractPaint(p, source);
    if (c) colors.push(c); }], as the list of the pushed samples. *)
Definition extractPaints (paints : list Paint) (source : Source)
  : list ExtractedColor :=
  omap (fun p => extractPaint p source) paints.

Fixpoint extractColorsFromNode (node : SceneNode) : list ExtractedColor :=
  let 'Node type fills strokes children := node in
  (match fills with
   | Some fs => extractPaints fs fill
   | None => []
   end ++
   match strokes with
   | Some ss => extractPaints ss stroke
   | None => []
   end ++
   (if String.eqb type "TEXT"
    then match fills with
         | Some fs => extractPaints fs text
         | None => []
         end
    else []) ++
   match children with
   | Some cs => List.concat (List.map extractColorsFromNode cs)
   | None => []
   end).

(** The filter of [deduplicateColors], with the set [seen] threaded through
    the calls of its predicate. *)
Fixpoint dedupFrom (seen : gset string) (colors : list ExtractedColor)
  : list ExtractedColor :=
  match colors with
  | [] => []
  | c :: rest =>
      if decide (hex c ∈ seen) then dedupFrom seen rest
      else c :: dedupFrom ({[hex c]} ∪ seen) rest
  end.

Definition deduplicateColors (colors : list ExtractedColor)
  : list ExtractedColor :=
  dedupFrom ∅ colors.

(** ** Intelligent naming *)

Definition rgbToHsl (r g b : Q) : Q * Q * Q :=
  let max := max3 r g b in
  let min := min3 r g b in
  let l := div (add max min) 2 in
  let '(h, s) := (
    if negb (eqb max min) then
      let d := sub max min in
      let s := if gtb l (1 # 2) then div d (sub (sub 2 max) min)
               else div d (add max min) in
      let h :=
        if eqb max r
        then div (add (div (sub g b) d) (if ltb g b then 6 else 0)) 6
        else if eqb max g then div (add (div (sub b r) d) 2) 6
        else if eqb max b then div (add (div (sub r g) d) 4) 6
        else 0 in
      (h, s)
    else (0, 0))%Q in
  (mul h 360, s, l).

Inductive ColorRole :=
  red | orange | yellow | green | cyan | blue | purple | pink | gray.

#[global] Instance ColorRole_eq_dec : EqDecision ColorRole.
Proof. solve_decision. Defined.

(** The string a role is in the source. *)
Definition roleName (role : ColorRole) : string :=
  match role with
  | red => "red" | orange => "orange" | yellow => "yellow"
  | green => "green" | cyan => "cyan" | blue => "blue"
  | purple => "purple" | pink => "pink" | gray => "gray"
  end.

Definition detectColorRole (r g b : Q) : ColorRole :=
  let '(h, s, l) := rgbToHsl r g b in
  (if ltb s (lit (12 # 100)) then gray
  else if geb h 0 && ltb h 20 then red
  else if geb h 20 && ltb h 45 then orange
  else if geb h 45 && ltb h 70 then yellow
  else if geb h 70 && ltb h 165 then green
  else if geb h 165 && ltb h 200 then cyan
  else if geb h 200 && ltb h 260 then blue
  else if geb h 260 && ltb h 300 then purple
  else if geb h 300 && ltb h 340 then pink
  else red)%Q.

Definition shades : list Z :=
  [50; 100; 200; 300; 400; 500; 600; 700; 800; 900; 950]%Z.

(** [arr[i]] for an integer [i]: [None] is [undefined]. *)
Definition jsIndex {A} (arr : list A) (i : Z) : option A :=
  if (i <? 0)%Z then None else arr !! Z.to_nat i.

Definition lightnessToShade (l : Q) : option Z :=
  let index :=
    round (mul (sub 1 l) (inject_Z (Z.of_nat (length shades) - 1))) in
  jsIndex shades (Z.max 0 (Z.min (Z.of_nat (length shades) - 1) index)).

Definition lightnessToAntLevel (l : Q) : Z :=
  Z.max 1 (Z.min 10 (round (mul (sub 1 l) 9) + 1)).

Definition semanticMap (role : ColorRole) : string :=
  match role with
  | red => "error" | orange => "warning" | yellow => "warning"
  | green => "success" | cyan => "secondary" | blue => "primary"
  | purple => "tertiary" | pink => "secondary" | gray => "surface"
  end.

Definition semanticMapAnt (role : ColorRole) : string :=
  match role with
  | red => "error" | orange => "warning" | yellow => "warning"
  | green => "success" | cyan => "info" | blue => "primary"
  | purple => "primary" | pink => "error" | gray => "neutral"
  end.

Definition semanticMapWcag (l : Q) (role : ColorRole) : string :=
  match role with
  | red => "error" | orange => "warning" | yellow => "warning"
  | green => "success" | cyan => "info" | blue => "info"
  | purple => "info" | pink => "error"
  | gray => if gtb l (1 # 2) then "neutral-light" else "neutral-dark"
  end.

(** A shade inside a template literal. *)
Definition shadeString (shade : option Z) : string :=
  match shade with
  | Some n => ofInt n
  | None => "undefined"
  end.

(** The name the [switch (pattern)] of [assignTokenNames] gives a color
    before the registry is consulted.  The pattern is the string received
    at run time; none of the five cases matching leaves the initial empty
    [tokenName]. *)
Definition candidateName (pattern customPrefix : string)
  (color : ExtractedColor) : string :=
  let '(h, s, l) := rgbToHsl (r color) (g color) (b color) in
  let role := detectColorRole (r color) (g color) (b color) in
  let shade := lightnessToShade l in
  let antLevel := lightnessToAntLevel l in
  if String.eqb pattern "material" then
    let semantic := semanticMap role in
    if bool_decide (shade = Some 500%Z) then "color-" +:+ semantic
    else "color-" +:+ semantic +:+ "-" +:+ shadeString shade
  else if String.eqb pattern "tailwind" then
    roleName role +:+ "-" +:+ shadeString shade
  else if String.eqb pattern "antd" then
    let semantic := semanticMapAnt role in
    semantic +:+ "-" +:+ ofInt antLevel
  else if String.eqb pattern "wcag" then
    "color-" +:+ semanticMapWcag l role
  else if String.eqb pattern "custom" then
    let prefix :=
      match trim customPrefix with
      | EmptyString => "color"
      | p => p
      end in
    prefix +:+ "-" +:+ roleName role +:+ "-" +:+ shadeString shade
  else EmptyString.

(** The registry step at the end of the callback: the new [roleCount] and
    the final [tokenName]. *)
Definition resolveCollision (roleCount : gmap string Z) (tokenName : string)
  : gmap string Z * string :=
  match roleCount !! tokenName with
  | Some n =>
      let n' := (n + 1)%Z in
      (<[tokenName := n']> roleCount, tokenName +:+ "-" +:+ ofInt n')
  | None => (<[tokenName := 0%Z]> roleCount, tokenName)
  end.

(** [{ ...color, tokenName }]. *)
Definition withTokenName (color : ExtractedColor) (name : string)
  : ExtractedColor :=
  {| hex := hex color; r := r color; g := g color; b := b color;
     a := a color; source := source color; tokenName := name |}.

(** [colors.map(callback)] with the registry the callback closes over. *)
Fixpoint assignFrom (roleCount : gmap string Z)
  (pattern customPrefix : string) (colors : list ExtractedColor)
  : list ExtractedColor :=
  match colors with
  | [] => []
  | color :: rest =>
      let '(roleCount', tokenName) :=
        resolveCollision roleCount (candidateName pattern customPrefix color) in
      withTokenName color tokenName
        :: assignFrom roleCount' pattern customPrefix rest
  end.

Definition assignTokenNames (colors : list ExtractedColor)
  (pattern customPrefix : string) : list ExtractedColor :=
  assignFrom ∅ pattern customPrefix colors.

(** ** Export helpers *)

Module JsObject.

(** The own properties of a plain object, in creation order. *)
Definition t (V : Type) : Type := list (string * V).

(** The own property [k], if any. *)
Fixpoint get {V} (o : t V) (k : string) : option V :=
  match o with
  | [] => None
  | (k', v) :: o' => if String.eqb k' k then Some v else get o' k
  end.

(** Defines or overwrites the own property [k]; an existing property
    keeps its place in the creation order. *)
Fixpoint set {V} (o : t V) (k : string) (v : V) : t V :=
  match o with
  | [] => [(k, v)]
  | (k', v') :: o' =>
      if String.eqb k' k then (k', v) :: o' else (k', v') :: set o' k v
  end.

(** The properties every object literal inherits from [Object.prototype]. *)
Definition protoKeys : list string :=
  [ "constructor"; "__defineGetter__"; "__defineSetter__";
    "hasOwnProperty"; "__lookupGetter__"; "__lookupSetter__";
    "isPrototypeOf"; "propertyIsEnumerable"; "toString"; "valueOf";
    "__proto__"; "toLocaleString" ].

(** [o[k] = v] for a string [v]: the inherited setter of [__proto__]
    ignores a string, any other key becomes an own property. *)
Definition assign (o : t string) (k v : string) : t string :=
  if String.eqb k "__proto__" then o else set o k v.

Definition digitValue (c : ascii) : option N :=
  let n := N_of_ascii c in
  if ((48 <=? n) && (n <=? 57))%N then Some (n - 48)%N else None.

Fixpoint parseDigits (s : string) (acc : N) : option N :=
  match s with
  | EmptyString => Some acc
  | String c s' =>
      match digitValue c with
      | Some d => parseDigits s' (acc * 10 + d)%N
      | None => None
      end
  end.

(** The array index a key denotes: a canonical decimal numeral below
    [2^32 - 1]. *)
Definition arrayIndex (k : string) : option N :=
  match k with
  | EmptyString => None
  | String "0" EmptyString => Some 0%N
  | String "0" _ => None
  | _ =>
      match parseDigits k 0 with
      | Some n => if (n <? 2 ^ 32 - 1)%N then Some n else None
      | None => None
      end
  end.

Fixpoint insertIndexed {V} (i : N) (kv : string * V)
  (l : list (N * (string * V))) : list (N * (string * V)) :=
  match l with
  | [] => [(i, kv)]
  | (j, kv') :: l' =>
      if (i <? j)%N then (i, kv) :: l else (j, kv') :: insertIndexed i kv l'
  end.

(** The own properties in enumeration order: array indices in ascending
    order, then the other keys in creation order. *)
Definition entries {V} (o : t V) : list (string * V) :=
  let indexed :=
    foldr (fun kv acc =>
             match arrayIndex kv.1 with
             | Some i => insertIndexed i kv acc
             | None => acc
             end) [] o in
  List.map snd indexed
  ++ List.filter (fun kv => bool_decide (arrayIndex kv.1 = None)) o.

End JsObject.

Module Json.

(** The values serialised here: strings and objects. *)
Unset Elimination Schemes.
Inductive value :=
| Str (s : string)
| Obj (members : list (string * value)).
Set Elimination Schemes.

Definition quoteChar : ascii := ascii_of_N 34.
Definition newline : string := String (ascii_of_N 10) EmptyString.

(** One character inside a JSON string. *)
Definition escapeChar (c : ascii) : string :=
  let n := N_of_ascii c in
  if (n =? 34)%N then String "\" (String quoteChar EmptyString)
  else if (n =? 92)%N then "\\"
  else if (n =? 8)%N then "\b"
  else if (n =? 9)%N then "\t"
  else if (n =? 10)%N then "\n"
  else if (n =? 12)%N then "\f"
  else if (n =? 13)%N then "\r"
  else if (n <? 32)%N then "\u00" +:+ padStart2 (toString16 (Z.of_N n))
  else String c EmptyString.

Fixpoint escape (s : string) : string :=
  match s with
  | EmptyString => EmptyString
  | String c s' => escapeChar c +:+ escape s'
  end.

Definition quote (s : string) : string :=
  String quoteChar (escape s +:+ String quoteChar EmptyString).

Fixpoint joinWith (sep : string) (l : list string) : string :=
  match l with
  | [] => EmptyString
  | [x] => x
  | x :: l' => x +:+ sep +:+ joinWith sep l'
  end.

(** [JSON.stringify(v, null, 2)] below the indentation [indent]. *)
Fixpoint stringifyAt (indent : string) (v : value) : string :=
  match v with
  | Str s => quote s
  | Obj [] => "{}"
  | Obj members =>
      let inner := indent +:+ "  " in
      "{" +:+ newline
      +:+ joinWith ("," +:+ newline)
           (List.map (fun kv => inner +:+ quote kv.1 +:+ ": "
                                +:+ stringifyAt inner kv.2) members)
      +:+ newline +:+ indent +:+ "}"
  end.

Definition stringify (v : value) : string := stringifyAt EmptyString v.

(** A dictionary of strings as a JSON value, in enumeration order. *)
Definition ofFlat (o : JsObject.t string) : value :=
  Obj (List.map (fun kv => (kv.1, Str kv.2)) (JsObject.entries o)).

(** A dictionary of dictionaries as a JSON value. *)
Definition ofNested (o : JsObject.t (JsObject.t string)) : value :=
  Obj (List.map (fun kv => (kv.1, ofFlat kv.2)) (JsObject.entries o)).

(** The member [k] of an object. *)
Definition member (v : value) (k : string) : option value :=
  match v with
  | Obj members => JsObject.get members k
  | Str _ => None
  end.

End Json.

(** The group key and the shade key [buildJson] takes from a token name:
    [parts.slice(0, parts.length - 1).join("-")] and
    [parts[parts.length - 1]]. *)
Definition tailwindKeys (tokenName : string) : string * string :=
  let parts := split tokenName in
  let colorName := join (take (length parts - 1) parts) in
  let shade := default "undefined" (last parts) in
  (colorName, shade).

(** One iteration of the loop of the tailwind branch, as its effect on
    [nested].  When [nested[colorName]] is only inherited from
    [Object.prototype] it is truthy, no group is created, and the write
    lands on the inherited object: [nested] itself is unchanged. *)
Definition nestedStep (nested : JsObject.t (JsObject.t string))
  (c : ExtractedColor) : JsObject.t (JsObject.t string) :=
  let '(colorName, shade) := tailwindKeys (tokenName c) in
  match JsObject.get nested colorName with
  | Some group =>
      JsObject.set nested colorName (JsObject.assign group shade (hex c))
  | None =>
      if bool_decide (colorName ∈ JsObject.protoKeys) then nested
      else JsObject.set nested colorName (JsObject.assign [] shade (hex c))
  end.

Definition flatStep (flat : JsObject.t string) (c : ExtractedColor)
  : JsObject.t string :=
  JsObject.assign flat (tokenName c) (hex c).

Definition buildJson (colors : list ExtractedColor) (pattern : string)
  : string :=
  if String.eqb pattern "tailwind" then
    let nested := fold_left nestedStep colors [] in
    Json.stringify (Json.Obj [("colors", Json.ofNested nested)])
  else
    let flat := fold_left flatStep colors [] in
    Json.stringify (Json.Obj [("colors", Json.ofFlat flat)]).

(** ** The design document's words

    Definitions that follow the wording of the design document rather than
    the code; the theorems below compare them with the code. *)

(** Sample [c], at position [i] of [colors], is the first occurrence of
    its hex value: no sample before position [i] has the same hex string. *)
Definition isFirstOccurrence (colors : list ExtractedColor) (i : nat)
  (c : ExtractedColor) : Prop :=
  hex c ∉ hex <$> take i colors.

#[global] Instance isFirstOccurrence_dec colors i c :
  Decision (isFirstOccurrence colors i c).
Proof. unfold isFirstOccurrence. apply _. Defined.

(** The samples of [colors] that are first occurrences, in their order. *)
Definition firstOccurrences (colors : list ExtractedColor)
  : list ExtractedColor :=
  (filter (fun ic => isFirstOccurrence colors ic.1 ic.2)
     (imap (fun i c => (i, c)) colors)).*2.

(** The sample [c] found under another source. *)
Definition retagged (source : Source) (c : ExtractedColor) : ExtractedColor :=
  {| hex := hex c; r := r c; g := g c; b := b c; a := a c;
     source := source; tokenName := tokenName c |}.

(** A paint that yields a sample: its kind is solid and its visibility
    flag is not explicitly false. *)
Definition solidVisible (p : Paint) : Prop :=
  paint_type p = "SOLID" ∧ paint_visible p ≠ Some false.

(** A string with a hyphen in it. *)
Fixpoint hasHyphen (s : string) : bool :=
  match s with
  | EmptyString => false
  | String c s' => Ascii.eqb c "-" || hasHyphen s'
  end.

(** A string of decimal digits. *)
Fixpoint isDigits (s : string) : bool :=
  match s with
  | EmptyString => true
  | String c s' =>
      (48 <=? N_of_ascii c)%N && (N_of_ascii c <=? 57)%N && isDigits s'
  end.

(** A token name split at its last hyphen: the part before the hyphen and
    the segment after it.  [None] when the name has no hyphen. *)
Fixpoint splitLastHyphen (s : string) : option (string * string) :=
  match s with
  | EmptyString => None
  | String c s' =>
      match splitLastHyphen s' with
      | Some (group, shade) => Some (String c group, shade)
      | None => if Ascii.eqb c "-" then Some (EmptyString, s') else None
      end
  end.

(** The value a two-level dictionary holds under a group key and a shade
    key. *)
Definition lookup2 (nested : JsObject.t (JsObject.t string))
  (group shade : string) : option string :=
  JsObject.get nested group ≫= fun o => JsObject.get o shade.

(** The hex string of the last sample of [colors] that satisfies [P]. *)
Definition lastHex (P : ExtractedColor → Prop) `{!∀ c, Decision (P c)}
  (colors : list ExtractedColor) : option string :=
  hex <$> last (filter P colors).

(** A token name the export treats as the design document describes: it
    has a hyphen, and neither its group key nor its shade key is a
    property inherited from [Object.prototype]. *)
Definition exportable (c : ExtractedColor) : Prop :=
  hasHyphen (tokenName c) = true
  ∧ (fst (tailwindKeys (tokenName c)) ∉ JsObject.protoKeys)
  ∧ (snd (tailwindKeys (tokenName c)) ∉ JsObject.protoKeys).

#[global] Instance exportable_dec c : Decision (exportable c).
Proof. unfold exportable. apply _. Defined.

(** The five values of the type [NamingPattern]. *)
Definition knownPatterns : list string :=
  ["material"; "tailwind"; "antd"; "wcag"; "custom"].

(** The number of samples among [earlier] whose candidate name is [name]. *)
Definition occurrences (pattern customPrefix : string) (name : string)
  (earlier : list ExtractedColor) : nat :=
  length (filter (fun c => candidateName pattern customPrefix c = name) earlier).

(** The name of the [(k+1)]-th color whose candidate name is [name]: the
    first keeps [name], the others receive [name-k]. *)
Definition suffixedName (name : string) (k : nat) : string :=
  match k with
  | O => name
  | S _ => name +:+ "-" +:+ ofInt (Z.of_nat k)
  end.

(** The index of the 50-950 scale for a lightness: [round((1 - l) * 10)],
    the difference and the product being those of doubles, clamped to the
    interval from 0 to 10. *)
Definition shadeIndex (l : Q) : Z :=
  Z.max 0 (Z.min 10 (round (mul (sub 1 l) 10))).

(** The hue ranges of the role classifier, in degrees: each entry is a
    half-open interval (lower bound included, upper bound excluded) and its
    role. *)
Definition hueBuckets : list (Q * Q * ColorRole) :=
  [ (0, 20, red); (20, 45, orange); (45, 70, yellow); (70, 165, green);
    (165, 200, cyan); (200, 260, blue); (260, 300, purple);
    (300, 340, pink); (340, 360, red) ]%Q.

Definition inBucket (h : Q) (bucket : Q * Q * ColorRole) : bool :=
  Qle_bool bucket.1.1 h && negb (Qle_bool bucket.1.2 h).

(** The role of the first range that holds the hue, if any. *)
Definition bucketRole (h : Q) : option ColorRole :=
  snd <$> List.find (inBucket h) hueBuckets.

(** ** Invariants of the loops *)

(** The samples of the strokes and of the children of a node. *)
Definition strokeSamples (strokes : option (list Paint))
  : list ExtractedColor :=
  match strokes with
  | Some ss => extractPaints ss stroke
  | None => []
  end.

Definition childSamples (children : option (list SceneNode))
  : list ExtractedColor :=
  match children with
  | Some cs => List.concat (List.map extractColorsFromNode cs)
  | None => []
  end.

(** [roleCount] is the registry reached after naming the samples [pre]:
    a name seen [k+1] times is registered with counter [k]. *)
Definition registryOf (pattern customPrefix : string)
  (roleCount : gmap string Z) (pre : list ExtractedColor) : Prop :=
  ∀ name, roleCount !! name
          = match occurrences pattern customPrefix name pre with
            | O => None
            | S k => Some (Z.of_nat k)
            end.

(** The dictionaries the two loops of [buildJson] build have distinct keys
    at both levels. *)
Definition wellKeyed (nested : JsObject.t (JsObject.t string)) : Prop :=
  NoDup nested.*1 ∧ ∀ kv, kv ∈ nested → NoDup kv.2.*1.

(** In [colors], every sample found as text stands after a sample of the
    same hex value found as a fill. *)
Definition textShadowed (colors : list ExtractedColor) : Prop :=
  ∀ j c, colors !! j = Some c → source c = text →
         ∃ i c', i < j ∧ colors !! i = Some c'
                 ∧ source c' = fill ∧ hex c' = hex c.

(** ** Induction on nodes *)

Section SceneNodeInduction.

Variable P : SceneNode → Prop.

Hypothesis node_case :
  ∀ type fills strokes children,
    Forall P (default [] children) → P (Node type fills strokes children).

Fixpoint SceneNode_ind (node : SceneNode) : P node :=
  let 'Node type fills strokes children := node in
  node_case type fills strokes children
    (match children as o return Forall P (default [] o) with
     | Some cs =>
         (fix children_ind (l : list SceneNode) : Forall P l :=
            match l with
            | [] => @List.Forall_nil _ P
            | child :: l' =>
                @List.Forall_cons _ P child l'
                  (SceneNode_ind child) (children_ind l')
            end) cs
     | None => @List.Forall_nil _ P
     end).

End SceneNodeInduction.

(** ** A design with many reds

    A rectangle filled with fifty-one mid reds (lightness between 0.45 and
    0.55) and one pale red (lightness 0.99), all of different hex values. *)

(** The component of an 8-bit channel [n]: the double [n / 255]. *)
Definition channel (n : Z) : Q := div (inject_Z n) 255.

Definition solidPaint (r g b : Q) : Paint :=
  {| paint_type := "SOLID"; paint_visible := None; paint_opacity := None;
     paint_color := (r, g, b) |}.

Definition manyReds : SceneNode :=
  Node "RECTANGLE"
    (Some (List.map (fun k => solidPaint (channel 230) (channel k) (channel k))
             (seqZ 0 51)
           ++ [solidPaint 1 (channel 250) (channel 250)]))
    None None.

(** ** Small designs *)

(** The sample of a solid, opaque blue fill of intensity [n / 255]. *)
Definition blueSample (n : Z) : ExtractedColor :=
  {| hex := rgbToHex 0 0 (channel n); r := 0; g := 0; b := channel n; a := 1;
     source := fill; tokenName := EmptyString |}.

(** Three blues of lightness 0.5 and nearby. *)
Definition threeBlues : list ExtractedColor :=
  [blueSample 255; blueSample 254; blueSample 253].

(** A text node with one solid fill and one stroke of the same color. *)
Definition blueLabel : SceneNode :=
  Node "TEXT" (Some [solidPaint 0 0 1]) (Some [solidPaint 0 0 1]) None.

(** ** What the naming engine reads off a sample *)

(** The lightness, the role, the shade and the level of a sample, as the
    callback of [assignTokenNames] computes them. *)
Definition lightnessOf (c : ExtractedColor) : Q :=
  (rgbToHsl (r c) (g c) (b c)).2.

Definition roleOf (c : ExtractedColor) : ColorRole :=
  detectColorRole (r c) (g c) (b c).

Definition shadeOf (c : ExtractedColor) : option Z :=
  lightnessToShade (lightnessOf c).

Definition levelOf (c : ExtractedColor) : Z :=
  lightnessToAntLevel (lightnessOf c).

(** The no-break space U+00A0, as its two bytes in UTF-8. *)
Definition noBreakSpace : string :=
  String (ascii_of_N 194) (String (ascii_of_N 160) EmptyString).

(** The prefix of the custom pattern: [customPrefix.trim() || "color"]. *)
Definition effectivePrefix (customPrefix : string) : string :=
  match trim customPrefix with
  | EmptyString => "color"
  | String c0 p => String c0 p
  end.

(** The patterns under which the names of a batch of [n] samples are
    pairwise distinct: every known pattern but [material], and [material]
    for at most fifty-one samples. *)
Definition collisionFree (pattern : string) (n : nat) : Prop :=
  pattern ∈ ["tailwind"; "antd"; "wcag"; "custom"]
  ∨ (pattern = "material" ∧ (n ≤ 51)%nat).

(** ** Reading a hex string back *)

(** The value of an uppercase hexadecimal digit. *)
Definition hexDigitValue (c : ascii) : option Z :=
  let n := N_of_ascii c in
  if ((48 <=? n) && (n <=? 57))%N then Some (Z.of_N (n - 48))
  else if ((65 <=? n) && (n <=? 70))%N then Some (Z.of_N (n - 55))
  else None.

(** The value of a pair of uppercase hexadecimal digits. *)
Definition hexPairValue (hi lo : ascii) : option Z :=
  match hexDigitValue hi, hexDigitValue lo with
  | Some h, Some l => Some (16 * h + l)%Z
  | _, _ => None
  end.

(** The three channels of a string of the form [#RRGGBB]; [None] for any
    other string. *)
Definition decodeHex (s : string) : option (Z * Z * Z) :=
  match s with
  | String "#" (String r1 (String r0 (String g1 (String g0
      (String b1 (String b0 EmptyString)))))) =>
      match hexPairValue r1 r0, hexPairValue g1 g0, hexPairValue b1 b0 with
      | Some r, Some g, Some b => Some (r, g, b)
      | _, _, _ => None
      end
  | _ => None
  end.

(** The channel [toHex] prints for the integer [z]: two digits that read
    back as [z] once in upper case. *)
Definition printsChannel (z : Z) : bool :=
  match padStart2 (toString16 z) with
  | String hi (String lo EmptyString) =>
      bool_decide (hexPairValue (upperChar hi) (upperChar lo) = Some z)
  | _ => false
  end.

(** ** The paints of a tree *)

(** The paints of a node and of its descendants: the fills and the strokes
    that are arrays. *)
Fixpoint paintsOf (node : SceneNode) : list Paint :=
  let 'Node _ fills strokes children := node in
  default [] fills ++ default [] strokes
  ++ match children with
     | Some cs => List.concat (List.map paintsOf cs)
     | None => []
     end.

(** [c] is the sample of the paint [p], whatever its source: the
    components of the paint, its opacity or 1, the hex string of the
    components and no name yet. *)
Definition sampleOf (p : Paint) (c : ExtractedColor) : Prop :=
  paint_color p = (r c, g c, b c)
  ∧ a c = default 1%Q (paint_opacity p)
  ∧ hex c = rgbToHex (r c) (g c) (b c)
  ∧ tokenName c = EmptyString.

(** ** The exported document *)

(** The value [buildJson] stores under the key [colors]. *)
Definition colorsDocument (colors : list ExtractedColor) (pattern : string)
  : Json.value :=
  if String.eqb pattern "tailwind"
  then Json.ofNested (fold_left nestedStep colors [])
  else Json.ofFlat (fold_left flatStep colors []).

(** The value of a document under a group key and a shade key. *)
Definition member2 (doc : Json.value) (group shade : string)
  : option Json.value :=
  Json.member doc group ≫= fun o => Json.member o shade.

(** ** Message handler *)

(** A message of the panel: its [type], its [pattern] and [customPrefix]
    ([None] when absent) and its [colors]. *)
Record Message := {
  msg_type : string;
  msg_pattern : option string;
  msg_customPrefix : option string;
  msg_colors : list ExtractedColor
}.

(** What the handler does towards the panel and the host: the messages it
    posts, and the closing of the plugin. *)
Inductive Outbound :=
| PostNoSelection
| PostColorsExtracted (colors : list ExtractedColor) (source : string)
| PostExportDone (target : string) (count : nat)
| PostExportError (message : string)
| PostJsonReady (json : string)
| ClosePlugin.

(** What the awaited call of [exportToFigmaVariables] does: it returns, or
    it throws an error whose [message] may be absent. *)
Inductive ExportOutcome :=
| Exported
| Threw (message : option string).

(** A pattern passed on as it is: an absent pattern matches no case of the
    switch of [assignTokenNames] and is not [tailwind] for [buildJson];
    the empty string, which stands for it, behaves the same. *)
Definition patternArgument (pattern : option string) : string :=
  default EmptyString pattern.

(** [figma.ui.onmessage] for the current [selection]; [outcome] is what
    the call of [exportToFigmaVariables] does when the handler makes it. *)
Definition onmessage (selection : list SceneNode) (outcome : ExportOutcome)
  (msg : Message) : list Outbound :=
  if String.eqb (msg_type msg) "extract-colors" then
    match selection with
    | [] => [PostNoSelection]
    | _ :: _ =>
        let raw := List.concat (List.map extractColorsFromNode selection) in
        let unique := deduplicateColors raw in
        let named :=
          assignTokenNames unique (default "tailwind" (msg_pattern msg))
            (default "color" (msg_customPrefix msg)) in
        [PostColorsExtracted named "extract"]
    end
  else if String.eqb (msg_type msg) "apply-naming" then
    let renamed :=
      assignTokenNames (msg_colors msg) (patternArgument (msg_pattern msg))
        (default "color" (msg_customPrefix msg)) in
    [PostColorsExtracted renamed "rename"]
  else if String.eqb (msg_type msg) "export-variables" then
    match outcome with
    | Exported => [PostExportDone "variables" (length (msg_colors msg))]
    | Threw message => [PostExportError (default "Unknown error" message)]
    end
  else if String.eqb (msg_type msg) "export-json" then
    [PostJsonReady (buildJson (msg_colors msg)
                      (patternArgument (msg_pattern msg)))]
  else if String.eqb (msg_type msg) "close" then [ClosePlugin]
  else [].

(** The six names the wcag pattern starts from. *)
Definition wcagNames : list string :=
  [ "color-error"; "color-warning"; "color-success"; "color-info";
    "color-neutral-light"; "color-neutral-dark" ].

(** * Properties *)

(** ** Rounding to the nearest double *)

Section Pow2.

Local Open Scope Q_scope.

Lemma pow2_pos e : 0 < pow2 e.
Proof. apply Qpower_0_lt. reflexivity. Qed.

Lemma pow2_add a b : pow2 (a + b) == pow2 a * pow2 b.
Proof. apply Qpower_plus. intros H. inversion H. Qed.

Lemma pow2_le a b : (a <= b)%Z -> pow2 a <= pow2 b.
Proof. intros H. apply Qpower_le_compat_l; [exact H|lra]. Qed.

Lemma pow2_lt a b : (a < b)%Z -> pow2 a < pow2 b.
Proof. intros H. apply Qpower_lt_compat_l; [exact H|lra]. Qed.

Lemma pow2_lt_inv a b : pow2 a < pow2 b -> (a < b)%Z.
Proof. intros H. apply (Qpower_lt_compat_l_inv 2); [exact H|lra]. Qed.

Lemma pow2_Z e : (0 <= e)%Z -> pow2 e == inject_Z (2 ^ e).
Proof. intros H. symmetry. apply (Zpower_Qpower 2 e H). Qed.

Lemma pow2_succ e : pow2 (e + 1) == 2 * pow2 e.
Proof. rewrite pow2_add. change (pow2 1) with 2. ring. Qed.

Lemma pow2_pred e : pow2 (e - 1) == pow2 e / 2.
Proof.
  assert (H : pow2 e == 2 * pow2 (e - 1)).
  { rewrite <- pow2_succ. replace (e - 1 + 1)%Z with e by lia. reflexivity. }
  rewrite H. field.
Qed.

End Pow2.

Section Ilog2.

Local Open Scope Q_scope.

Lemma ilog2_rough (n : Z) (d : positive) :
  (0 < n)%Z ->
  let k := (Z.log2 n - Z.log2 (Zpos d))%Z in
  pow2 (k - 1) <= n # d /\ n # d < pow2 (k + 1).
Proof.
  intros Hn k.
  destruct (Z.log2_spec n Hn) as [Hn1 Hn2].
  destruct (Z.log2_spec (Zpos d) eq_refl) as [Hd1 Hd2].
  pose proof (Z.log2_nonneg n) as Ha.
  pose proof (Z.log2_nonneg (Zpos d)) as Hb.
  set (a := Z.log2 n) in *. set (b := Z.log2 (Zpos d)) in *.
  rewrite Zle_Qle, <- pow2_Z in Hn1, Hd1 by lia.
  rewrite Zlt_Qlt, <- pow2_Z in Hn2, Hd2 by lia.
  assert (Hdpos : 0 < inject_Z (Zpos d)) by reflexivity.
  rewrite (Qmake_Qdiv n d). split.
  - apply Qle_shift_div_l; [exact Hdpos|].
    apply Qle_trans with (pow2 (k - 1) * pow2 (Z.succ b)).
    + apply Qmult_le_l; [apply pow2_pos|]. apply Qlt_le_weak, Hd2.
    + rewrite <- pow2_add. replace (k - 1 + Z.succ b)%Z with a by lia.
      exact Hn1.
  - apply Qlt_shift_div_r; [exact Hdpos|].
    apply Qlt_le_trans with (pow2 (Z.succ a)); [exact Hn2|].
    replace (Z.succ a) with (k + 1 + b)%Z by lia. rewrite pow2_add.
    apply Qmult_le_l; [apply pow2_pos|]. exact Hd1.
Qed.

Lemma ilog2_spec x : 0 < x -> pow2 (ilog2 x) <= x /\ x < pow2 (ilog2 x + 1).
Proof.
  intros Hx. destruct x as [n d].
  assert (Hn : (0 < n)%Z).
  { unfold Qlt in Hx. cbn in Hx. lia. }
  destruct (ilog2_rough n d Hn) as [Hlo Hhi].
  unfold ilog2. cbn [Qnum Qden].
  set (k := (Z.log2 n - Z.log2 (Zpos d))%Z) in *.
  destruct (Qle_bool (pow2 k) (n # d)) eqn:Hle.
  - apply Qle_bool_iff in Hle. split; assumption.
  - split; [exact Hlo|]. replace (k - 1 + 1)%Z with k by lia.
    apply Qnot_le_lt. intros H. apply Qle_bool_iff in H. congruence.
Qed.

Lemma ilog2_lt x k : 0 < x -> x < pow2 k -> (ilog2 x < k)%Z.
Proof.
  intros Hx Hk. destruct (ilog2_spec x Hx) as [Hlo _].
  apply pow2_lt_inv. eapply Qle_lt_trans; eassumption.
Qed.

Lemma ilog2_ge x k : 0 < x -> pow2 k <= x -> (k <= ilog2 x)%Z.
Proof.
  intros Hx Hk. destruct (ilog2_spec x Hx) as [_ Hhi].
  assert (k < ilog2 x + 1)%Z; [|lia].
  apply pow2_lt_inv. eapply Qle_lt_trans; eassumption.
Qed.

Lemma ilog2_le x y : 0 < x -> x <= y -> (ilog2 x <= ilog2 y)%Z.
Proof.
  intros Hx Hxy. destruct (ilog2_spec x Hx) as [Hlo _].
  apply ilog2_ge; [lra|]. lra.
Qed.

Lemma ilog2_Qeq x y : 0 < x -> x == y -> ilog2 x = ilog2 y.
Proof.
  intros Hx Hxy.
  assert (ilog2 x <= ilog2 y)%Z by (apply ilog2_le; lra).
  assert (ilog2 y <= ilog2 x)%Z by (apply ilog2_le; lra).
  lia.
Qed.

End Ilog2.

Section Rne.

Local Open Scope Q_scope.

Lemma rne_cases x :
  let f := Qfloor x in
  (x - inject_Z f < 1 # 2 /\ rne x = f)
  \/ (1 # 2 < x - inject_Z f /\ rne x = (f + 1)%Z)
  \/ (x - inject_Z f == 1 # 2
      /\ rne x = if Z.even f then f else (f + 1)%Z).
Proof.
  intros f. unfold rne. fold f.
  destruct (Qcompare (x - inject_Z f) (1 # 2)) eqn:Hc.
  - right. right. split; [|reflexivity]. apply Qeq_alt, Hc.
  - left. split; [|reflexivity]. apply Qlt_alt, Hc.
  - right. left. split; [|reflexivity]. apply Qgt_alt, Hc.
Qed.

Lemma Qfloor_bounds x :
  inject_Z (Qfloor x) <= x /\ x < inject_Z (Qfloor x) + 1.
Proof.
  pose proof (Qfloor_le x). pose proof (Qlt_floor x) as Hlt.
  rewrite inject_Z_plus in Hlt. change (inject_Z 1) with 1 in Hlt.
  split; assumption.
Qed.

Lemma rne_Qeq x y : x == y -> rne x = rne y.
Proof.
  intros H. unfold rne. rewrite <- (Qfloor_comp x y H).
  assert (Hfrac : x - inject_Z (Qfloor x) == y - inject_Z (Qfloor x))
    by (apply Qplus_comp; [exact H|reflexivity]).
  rewrite (Qcompare_comp _ _ Hfrac (1 # 2) (1 # 2) ltac:(reflexivity)).
  reflexivity.
Qed.

Lemma rne_Z n : rne (inject_Z n) = n.
Proof.
  destruct (rne_cases (inject_Z n)) as [[_ H]|[[H _]|[H _]]];
    rewrite Qfloor_Z in *; [exact H|lra..].
Qed.

(** The rounded value is at most one half away. *)
Lemma rne_error x :
  x - (1 # 2) <= inject_Z (rne x) /\ inject_Z (rne x) <= x + (1 # 2).
Proof.
  destruct (Qfloor_bounds x) as [Hlo Hhi].
  destruct (rne_cases x) as [[H ->]|[[H ->]|[H ->]]].
  - lra.
  - rewrite inject_Z_plus. change (inject_Z 1) with 1. lra.
  - destruct (Z.even (Qfloor x));
      [|rewrite inject_Z_plus; change (inject_Z 1) with 1]; lra.
Qed.

Lemma rne_le x y : x <= y -> (rne x <= rne y)%Z.
Proof.
  intros Hxy. pose proof (Qfloor_resp_le x y Hxy) as Hf.
  destruct (Qfloor_bounds x) as [Hx0 Hx1].
  destruct (Qfloor_bounds y) as [Hy0 Hy1].
  destruct (Z.eq_dec (Qfloor x) (Qfloor y)) as [Heq|Hne].
  - destruct (rne_cases x) as [[Hx ->]|[[Hx ->]|[Hx ->]]];
      destruct (rne_cases y) as [[Hy ->]|[[Hy ->]|[Hy ->]]];
      rewrite ?Heq in *; try lia; try lra;
      destruct (Z.even (Qfloor y)); lia.
  - assert (rne x <= Qfloor x + 1)%Z.
    { destruct (rne_cases x) as [[_ ->]|[[_ ->]|[_ ->]]];
        [lia..|destruct (Z.even _); lia]. }
    assert (Qfloor y <= rne y)%Z.
    { destruct (rne_cases y) as [[_ ->]|[[_ ->]|[_ ->]]];
        [lia..|destruct (Z.even _); lia]. }
    lia.
Qed.

Lemma rne_lower x (lo : Z) : inject_Z lo <= x -> (lo <= rne x)%Z.
Proof. intros H. apply rne_le in H. rewrite rne_Z in H. exact H. Qed.

Lemma rne_upper x (hi : Z) : x <= inject_Z hi -> (rne x <= hi)%Z.
Proof. intros H. apply rne_le in H. rewrite rne_Z in H. exact H. Qed.

End Rne.

Section Rounding.

Local Open Scope Q_scope.

Lemma exponent_min x : (-1074 <= exponent x)%Z.
Proof. unfold exponent. lia. Qed.

Lemma exponent_le x y : 0 < x -> x <= y -> (exponent x <= exponent y)%Z.
Proof.
  intros Hx Hxy. pose proof (ilog2_le x y Hx Hxy). unfold exponent. lia.
Qed.

Lemma scaled_lt x : 0 < x -> x / pow2 (exponent x) < inject_Z (2 ^ 53).
Proof.
  intros Hx. destruct (ilog2_spec x Hx) as [_ Hhi].
  apply Qlt_shift_div_r; [apply pow2_pos|].
  rewrite <- pow2_Z by lia. rewrite <- pow2_add.
  eapply Qlt_le_trans; [exact Hhi|]. apply pow2_le. unfold exponent. lia.
Qed.

Lemma scaled_ge x :
  0 < x -> (-1074 < exponent x)%Z ->
  inject_Z (2 ^ 52) <= x / pow2 (exponent x).
Proof.
  intros Hx He. destruct (ilog2_spec x Hx) as [Hlo _].
  apply Qle_shift_div_l; [apply pow2_pos|].
  rewrite <- pow2_Z by lia. rewrite <- pow2_add.
  eapply Qle_trans; [|exact Hlo]. apply pow2_le. unfold exponent in *. lia.
Qed.

Lemma rndAbs_val x :
  rndAbs x == inject_Z (rne (x / pow2 (exponent x))) * pow2 (exponent x).
Proof. unfold rndAbs. apply Qred_correct. Qed.

Lemma rne_zero x p : x == 0 -> rne (x / p) = 0%Z.
Proof.
  intros Hx. rewrite <- (rne_Z 0). apply rne_Qeq.
  unfold Qdiv. rewrite Hx. change (inject_Z 0) with 0. ring.
Qed.

Lemma rndAbs_zero x : x == 0 -> rndAbs x == 0.
Proof. intros Hx. rewrite rndAbs_val, (rne_zero x _ Hx). ring. Qed.

Lemma Qdiv_le_compat x y p : 0 < p -> x <= y -> x / p <= y / p.
Proof.
  intros Hp Hxy. unfold Qdiv. apply Qmult_le_compat_r; [exact Hxy|].
  apply Qinv_le_0_compat, Qlt_le_weak, Hp.
Qed.

Lemma rndAbs_nonneg x : 0 <= x -> 0 <= rndAbs x.
Proof.
  intros Hx. rewrite rndAbs_val.
  apply Qmult_le_0_compat; [|apply Qlt_le_weak, pow2_pos].
  change 0 with (inject_Z 0). rewrite <- Zle_Qle. apply rne_lower.
  change (inject_Z 0) with 0.
  apply Qle_shift_div_l; [apply pow2_pos|]. lra.
Qed.

Lemma rndAbs_le x y : 0 <= x -> x <= y -> rndAbs x <= rndAbs y.
Proof.
  intros Hx Hxy.
  destruct (Qlt_le_dec 0 x) as [Hpos|Hzero].
  2: { rewrite (rndAbs_zero x) by lra. apply rndAbs_nonneg. lra. }
  pose proof (exponent_le x y Hpos Hxy) as He.
  rewrite (rndAbs_val x), (rndAbs_val y).
  destruct (Z.eq_dec (exponent x) (exponent y)) as [Heq|Hne].
  - rewrite Heq. apply Qmult_le_compat_r; [|apply Qlt_le_weak, pow2_pos].
    rewrite <- Zle_Qle.
    apply rne_le, Qdiv_le_compat; [apply pow2_pos|exact Hxy].
  - apply Qle_trans with (inject_Z (2 ^ 53) * pow2 (exponent x)).
    { apply Qmult_le_compat_r; [|apply Qlt_le_weak, pow2_pos].
      rewrite <- Zle_Qle. apply rne_upper.
      apply Qlt_le_weak, scaled_lt, Hpos. }
    apply Qle_trans with (inject_Z (2 ^ 52) * pow2 (exponent y)).
    { rewrite <- !pow2_Z by lia. rewrite <- !pow2_add. apply pow2_le. lia. }
    apply Qmult_le_compat_r; [|apply Qlt_le_weak, pow2_pos].
    rewrite <- Zle_Qle. apply rne_lower.
    apply scaled_ge; [lra|]. pose proof (exponent_min x). lia.
Qed.

Lemma rndAbs_Qeq x y : 0 <= x -> x == y -> rndAbs x = rndAbs y.
Proof.
  intros Hx Hxy. unfold rndAbs. apply Qred_complete.
  destruct (Qlt_le_dec 0 x) as [Hpos|Hzero].
  - assert (He : exponent x = exponent y).
    { unfold exponent. rewrite (ilog2_Qeq x y Hpos Hxy). reflexivity. }
    rewrite <- He. set (p := pow2 (exponent x)).
    rewrite (rne_Qeq (x / p) (y / p)); [reflexivity|].
    unfold Qdiv. rewrite Hxy. reflexivity.
  - rewrite (rne_zero x) by lra. rewrite (rne_zero y) by lra. ring.
Qed.

Lemma rndAbs_repr (m e : Z) :
  (-1074 <= e)%Z -> (0 <= m < 2 ^ 53)%Z ->
  rndAbs (inject_Z m * pow2 e) == inject_Z m * pow2 e.
Proof.
  intros He Hm. set (x := inject_Z m * pow2 e).
  pose proof (pow2_pos e) as Hp.
  destruct (Z.eq_dec m 0%Z) as [->|Hm0].
  { rewrite rndAbs_zero; unfold x; change (inject_Z 0) with 0; ring. }
  assert (Hm1 : 1 <= inject_Z m).
  { change 1 with (inject_Z 1). rewrite <- Zle_Qle. lia. }
  assert (Hpos : 0 < x).
  { unfold x. apply Qlt_le_trans with (1 * pow2 e); [lra|].
    apply Qmult_le_compat_r; lra. }
  assert (Hlt : x < pow2 (53 + e)).
  { unfold x. rewrite pow2_add, (pow2_Z 53) by lia.
    apply Qmult_lt_compat_r; [exact Hp|]. rewrite <- Zlt_Qlt. lia. }
  pose proof (ilog2_lt x _ Hpos Hlt) as Hlog.
  pose proof (exponent_min x) as Hmin.
  assert (Hex : (exponent x <= e)%Z) by (unfold exponent in *; lia).
  rewrite rndAbs_val. set (ex := exponent x) in *.
  assert (Hsplit : pow2 e == inject_Z (2 ^ (e - ex)) * pow2 ex).
  { rewrite <- pow2_Z by lia. rewrite <- pow2_add.
    replace (e - ex + ex)%Z with e by lia. reflexivity. }
  assert (Hscaled : x / pow2 ex == inject_Z (m * 2 ^ (e - ex))).
  { unfold x. rewrite Hsplit, inject_Z_mult. field.
    pose proof (pow2_pos ex). lra. }
  rewrite (rne_Qeq _ _ Hscaled), rne_Z, inject_Z_mult.
  unfold x. rewrite Hsplit. ring.
Qed.

(** The rounding error is at most half the spacing. *)
Lemma rndAbs_error x :
  x - pow2 (exponent x - 1) <= rndAbs x
  /\ rndAbs x <= x + pow2 (exponent x - 1).
Proof.
  rewrite rndAbs_val, pow2_pred. set (p := pow2 (exponent x)).
  assert (Hp : 0 < p) by apply pow2_pos.
  destruct (rne_error (x / p)) as [Hlo Hhi].
  assert (Elo : (x / p - (1 # 2)) * p == x - p / 2) by (field; lra).
  assert (Ehi : (x / p + (1 # 2)) * p == x + p / 2) by (field; lra).
  rewrite <- Elo, <- Ehi.
  split; apply Qmult_le_compat_r; lra.
Qed.

Lemma rnd_nonneg_eq x : 0 <= x -> rnd x = rndAbs x.
Proof.
  intros Hx. unfold rnd.
  rewrite (proj2 (Qle_bool_iff 0 x) Hx). reflexivity.
Qed.

Lemma rnd_neg_eq x : x < 0 -> rnd x = - rndAbs (- x).
Proof.
  intros Hx. unfold rnd. destruct (Qle_bool 0 x) eqn:Hle; [|reflexivity].
  apply Qle_bool_iff in Hle. lra.
Qed.

Lemma rnd_Qeq x y : x == y -> rnd x = rnd y.
Proof.
  intros Hxy. destruct (Qlt_le_dec x 0) as [Hneg|Hpos].
  - rewrite (rnd_neg_eq x), (rnd_neg_eq y) by lra.
    f_equal. apply rndAbs_Qeq; lra.
  - rewrite (rnd_nonneg_eq x), (rnd_nonneg_eq y) by lra.
    apply rndAbs_Qeq; lra.
Qed.

Lemma rnd_le x y : x <= y -> rnd x <= rnd y.
Proof.
  intros Hxy.
  destruct (Qlt_le_dec x 0) as [Hx|Hx], (Qlt_le_dec y 0) as [Hy|Hy].
  - rewrite (rnd_neg_eq x), (rnd_neg_eq y) by assumption.
    apply Qopp_le_compat, rndAbs_le; lra.
  - rewrite (rnd_neg_eq x), (rnd_nonneg_eq y) by assumption.
    pose proof (rndAbs_nonneg (- x)). pose proof (rndAbs_nonneg y). lra.
  - lra.
  - rewrite (rnd_nonneg_eq x), (rnd_nonneg_eq y) by assumption.
    apply rndAbs_le; assumption.
Qed.

Lemma rnd_opp x : rnd (- x) == - rnd x.
Proof.
  destruct (Qlt_le_dec x 0) as [Hx|Hx].
  - rewrite (rnd_nonneg_eq (- x)), (rnd_neg_eq x) by lra. ring.
  - destruct (Qlt_le_dec 0 x) as [Hpos|Hzero].
    + rewrite (rnd_neg_eq (- x)), (rnd_nonneg_eq x) by lra.
      rewrite (rndAbs_Qeq (- - x) x); [reflexivity|lra|ring].
    + rewrite (rnd_nonneg_eq (- x)), (rnd_nonneg_eq x) by lra.
      rewrite !rndAbs_zero by lra. reflexivity.
Qed.

Lemma rnd_repr (m e : Z) :
  (-1074 <= e)%Z -> (Z.abs m < 2 ^ 53)%Z ->
  rnd (inject_Z m * pow2 e) == inject_Z m * pow2 e.
Proof.
  intros He Hm. pose proof (pow2_pos e) as Hp.
  destruct (Z.le_gt_cases 0 m) as [Hpos|Hneg].
  - rewrite rnd_nonneg_eq.
    + apply rndAbs_repr; lia.
    + apply Qmult_le_0_compat; [|lra].
      change 0 with (inject_Z 0). rewrite <- Zle_Qle. lia.
  - assert (Hopp : inject_Z m * pow2 e == - (inject_Z (- m) * pow2 e)).
    { rewrite inject_Z_opp. ring. }
    rewrite (rnd_Qeq _ _ Hopp), rnd_opp, Hopp.
    apply Qopp_comp. rewrite rnd_nonneg_eq.
    + apply rndAbs_repr; lia.
    + apply Qmult_le_0_compat; [|lra].
      change 0 with (inject_Z 0). rewrite <- Zle_Qle. lia.
Qed.

End Rounding.

Section Doubles.

Local Open Scope Q_scope.

Lemma rndAbs_decompose x :
  0 <= x ->
  exists m e, (-1074 <= e)%Z /\ (0 <= m < 2 ^ 53)%Z
              /\ rndAbs x == inject_Z m * pow2 e.
Proof.
  intros Hx. pose proof (exponent_min x) as He.
  set (R := rne (x / pow2 (exponent x))).
  assert (HR : (0 <= R <= 2 ^ 53)%Z).
  { unfold R. destruct (Qlt_le_dec 0 x) as [Hpos|Hzero].
    - split.
      + apply rne_lower. change (inject_Z 0) with 0.
        apply Qle_shift_div_l; [apply pow2_pos|]. lra.
      + apply rne_upper, Qlt_le_weak, scaled_lt, Hpos.
    - rewrite rne_zero by lra. lia. }
  destruct (Z.eq_dec R (2 ^ 53)%Z) as [Htop|Hlow].
  - exists (2 ^ 52)%Z, (exponent x + 1)%Z.
    split; [lia|]. split; [lia|].
    rewrite rndAbs_val. fold R. rewrite Htop, pow2_succ.
    change (inject_Z (2 ^ 53)) with (2 * inject_Z (2 ^ 52)). ring.
  - exists R, (exponent x). split; [lia|]. split; [lia|].
    apply rndAbs_val.
Qed.

(** A rounded number is [m * 2^e] with [|m| < 2^53] and [e >= -1074]. *)
Lemma rnd_decompose x :
  exists m e, (-1074 <= e)%Z /\ (Z.abs m < 2 ^ 53)%Z
              /\ rnd x == inject_Z m * pow2 e.
Proof.
  destruct (Qlt_le_dec x 0) as [Hneg|Hpos].
  - destruct (rndAbs_decompose (- x)) as (m & e & He & Hm & Hval); [lra|].
    exists (- m)%Z, e. split; [lia|]. split; [lia|].
    rewrite (rnd_neg_eq x Hneg), Hval, inject_Z_opp. ring.
  - destruct (rndAbs_decompose x Hpos) as (m & e & He & Hm & Hval).
    exists m, e. split; [lia|]. split; [lia|].
    rewrite (rnd_nonneg_eq x Hpos). exact Hval.
Qed.

Lemma isDouble_decompose x :
  isDouble x <->
  exists m e, (-1074 <= e)%Z /\ (Z.abs m < 2 ^ 53)%Z
              /\ x == inject_Z m * pow2 e.
Proof.
  split.
  - intros Hx. destruct (rnd_decompose x) as (m & e & He & Hm & Hval).
    exists m, e. split; [exact He|]. split; [exact Hm|].
    rewrite <- Hval. symmetry. exact Hx.
  - intros (m & e & He & Hm & Hval). unfold isDouble.
    rewrite (rnd_Qeq _ _ Hval), Hval. apply rnd_repr; assumption.
Qed.

Lemma rnd_isDouble x : isDouble (rnd x).
Proof. apply isDouble_decompose, rnd_decompose. Qed.

Lemma isDouble_Qeq x y : x == y -> isDouble x -> isDouble y.
Proof.
  intros Hxy Hx. unfold isDouble in *.
  rewrite <- (rnd_Qeq _ _ Hxy), <- Hxy. exact Hx.
Qed.

Lemma isDouble_Z (m : Z) : (Z.abs m < 2 ^ 53)%Z -> isDouble (inject_Z m).
Proof.
  intros Hm. apply isDouble_decompose. exists m, 0%Z.
  split; [lia|]. split; [exact Hm|]. change (pow2 0) with 1. ring.
Qed.

Lemma isDouble_opp x : isDouble x -> isDouble (- x).
Proof.
  unfold isDouble. intros Hx. rewrite rnd_opp, Hx. reflexivity.
Qed.

Lemma isDouble_twice x : isDouble x -> isDouble (2 * x).
Proof.
  intros (m & e & He & Hm & Hval)%isDouble_decompose.
  apply isDouble_decompose. exists m, (e + 1)%Z.
  split; [lia|]. split; [exact Hm|]. rewrite Hval, pow2_succ. ring.
Qed.

(** Every double is a multiple of the smallest positive one. *)
Lemma isDouble_grid x :
  isDouble x -> exists k : Z, x == inject_Z k * pow2 (-1074).
Proof.
  intros (m & e & He & Hm & Hval)%isDouble_decompose.
  exists (m * 2 ^ (e + 1074))%Z.
  rewrite Hval, inject_Z_mult, <- pow2_Z by lia.
  rewrite <- Qmult_assoc, <- pow2_add.
  replace (e + 1074 + -1074)%Z with e by lia. reflexivity.
Qed.

(** The difference of two distinct doubles does not round to zero. *)
Lemma rnd_sub_pos x y :
  isDouble x -> isDouble y -> x < y -> 0 < rnd (y - x).
Proof.
  intros [kx Hkx]%isDouble_grid [ky Hky]%isDouble_grid Hlt.
  pose proof (pow2_pos (-1074)) as Hp.
  assert (Hk : (kx < ky)%Z).
  { destruct (Z.lt_ge_cases kx ky) as [|Hge]; [assumption|exfalso].
    rewrite Zle_Qle in Hge.
    assert (inject_Z ky * pow2 (-1074) <= inject_Z kx * pow2 (-1074))
      by (apply Qmult_le_compat_r; lra).
    lra. }
  apply Qlt_le_trans with (pow2 (-1074)); [exact Hp|].
  assert (Hone : pow2 (-1074) == rnd (pow2 (-1074))).
  { assert (Hq : pow2 (-1074) == inject_Z 1 * pow2 (-1074))
      by (change (inject_Z 1) with 1; ring).
    rewrite (rnd_Qeq _ _ Hq), rnd_repr by lia. exact Hq. }
  apply Qle_trans with (rnd (pow2 (-1074)));
    [apply Qle_lteq; right; exact Hone|].
  apply rnd_le. rewrite Hkx, Hky.
  assert (H1 : inject_Z kx + 1 <= inject_Z ky).
  { change 1 with (inject_Z 1). rewrite <- inject_Z_plus, <- Zle_Qle. lia. }
  apply Qle_trans with ((inject_Z kx + 1) * pow2 (-1074)
                        - inject_Z kx * pow2 (-1074)).
  - apply Qle_lteq. right. ring.
  - apply Qplus_le_l. apply Qmult_le_compat_r; lra.
Qed.

(** The rounding error below [2^k]. *)
Lemma rnd_error x (k : Z) :
  (-1021 <= k)%Z -> 0 <= x -> x <= pow2 k ->
  x - pow2 (k - 54) <= rnd x /\ rnd x <= x + pow2 (k - 54).
Proof.
  intros Hk Hx0 Hxk. pose proof (pow2_pos (k - 54)) as Hp.
  destruct (Qlt_le_dec x (pow2 k)) as [Hlt|Hge].
  - rewrite (rnd_nonneg_eq x Hx0).
    destruct (Qlt_le_dec 0 x) as [Hpos|Hzero].
    + destruct (rndAbs_error x) as [Hlo Hhi].
      assert (Hexp : pow2 (exponent x - 1) <= pow2 (k - 54)).
      { apply pow2_le. pose proof (ilog2_lt x k Hpos Hlt).
        unfold exponent. lia. }
      lra.
    + rewrite rndAbs_zero by lra. lra.
  - assert (Hrepr : rnd x == x).
    { assert (Hxe : x == inject_Z 1 * pow2 k)
        by (change (inject_Z 1) with 1; lra).
      rewrite (rnd_Qeq _ _ Hxe), Hxe. apply rnd_repr; lia. }
    rewrite Hrepr. lra.
Qed.

End Doubles.

(** ** Numbers *)

Section Numbers.

Local Open Scope Q_scope.

Lemma Qle_bool_true a b : a <= b → Qle_bool a b = true.
Proof. apply Qle_bool_iff. Qed.

Lemma Qle_bool_false a b : b < a → Qle_bool a b = false.
Proof.
  intros Hlt. destruct (Qle_bool a b) eqn:Hle; [|done].
  apply Qle_bool_iff in Hle. lra.
Qed.

Lemma ltb_spec a b : reflect (a < b) (ltb a b).
Proof.
  unfold ltb. destruct (Qlt_le_dec a b) as [Hlt|Hle].
  - rewrite Qle_bool_false by done. by constructor.
  - rewrite Qle_bool_true by done. constructor. lra.
Qed.

Lemma geb_spec a b : reflect (b <= a) (geb a b).
Proof.
  unfold geb. destruct (Qlt_le_dec a b) as [Hlt|Hle].
  - rewrite Qle_bool_false by done. constructor. lra.
  - rewrite Qle_bool_true by done. by constructor.
Qed.

Lemma eqb_spec a b : reflect (a == b) (eqb a b).
Proof.
  unfold eqb. destruct (Qeq_bool a b) eqn:Heq; constructor.
  - by apply Qeq_bool_iff.
  - intros Hab. apply Qeq_bool_iff in Hab. congruence.
Qed.

Lemma max2_spec a b : a <= max2 a b ∧ b <= max2 a b
                      ∧ (max2 a b = a ∨ max2 a b = b).
Proof.
  unfold max2. destruct (Qlt_le_dec b a) as [Hlt|Hle].
  - rewrite Qle_bool_false by done. repeat split; [lra..|by left].
  - rewrite Qle_bool_true by done. repeat split; [lra..|by right].
Qed.

Lemma min2_spec a b : min2 a b <= a ∧ min2 a b <= b
                      ∧ (min2 a b = a ∨ min2 a b = b).
Proof.
  unfold min2. destruct (Qlt_le_dec b a) as [Hlt|Hle].
  - rewrite Qle_bool_false by done. repeat split; [lra..|by right].
  - rewrite Qle_bool_true by done. repeat split; [lra..|by left].
Qed.

Lemma max3_spec x y z :
  x <= max3 x y z ∧ y <= max3 x y z ∧ z <= max3 x y z
  ∧ (max3 x y z = x ∨ max3 x y z = y ∨ max3 x y z = z).
Proof.
  unfold max3.
  destruct (max2_spec x y) as (? & ? & Hxy).
  destruct (max2_spec (max2 x y) z) as (? & ? & Hxyz).
  repeat split; [lra..|].
  destruct Hxyz as [->| ->]; [destruct Hxy as [->| ->]|]; auto.
Qed.

Lemma min3_spec x y z :
  min3 x y z <= x ∧ min3 x y z <= y ∧ min3 x y z <= z
  ∧ (min3 x y z = x ∨ min3 x y z = y ∨ min3 x y z = z).
Proof.
  unfold min3.
  destruct (min2_spec x y) as (? & ? & Hxy).
  destruct (min2_spec (min2 x y) z) as (? & ? & Hxyz).
  repeat split; [lra..|].
  destruct Hxyz as [->| ->]; [destruct Hxy as [->| ->]|]; auto.
Qed.

(** [Math.round] returns the integer [n] with [n - 1/2 <= x < n + 1/2]. *)
Lemma round_spec x :
  inject_Z (round x) - (1 # 2) <= x ∧ x < inject_Z (round x) + (1 # 2).
Proof.
  unfold round.
  pose proof (Qfloor_le (x + (1 # 2))) as Hle.
  pose proof (Qlt_floor (x + (1 # 2))) as Hlt.
  rewrite inject_Z_plus in Hlt. change (inject_Z 1) with 1 in Hlt.
  split; lra.
Qed.

Lemma round_bounds x (lo hi : Z) :
  inject_Z lo <= x → x <= inject_Z hi → (lo ≤ round x ≤ hi)%Z.
Proof.
  intros Hlo Hhi. destruct (round_spec x) as [H1 H2]. split.
  - destruct (Z.le_gt_cases lo (round x)) as [|Hgt]; [done|exfalso].
    assert (Hz : (round x + 1 ≤ lo)%Z) by lia.
    rewrite Zle_Qle, inject_Z_plus in Hz. change (inject_Z 1) with 1 in Hz.
    lra.
  - destruct (Z.le_gt_cases (round x) hi) as [|Hgt]; [done|exfalso].
    assert (Hz : (hi + 1 ≤ round x)%Z) by lia.
    rewrite Zle_Qle, inject_Z_plus in Hz. change (inject_Z 1) with 1 in Hz.
    lra.
Qed.

End Numbers.

(** ** Arithmetic on doubles *)

Section Arithmetic.

Local Open Scope Q_scope.

Lemma rnd_0 : rnd 0 = 0.
Proof. by vm_compute. Qed.

Lemma rnd_1 : rnd 1 = 1.
Proof. by vm_compute. Qed.

Lemma rnd_opp_1 : rnd (- (1)) = - (1).
Proof. by vm_compute. Qed.

Lemma add_le x x' y y' : x <= x' → y <= y' → add x y <= add x' y'.
Proof. intros Hx Hy. apply rnd_le. lra. Qed.

Lemma sub_le x x' y y' : x <= x' → y' <= y → sub x y <= sub x' y'.
Proof. intros Hx Hy. apply rnd_le. lra. Qed.

Lemma mul_le_r x x' c : 0 <= c → x <= x' → mul x c <= mul x' c.
Proof. intros Hc Hx. apply rnd_le. by apply Qmult_le_compat_r. Qed.

Lemma div_le_r x x' c : 0 < c → x <= x' → div x c <= div x' c.
Proof. intros Hc Hx. apply rnd_le. by apply Qdiv_le_compat. Qed.

Lemma sub_nonneg x y : y <= x → 0 <= sub x y.
Proof. intros Hxy. rewrite <- rnd_0. apply rnd_le. lra. Qed.

Lemma sub_nonpos x y : x <= y → sub x y <= 0.
Proof. intros Hxy. rewrite <- rnd_0. apply rnd_le. lra. Qed.

Lemma sub_opp x y : sub x y == - sub y x.
Proof.
  unfold sub. rewrite <- rnd_opp.
  rewrite (rnd_Qeq (x - y) (- (y - x))) by ring. reflexivity.
Qed.

(** A quotient of doubles whose numerator is at most the denominator in
    absolute value lies between -1 and 1, with the sign of the
    numerator. *)
Lemma div_unit n d :
  0 < d → - d <= n → n <= d →
  - (1) <= div n d ∧ div n d <= 1
  ∧ (n <= 0 → div n d <= 0) ∧ (0 <= n → 0 <= div n d).
Proof.
  intros Hd Hlo Hhi. unfold div. repeat split.
  - rewrite <- rnd_opp_1. apply rnd_le, Qle_shift_div_l; lra.
  - rewrite <- rnd_1. apply rnd_le, Qle_shift_div_r; lra.
  - intros Hn. rewrite <- rnd_0. apply rnd_le, Qle_shift_div_r; lra.
  - intros Hn. rewrite <- rnd_0. apply rnd_le, Qle_shift_div_l; lra.
Qed.

Lemma isDouble_max3 x y z :
  isDouble x → isDouble y → isDouble z → isDouble (max3 x y z).
Proof.
  intros Hx Hy Hz. by destruct (max3_spec x y z) as (_ & _ & _ & [->|[->| ->]]).
Qed.

Lemma isDouble_min3 x y z :
  isDouble x → isDouble y → isDouble z → isDouble (min3 x y z).
Proof.
  intros Hx Hy Hz. by destruct (min3_spec x y z) as (_ & _ & _ & [->|[->| ->]]).
Qed.

End Arithmetic.

(** ** Role classifier *)

(** Settles every comparison of the goal that follows from the linear
    facts at hand. *)
Ltac decide_comparisons :=
  repeat match goal with
    | |- context [Qle_bool ?x ?y] =>
        first [ rewrite (Qle_bool_true x y) by lra
              | rewrite (Qle_bool_false x y) by lra ]
    end.

(** Settles one case of the hue ranges: the case is impossible, or
    its bounds are at hand. *)
Ltac close_sextant :=
  intros; first [ contradiction | split; lra | exfalso; lra ].

Section Hue.

Local Open Scope Q_scope.

(** For double components between 0 and 1 that are not all equal, the
    spread [d] is positive and no larger than either divisor of the
    saturation: [rgbToHsl] never divides by zero. *)
Lemma rgbToHsl_divisors r g b :
  isDouble r → isDouble g → isDouble b →
  0 <= r <= 1 → 0 <= g <= 1 → 0 <= b <= 1 →
  min3 r g b < max3 r g b →
  let d := sub (max3 r g b) (min3 r g b) in
  0 < d ∧ d <= 1
  ∧ d <= sub (sub 2 (max3 r g b)) (min3 r g b)
  ∧ d <= add (max3 r g b) (min3 r g b).
Proof.
  intros Dr Dg Db Hr Hg Hb Hlt d.
  pose proof (isDouble_max3 r g b Dr Dg Db) as Dmx.
  pose proof (isDouble_min3 r g b Dr Dg Db) as Dmn.
  destruct (max3_spec r g b) as (_ & _ & _ & Hmax).
  destruct (min3_spec r g b) as (_ & _ & _ & Hmin).
  set (mx := max3 r g b) in *. set (mn := min3 r g b) in *.
  assert (Hmx : mx <= 1) by (destruct Hmax as [->|[->| ->]]; lra).
  assert (Hmn : 0 <= mn) by (destruct Hmin as [->|[->| ->]]; lra).
  split; [by apply rnd_sub_pos|].
  split; [unfold d, sub; rewrite <- rnd_1; apply rnd_le; lra|].
  split.
  - unfold d, sub. apply rnd_le.
    assert (1 <= rnd (2 - mx)) by (rewrite <- rnd_1; apply rnd_le; lra).
    lra.
  - unfold d, sub, add. apply rnd_le. lra.
Qed.

(** The hue grows with the quotient it is computed from. *)
Lemma hue_window q k lo hi :
  lo <= q → q <= hi →
  mul (div (add lo k) 6) 360 <= mul (div (add q k) 6) 360
  ∧ mul (div (add q k) 6) 360 <= mul (div (add hi k) 6) 360.
Proof.
  intros Hlo Hhi.
  split; (apply mul_le_r; [lra|]); (apply div_le_r; [lra|]);
    apply add_le; lra.
Qed.

(** The hue and the saturation [rgbToHsl] computes for double components
    between 0 and 1: both are 0 when the components are equal; otherwise
    the saturation is between 0 and 1 and the hue lies in the range of 60
    or 120 degrees that the order of the components selects. *)
Lemma rgbToHsl_ranges r g b :
  isDouble r → isDouble g → isDouble b →
  0 <= r <= 1 → 0 <= g <= 1 → 0 <= b <= 1 →
  let '(h, s, l) := rgbToHsl r g b in
  let mx := max3 r g b in
  let mn := min3 r g b in
  (mx == mn → h = 0 ∧ s = 0)
  ∧ (mn < mx →
     0 <= s ∧ s <= 1
     ∧ (mx == r → b <= g → 0 <= h ∧ h <= 60)
     ∧ (mx == r → g < b → 300 <= h ∧ h <= 360)
     ∧ (¬ mx == r → mx == g → 60 <= h ∧ h <= 180)
     ∧ (¬ mx == r → ¬ mx == g → 180 <= h ∧ h <= 300)).
Proof.
  intros Dr Dg Db Hr01 Hg01 Hb01.
  pose proof (rgbToHsl_divisors r g b Dr Dg Db Hr01 Hg01 Hb01) as Hdiv.
  unfold rgbToHsl. cbv zeta in *.
  destruct (max3_spec r g b) as (Hr & Hg & Hb & Hmax).
  destruct (min3_spec r g b) as (Hr' & Hg' & Hb' & Hmin).
  set (mx := max3 r g b) in *. set (mn := min3 r g b) in *.
  destruct (eqb_spec mx mn) as [Heq|Hne]; cbn [negb].
  { split; [intros _; split; [by vm_compute|done]|]. intros Hlt. lra. }
  assert (Hlt : mn < mx).
  { destruct (Qlt_le_dec mn mx) as [?|Hle]; [done|].
    exfalso. apply Hne. lra. }
  destruct (Hdiv Hlt) as (Hd & Hd1 & Hd2 & Hd3).
  set (d := sub mx mn) in *.
  assert (Hratio : ∀ x y, mn <= x → x <= mx → mn <= y → y <= mx →
            - (1) <= div (sub x y) d ∧ div (sub x y) d <= 1
            ∧ (x <= y → div (sub x y) d <= 0)
            ∧ (y <= x → 0 <= div (sub x y) d)).
  { intros x y Hx0 Hx1 Hy0 Hy1.
    assert (Hhi : sub x y <= d) by (unfold d; apply sub_le; lra).
    assert (Hlo : - d <= sub x y).
    { rewrite (sub_opp x y). apply Qopp_le_compat.
      unfold d. apply sub_le; lra. }
    destruct (div_unit (sub x y) d Hd Hlo Hhi) as (H1 & H2 & H3 & H4).
    split; [done|]. split; [done|]. split.
    - intros Hxy. by apply H3, sub_nonpos.
    - intros Hxy. by apply H4, sub_nonneg. }
  split; [intros Heq; by destruct Hne|]. intros _.
  assert (Hsat : 0 <= (if gtb (div (add mx mn) 2) (1 # 2)
                       then div d (sub (sub 2 mx) mn)
                       else div d (add mx mn))
                 ∧ (if gtb (div (add mx mn) 2) (1 # 2)
                    then div d (sub (sub 2 mx) mn)
                    else div d (add mx mn)) <= 1).
  { destruct (gtb _ _).
    - destruct (div_unit d (sub (sub 2 mx) mn)) as (_ & H2 & _ & H4);
        [lra..|]. split; [apply H4; lra|done].
    - destruct (div_unit d (add mx mn)) as (_ & H2 & _ & H4);
        [lra..|]. split; [apply H4; lra|done]. }
  destruct (eqb_spec mx r) as [Hmr|Hmr].
  { destruct (Hratio g b) as (H1 & H2 & H3 & H4); [lra..|].
    destruct (ltb_spec g b) as [Hgb|Hgb].
    - destruct (hue_window (div (sub g b) d) 6 (- (1)) 0) as [Hlo Hhi];
        [lra|apply H3; lra|].
      assert (E1 : mul (div (add (- (1)) 6) 6) 360 = 300) by (by vm_compute).
      assert (E2 : mul (div (add 0 6) 6) 360 = 360) by (by vm_compute).
      rewrite E1 in Hlo. rewrite E2 in Hhi.
      split; [apply Hsat|]. split; [apply Hsat|].
      repeat split_and; close_sextant.
    - destruct (hue_window (div (sub g b) d) 0 0 1) as [Hlo Hhi];
        [apply H4; lra|lra|].
      assert (E1 : mul (div (add 0 0) 6) 360 = 0) by (by vm_compute).
      assert (E2 : mul (div (add 1 0) 6) 360 = 60) by (by vm_compute).
      rewrite E1 in Hlo. rewrite E2 in Hhi.
      split; [apply Hsat|]. split; [apply Hsat|].
      repeat split_and; close_sextant. }
  destruct (eqb_spec mx g) as [Hmg|Hmg].
  { destruct (Hratio b r) as (H1 & H2 & _); [lra..|].
    destruct (hue_window (div (sub b r) d) 2 (- (1)) 1) as [Hlo Hhi];
      [lra..|].
    assert (E1 : mul (div (add (- (1)) 2) 6) 360 = 60) by (by vm_compute).
    assert (E2 : mul (div (add 1 2) 6) 360 = 180) by (by vm_compute).
    rewrite E1 in Hlo. rewrite E2 in Hhi.
    split; [apply Hsat|]. split; [apply Hsat|].
    repeat split_and; close_sextant. }
  destruct (eqb_spec mx b) as [Hmb|Hmb].
  { destruct (Hratio r g) as (H1 & H2 & _); [lra..|].
    destruct (hue_window (div (sub r g) d) 4 (- (1)) 1) as [Hlo Hhi];
      [lra..|].
    assert (E1 : mul (div (add (- (1)) 4) 6) 360 = 180) by (by vm_compute).
    assert (E2 : mul (div (add 1 4) 6) 360 = 300) by (by vm_compute).
    rewrite E1 in Hlo. rewrite E2 in Hhi.
    split; [apply Hsat|]. split; [apply Hsat|].
    repeat split_and; close_sextant. }
  exfalso. destruct Hmax as [Hm|[Hm|Hm]];
    [apply Hmr|apply Hmg|apply Hmb]; by rewrite Hm.
Qed.

(** The ranges are contiguous from 0 to 360: each one starts where the
    previous one ends. *)
Lemma hueBuckets_contiguous :
  (fun bucket => bucket.1.1) <$> hueBuckets
  = 0 :: removelast ((fun bucket => bucket.1.2) <$> hueBuckets)
  ∧ last ((fun bucket => bucket.1.2) <$> hueBuckets) = Some 360.
Proof. done. Qed.

(** A hue in [0, 360) lies in exactly one range. *)
Lemma hueBuckets_partition h :
  0 <= h → h < 360 →
  length (List.filter (inBucket h) hueBuckets) = 1%nat
  ∧ is_Some (bucketRole h).
Proof.
  intros H0 H360. unfold bucketRole, hueBuckets, inBucket.
  cbn [List.filter List.find fst snd].
  destruct (Qlt_le_dec h 20); [decide_comparisons; by eauto|].
  destruct (Qlt_le_dec h 45); [decide_comparisons; by eauto|].
  destruct (Qlt_le_dec h 70); [decide_comparisons; by eauto|].
  destruct (Qlt_le_dec h 165); [decide_comparisons; by eauto|].
  destruct (Qlt_le_dec h 200); [decide_comparisons; by eauto|].
  destruct (Qlt_le_dec h 260); [decide_comparisons; by eauto|].
  destruct (Qlt_le_dec h 300); [decide_comparisons; by eauto|].
  destruct (Qlt_le_dec h 340); decide_comparisons; by eauto.
Qed.

End Hue.

(** C3, as the code has it.  For double components between 0 and 1, the
    hue computed by [rgbToHsl] lies between 0 and 360, both included, and
    the saturation between 0 and 1.  The hue is at most 60 when red is the
    largest component and green is not below blue, at least 300 when red
    is the largest and green is below blue, between 60 and 180 when green
    is the largest and above red, between 180 and 300 when blue is above
    both others.  [detectColorRole] returns gray exactly when the
    saturation is below 0.12 (the double nearest to it); otherwise, for a
    hue below 360, the role of the range that holds the hue, among [0,20)
    red, [20,45) orange, [45,70) yellow, [70,165) green, [165,200) cyan,
    [200,260) blue, [260,300) purple, [300,340) pink and [340,360) red,
    and red for the hue 360.  The ranges are contiguous and exactly one of
    them holds a hue of [0, 360), so the classifier is total. *)
Theorem detectColorRole_spec (r g b : Q) :
  isDouble r → isDouble g → isDouble b →
  (0 <= r <= 1)%Q → (0 <= g <= 1)%Q → (0 <= b <= 1)%Q →
  let '(h, s, l) := rgbToHsl r g b in
  (0 <= h)%Q ∧ (h <= 360)%Q ∧ (0 <= s)%Q ∧ (s <= 1)%Q
  ∧ ((g <= r)%Q → (b <= r)%Q → (b <= g)%Q → (h <= 60)%Q)
  ∧ ((g <= r)%Q → (b <= r)%Q → (g < b)%Q → (300 <= h)%Q)
  ∧ ((r < g)%Q → (b <= g)%Q → (60 <= h)%Q ∧ (h <= 180)%Q)
  ∧ ((r < b)%Q → (g < b)%Q → (180 <= h)%Q ∧ (h <= 300)%Q)
  ∧ (detectColorRole r g b = gray ↔ (s < lit (12 # 100))%Q)
  ∧ (¬ (s < lit (12 # 100))%Q → (h < 360)%Q →
     bucketRole h = Some (detectColorRole r g b))
  ∧ (¬ (s < lit (12 # 100))%Q → (h == 360)%Q → detectColorRole r g b = red)
  ∧ (∀ h' : Q, (0 <= h')%Q → (h' < 360)%Q →
       length (List.filter (inBucket h') hueBuckets) = 1%nat
       ∧ is_Some (bucketRole h'))
  ∧ hueBuckets
    = [ (0, 20, red); (20, 45, orange); (45, 70, yellow); (70, 165, green);
        (165, 200, cyan); (200, 260, blue); (260, 300, purple);
        (300, 340, pink); (340, 360, red) ]%Q.
Proof.
  intros Dr Dg Db Hr Hg Hb.
  pose proof (rgbToHsl_ranges r g b Dr Dg Db Hr Hg Hb) as Hranges.
  unfold detectColorRole.
  destruct (rgbToHsl r g b) as [[h s] l]. cbv zeta in Hranges.
  destruct (max3_spec r g b) as (Hr1 & Hg1 & Hb1 & Hmax).
  destruct (min3_spec r g b) as (Hr0 & Hg0 & Hb0 & Hmin).
  set (mx := max3 r g b) in *. set (mn := min3 r g b) in *.
  destruct Hranges as [Hgrey Hcolor].
  assert (Hcases : (mx == mn)%Q ∨ (mn < mx)%Q).
  { destruct (Qlt_le_dec mn mx) as [?|Hle]; [by right|left].
    destruct Hmin as [Hm|[Hm|Hm]]; rewrite Hm in *; lra. }
  assert (Hh : (0 <= h)%Q ∧ (h <= 360)%Q ∧ (0 <= s)%Q ∧ (s <= 1)%Q).
  { destruct Hcases as [Heq|Hlt].
    - destruct (Hgrey Heq) as [-> ->]. repeat split_and; lra.
    - destruct (Hcolor Hlt) as (Hs0 & Hs1 & H1 & H2 & H3 & H4).
      split_and!; [| |done..];
        (destruct (Qeq_dec mx r) as [Hmr|Hmr];
         [destruct (Qlt_le_dec g b) as [Hgb|Hgb];
          [destruct (H2 Hmr Hgb)|destruct (H1 Hmr Hgb)]
         |destruct (Qeq_dec mx g) as [Hmg|Hmg];
          [destruct (H3 Hmr Hmg)|destruct (H4 Hmr Hmg)]]); lra. }
  destruct Hh as (Hh0 & Hh360 & Hs0 & Hs1).
  split; [done|]. split; [done|]. split; [done|]. split; [done|].
  assert (Hmxr : (g <= r)%Q → (b <= r)%Q → (mx == r)%Q).
  { intros ? ?. destruct Hmax as [Hm|[Hm|Hm]]; rewrite Hm in *; lra. }
  split; [|split; [|split; [|split]]].
  - intros Hgr Hbr Hbg. destruct Hcases as [Heq|Hlt].
    + destruct (Hgrey Heq) as [-> _]. lra.
    + destruct (Hcolor Hlt) as (_ & _ & H1 & _).
      by destruct (H1 (Hmxr Hgr Hbr) Hbg).
  - intros Hgr Hbr Hgb. destruct Hcases as [Heq|Hlt]; [lra|].
    destruct (Hcolor Hlt) as (_ & _ & _ & H2 & _).
    by destruct (H2 (Hmxr Hgr Hbr) Hgb).
  - intros Hrg Hbg. destruct Hcases as [Heq|Hlt]; [lra|].
    destruct (Hcolor Hlt) as (_ & _ & _ & _ & H3 & _).
    apply H3; [lra|]. destruct Hmax as [Hm|[Hm|Hm]]; rewrite Hm in *; lra.
  - intros Hrb Hgb. destruct Hcases as [Heq|Hlt]; [lra|].
    destruct (Hcolor Hlt) as (_ & _ & _ & _ & _ & H4). apply H4; lra.
  - split; [|split; [|split; [|split; [apply hueBuckets_partition|done]]]].
    + destruct (ltb_spec s (lit (12 # 100))) as [Hs|Hs]; [done|].
      split; [|done].
      repeat match goal with
             | |- context [if ?c then _ else _] => destruct c
             end; done.
    + intros Hs Hlt. destruct (ltb_spec s (lit (12 # 100))) as [?|_]; [done|].
      unfold bucketRole, hueBuckets, inBucket, geb, ltb.
      cbn [List.find fst snd].
      destruct (Qlt_le_dec h 20); [by decide_comparisons|].
      destruct (Qlt_le_dec h 45); [by decide_comparisons|].
      destruct (Qlt_le_dec h 70); [by decide_comparisons|].
      destruct (Qlt_le_dec h 165); [by decide_comparisons|].
      destruct (Qlt_le_dec h 200); [by decide_comparisons|].
      destruct (Qlt_le_dec h 260); [by decide_comparisons|].
      destruct (Qlt_le_dec h 300); [by decide_comparisons|].
      destruct (Qlt_le_dec h 340); by decide_comparisons.
    + intros Hs H360. destruct (ltb_spec s (lit (12 # 100))) as [?|_]; [done|].
      unfold geb, ltb. by decide_comparisons.
Qed.

(** The hue 360 is reached: for the color (1, 0, 1e-17) the sum
    [(g - b) / d + 6] rounds to 6 and the hue is 360, outside the ranges
    written for [0, 360); the color is not gray and its role is red. *)
Lemma detectColorRole_hue_360 :
  isDouble 1 ∧ isDouble 0 ∧ isDouble (lit (1 # 100000000000000000))
  ∧ (0 <= 1 <= 1)%Q ∧ (0 <= 0 <= 1)%Q
  ∧ (0 <= lit (1 # 100000000000000000) <= 1)%Q
  ∧ (rgbToHsl 1 0 (lit (1 # 100000000000000000))).1.1 = 360%Q
  ∧ ¬ ((rgbToHsl 1 0 (lit (1 # 100000000000000000))).1.1 < 360)%Q
  ∧ ¬ ((rgbToHsl 1 0 (lit (1 # 100000000000000000))).1.2
       < lit (12 # 100))%Q
  ∧ bucketRole (rgbToHsl 1 0 (lit (1 # 100000000000000000))).1.1 = None
  ∧ detectColorRole 1 0 (lit (1 # 100000000000000000)) = red.
Proof. repeat split; by vm_compute. Qed.

(** ** Shade quantizer *)

Section Quantizers.

Local Open Scope Q_scope.

(** [Math.round] returns [i] on the numbers from [i - 1/2], included, to
    [i + 1/2], excluded. *)
Lemma round_unique x (i : Z) :
  inject_Z i - (1 # 2) <= x → x < inject_Z i + (1 # 2) → round x = i.
Proof.
  intros Hlo Hhi. destruct (round_spec x) as [H1 H2].
  assert (Hlt1 : inject_Z (round x) < inject_Z (i + 1)).
  { rewrite inject_Z_plus. change (inject_Z 1) with 1. lra. }
  assert (Hlt2 : inject_Z i < inject_Z (round x + 1)).
  { rewrite inject_Z_plus. change (inject_Z 1) with 1. lra. }
  rewrite <- Zlt_Qlt in Hlt1, Hlt2. lia.
Qed.

(** The product [(1 - l) * k] of the two quantizers, for a lightness
    between 0 and 1 and a factor [k] of at most 10: it lies between 0 and
    [k], and the two roundings move it by at most [2^-49] from the exact
    product. *)
Lemma darkness_product l k :
  0 <= l → l <= 1 → 0 <= k → k <= 10 → isDouble k →
  0 <= mul (sub 1 l) k ∧ mul (sub 1 l) k <= k
  ∧ (1 - l) * k - pow2 (-49) <= mul (sub 1 l) k
  ∧ mul (sub 1 l) k <= (1 - l) * k + pow2 (-49).
Proof.
  intros Hl0 Hl1 Hk0 Hk10 Dk.
  assert (Ha0 : 0 <= sub 1 l) by (apply sub_nonneg; lra).
  assert (Ha1 : sub 1 l <= 1).
  { unfold sub. rewrite <- rnd_1 at 2. apply rnd_le. lra. }
  destruct (rnd_error (1 - l) 0) as [Hea Heb];
    [lia|lra|change (pow2 0) with 1; lra|fold (sub 1 l) in Hea, Heb].
  set (x := sub 1 l) in *.
  assert (Hxk0 : 0 <= x * k) by (by apply Qmult_le_0_compat).
  assert (Hxk1 : x * k <= k).
  { apply Qle_trans with (1 * k); [by apply Qmult_le_compat_r|lra]. }
  destruct (rnd_error (x * k) 4) as [Hpa Hpb];
    [lia|done|change (pow2 4) with 16; lra|fold (mul x k) in Hpa, Hpb].
  assert (Hp0 : 0 <= mul x k).
  { unfold mul. rewrite <- rnd_0. by apply rnd_le. }
  assert (Hp1 : mul x k <= k).
  { apply Qle_trans with (rnd k); [by apply rnd_le|].
    unfold isDouble in Dk. lra. }
  split; [done|]. split; [done|].
  change (0 - 54)%Z with (-54)%Z in Hea, Heb.
  change (4 - 54)%Z with (-50)%Z in Hpa, Hpb.
  assert (E54 : pow2 (-54) == pow2 (-49) * (1 # 32)) by (by vm_compute).
  assert (E50 : pow2 (-50) == pow2 (-49) * (1 # 2)) by (by vm_compute).
  assert (Hpos : 0 < pow2 (-49)) by apply pow2_pos.
  rewrite E54 in Hea, Heb. rewrite E50 in Hpa, Hpb.
  set (eps := pow2 (-49)) in *.
  assert (Hlo : ((1 - l) - eps * (1 # 32)) * k <= x * k)
    by (by apply Qmult_le_compat_r).
  assert (Hhi : x * k <= ((1 - l) + eps * (1 # 32)) * k)
    by (by apply Qmult_le_compat_r).
  assert (Hek : eps * (1 # 32) * k <= eps * (1 # 32) * 10)
    by (apply Qmult_le_l; lra).
  split; lra.
Qed.

End Quantizers.

(** C4. For a lightness between 0 and 1, [lightnessToShade] returns the
    element of the list 50, 100, 200, ..., 900, 950 at the index
    [round((1 - l) * 10)] clamped to 0..10, the difference and the product
    being those of doubles.  The clamp does not act: the index is the
    integer nearest to the product [p] the code computes (halves rounded
    up), and [p] is within [2^-49] of the exact [(1 - l) * 10], so the
    index is that of exact arithmetic unless [(1 - l) * 10] is that close
    to a half.  The result is always one of the eleven shades, lightness 1
    gives 50 and lightness 0 gives 950. *)
Theorem lightnessToShade_spec (l : Q) :
  (0 <= l)%Q → (l <= 1)%Q →
  let p := mul (sub 1 l) 10 in
  shades = [50; 100; 200; 300; 400; 500; 600; 700; 800; 900; 950]%Z
  ∧ lightnessToShade l = shades !! Z.to_nat (shadeIndex l)
  ∧ (0 ≤ shadeIndex l ≤ 10)%Z
  ∧ shadeIndex l = round p
  ∧ (inject_Z (shadeIndex l) - (1 # 2) <= p)%Q
  ∧ (p < inject_Z (shadeIndex l) + (1 # 2))%Q
  ∧ ((1 - l) * 10 - pow2 (-49) <= p)%Q
  ∧ (p <= (1 - l) * 10 + pow2 (-49))%Q
  ∧ (∀ i : Z,
       (inject_Z i - (1 # 2) + pow2 (-49) <= (1 - l) * 10)%Q →
       ((1 - l) * 10 < inject_Z i + (1 # 2) - pow2 (-49))%Q →
       shadeIndex l = i)
  ∧ (∃ shade, lightnessToShade l = Some shade ∧ shade ∈ shades)
  ∧ lightnessToShade 1 = Some 50%Z
  ∧ lightnessToShade 0 = Some 950%Z.
Proof.
  intros Hl0 Hl1 p.
  destruct (darkness_product l 10 Hl0 Hl1) as (Hp0 & Hp10 & Hnear1 & Hnear2);
    [lra|lra|by vm_compute|fold p in Hp0, Hp10, Hnear1, Hnear2].
  assert (Hround : (0 ≤ round p ≤ 10)%Z).
  { apply round_bounds; [change (inject_Z 0) with 0%Q|
      change (inject_Z 10) with 10%Q]; done. }
  assert (Hindex : shadeIndex l = round p).
  { unfold shadeIndex. fold p. lia. }
  assert (Hshade : lightnessToShade l = shades !! Z.to_nat (shadeIndex l)).
  { unfold lightnessToShade, jsIndex, shadeIndex. cbn [length shades].
    change (inject_Z (Z.of_nat 11 - 1)) with 10%Q.
    change (Z.of_nat 11 - 1)%Z with 10%Z.
    by rewrite (proj2 (Z.ltb_ge _ 0)) by lia. }
  split; [done|]. split; [done|]. split; [lia|]. split; [done|].
  destruct (round_spec p) as [Hint1 Hint2].
  split; [by rewrite Hindex|]. split; [by rewrite Hindex|].
  split; [done|]. split; [done|]. split.
  { intros i Hi1 Hi2. rewrite Hindex. apply round_unique; lra. }
  split; [|split; by vm_compute].
  rewrite Hshade.
  destruct (lookup_lt_is_Some_2 shades (Z.to_nat (shadeIndex l)))
    as [shade Hlookup]; [cbn; lia|].
  exists shade. split; [done|]. by eapply list_elem_of_lookup_2.
Qed.

(** ** Deduplicator *)

Section Dedup.

Implicit Types (colors pre : list ExtractedColor) (seen : gset string).

Lemma dedupFrom_hex_fresh seen colors c :
  c ∈ dedupFrom seen colors → hex c ∉ seen.
Proof.
  revert seen. induction colors as [|c' rest IH]; intros seen; simpl.
  - by intros ?%elem_of_nil.
  - destruct (decide (hex c' ∈ seen)) as [Hin|Hout]; [by apply IH|].
    intros [->|Hc]%elem_of_cons; [done|].
    apply IH in Hc. set_solver.
Qed.

Lemma dedupFrom_sublist seen colors : dedupFrom seen colors `sublist_of` colors.
Proof.
  revert seen. induction colors as [|c rest IH]; intros seen; simpl.
  - constructor.
  - destruct (decide (hex c ∈ seen)).
    + by apply sublist_cons.
    + by apply sublist_skip.
Qed.

Lemma dedupFrom_NoDup seen colors : NoDup (hex <$> dedupFrom seen colors).
Proof.
  revert seen. induction colors as [|c rest IH]; intros seen; simpl.
  - constructor.
  - destruct (decide (hex c ∈ seen)); [by apply IH|].
    rewrite fmap_cons. constructor; [|by apply IH].
    intros (c' & Heq & Hc')%list_elem_of_fmap.
    apply dedupFrom_hex_fresh in Hc'. set_solver.
Qed.

(** The filter keeps everything when the hex values are pairwise distinct
    and none of them has been seen. *)
Lemma dedupFrom_distinct seen colors :
  NoDup (hex <$> colors) →
  (∀ c, c ∈ colors → hex c ∉ seen) →
  dedupFrom seen colors = colors.
Proof.
  revert seen. induction colors as [|c rest IH]; intros seen Hnd Hseen;
    simpl; [done|].
  rewrite fmap_cons in Hnd. apply NoDup_cons in Hnd as [Hc Hnd].
  destruct (decide (hex c ∈ seen)) as [Hin|_].
  - exfalso. apply (Hseen c); [left|done].
  - f_equal. apply IH; [done|].
    intros c' Hc'. apply not_elem_of_union. split.
    + intros Heq%elem_of_singleton. apply Hc. rewrite <- Heq.
      by apply list_elem_of_fmap_2.
    + apply Hseen. by right.
Qed.

(** The hex values that survive are those of the input not seen before. *)
Lemma dedupFrom_hexes seen colors h :
  h ∈ hex <$> dedupFrom seen colors ↔ h ∈ hex <$> colors ∧ h ∉ seen.
Proof.
  revert seen. induction colors as [|c rest IH]; intros seen.
  - cbn. rewrite elem_of_nil. tauto.
  - cbn [dedupFrom]. rewrite fmap_cons, elem_of_cons.
    destruct (decide (hex c ∈ seen)) as [Hin|Hout].
    + rewrite IH. split; [tauto|]. intros [[->|?] ?]; tauto.
    + rewrite fmap_cons, elem_of_cons, IH, elem_of_union, elem_of_singleton.
      destruct (decide (h = hex c)) as [->|?]; tauto.
Qed.

(** The set [seen] holds the hex values of the samples already visited. *)
Lemma dedupFrom_firstOccurrences pre colors :
  dedupFrom (list_to_set (hex <$> pre)) colors
  = (filter (fun ic => isFirstOccurrence (pre ++ colors) ic.1 ic.2)
       (imap (fun i c => (length pre + i, c)) colors)).*2.
Proof.
  revert pre. induction colors as [|c rest IH]; intros pre; [done|].
  cbn [dedupFrom]. rewrite imap_cons, filter_cons. cbn [fst snd].
  assert (Hstep : list_to_set (hex <$> pre ++ [c])
                  = ({[hex c]} ∪ list_to_set (hex <$> pre) : gset string)).
  { rewrite fmap_app, list_to_set_app_L. cbn. apply set_eq. intros x.
    rewrite !elem_of_union, elem_of_empty. tauto. }
  assert (Hrest :
    (filter (fun ic => isFirstOccurrence (pre ++ c :: rest) ic.1 ic.2)
       (imap ((fun i c0 => (length pre + i, c0)) ∘ S) rest)).*2
    = dedupFrom (list_to_set (hex <$> pre ++ [c])) rest).
  { rewrite IH, cons_middle, app_assoc. do 2 f_equal.
    apply imap_ext. intros i x _. cbn. rewrite length_app. cbn.
    f_equal. lia. }
  assert (Hhead : isFirstOccurrence (pre ++ c :: rest) (length pre + 0) c
                  ↔ hex c ∉ (list_to_set (hex <$> pre) : gset string)).
  { unfold isFirstOccurrence.
    by rewrite Nat.add_0_r, (take_app_length pre (c :: rest)),
      elem_of_list_to_set. }
  destruct (decide (hex c ∈ (list_to_set (hex <$> pre) : gset string)))
    as [Hin|Hout].
  - rewrite decide_False by (rewrite Hhead; tauto).
    rewrite Hrest, Hstep. f_equal. apply set_eq. intros x.
    rewrite elem_of_union, elem_of_singleton.
    split; [by right|]. by intros [->|?].
  - rewrite decide_True by (by rewrite Hhead).
    rewrite fmap_cons. cbn [snd]. f_equal. by rewrite Hrest, Hstep.
Qed.

Lemma deduplicateColors_firstOccurrences colors :
  deduplicateColors colors = firstOccurrences colors.
Proof. apply (dedupFrom_firstOccurrences [] colors). Qed.

(** A sample survives exactly when it is the first with its hex value. *)
Lemma deduplicateColors_elem colors c :
  c ∈ deduplicateColors colors
  ↔ ∃ i, colors !! i = Some c ∧ isFirstOccurrence colors i c.
Proof.
  rewrite deduplicateColors_firstOccurrences. unfold firstOccurrences.
  rewrite list_elem_of_fmap. split.
  - intros ([i c'] & -> & Hic). apply list_elem_of_filter in Hic as [Hf Hic].
    apply list_elem_of_lookup in Hic as [k Hk].
    rewrite list_lookup_imap in Hk.
    destruct (colors !! k) as [ck|] eqn:Hck; [|done].
    cbn in Hk. injection Hk as <- <-. by exists k.
  - intros (i & Hi & Hf). exists (i, c). split; [done|].
    apply list_elem_of_filter. split; [done|].
    apply list_elem_of_lookup. exists i. by rewrite list_lookup_imap, Hi.
Qed.

(** Every hex value of the input has exactly one survivor. *)
Lemma deduplicateColors_survivor colors c0 :
  c0 ∈ colors →
  ∃ c, c ∈ deduplicateColors colors ∧ hex c = hex c0
       ∧ ∀ c', c' ∈ deduplicateColors colors → hex c' = hex c0 → c' = c.
Proof.
  intros Hc0.
  assert (Hin : hex c0 ∈ hex <$> deduplicateColors colors).
  { apply dedupFrom_hexes. split; [by apply list_elem_of_fmap_2|].
    apply not_elem_of_empty. }
  apply list_elem_of_fmap in Hin as (c & Hhex & Hc).
  exists c. split; [done|]. split; [done|].
  intros c' Hc' Hhex'.
  apply list_elem_of_lookup in Hc as [i Hi].
  apply list_elem_of_lookup in Hc' as [i' Hi'].
  assert (i' = i) as ->.
  { apply (NoDup_lookup (hex <$> deduplicateColors colors) i' i (hex c0)).
    - apply dedupFrom_NoDup.
    - rewrite list_lookup_fmap, Hi'. cbn. by rewrite Hhex'.
    - rewrite list_lookup_fmap, Hi. cbn. by rewrite Hhex. }
  congruence.
Qed.

End Dedup.

(** C5. [deduplicateColors] returns the subsequence of its input made of
    the first occurrence of each hex value, in the input's order: position
    [i] is kept exactly when no earlier position has the same hex string.
    The result is a subsequence of the input with pairwise distinct hex
    values, and each sample of the input is either in the result or has the
    hex string of an earlier sample. *)
Theorem deduplicateColors_first_occurrences (colors : list ExtractedColor) :
  deduplicateColors colors = firstOccurrences colors
  ∧ deduplicateColors colors `sublist_of` colors
  ∧ NoDup (hex <$> deduplicateColors colors)
  ∧ ∀ i c, colors !! i = Some c →
      (isFirstOccurrence colors i c → c ∈ deduplicateColors colors)
      ∧ (¬ isFirstOccurrence colors i c ↔
         ∃ j c', j < i ∧ colors !! j = Some c' ∧ hex c' = hex c).
Proof.
  split; [apply deduplicateColors_firstOccurrences|].
  split; [apply dedupFrom_sublist|]. split; [apply dedupFrom_NoDup|].
  intros i c Hi. split.
  - intros Hfirst. apply deduplicateColors_elem. by exists i.
  - unfold isFirstOccurrence. split.
    + intros Hnot. apply dec_stable in Hnot.
      apply list_elem_of_fmap in Hnot as (c' & Hhex & Hc').
      apply list_elem_of_lookup in Hc' as [j Hj].
      apply lookup_take_Some in Hj as [Hj Hlt]. by exists j, c'.
    + intros (j & c' & Hlt & Hj & Hhex) Hnot. apply Hnot.
      rewrite <- Hhex. apply list_elem_of_fmap_2.
      apply list_elem_of_lookup. exists j. by rewrite lookup_take_lt.
Qed.

(** C6. Deduplication is idempotent, and it returns a sequence whose hex
    values are pairwise distinct unchanged. *)
Theorem deduplicateColors_idempotent :
  (∀ colors, deduplicateColors (deduplicateColors colors)
             = deduplicateColors colors)
  ∧ (∀ colors, NoDup (hex <$> colors) → deduplicateColors colors = colors).
Proof.
  assert (Hid : ∀ colors,
             NoDup (hex <$> colors) → deduplicateColors colors = colors).
  { intros colors Hnd. apply dedupFrom_distinct; [done|]. set_solver. }
  split; [|done].
  intros colors. apply Hid, dedupFrom_NoDup.
Qed.

(** ** Tree extractor *)

Section Extraction.

Implicit Types (p : Paint) (paints fills : list Paint) (src : Source)
  (c : ExtractedColor) (colors pre post : list ExtractedColor).

Lemma extractPaint_solidVisible p src :
  solidVisible p ↔ is_Some (extractPaint p src).
Proof.
  unfold solidVisible, extractPaint.
  destruct (String.eqb_spec (paint_type p) "SOLID") as [Ht|Ht];
    cbn [negb orb].
  - case_bool_decide as Hv.
    + split; [tauto|]. by intros [? ?].
    + destruct (paint_color p) as [[? ?] ?]. split; [eauto|done].
  - split; [tauto|]. by intros [? ?].
Qed.

(** The sample of a paint is the same under every source, the source
    apart. *)
Lemma extractPaint_retagged p src src' :
  extractPaint p src' = retagged src' <$> extractPaint p src.
Proof.
  unfold extractPaint.
  destruct (negb _ || _); [done|]. by destruct (paint_color p) as [[? ?] ?].
Qed.

Lemma extractPaints_retagged paints src src' :
  extractPaints paints src' = retagged src' <$> extractPaints paints src.
Proof.
  unfold extractPaints. induction paints as [|p paints IH]; [done|].
  cbn [omap list_omap]. rewrite (extractPaint_retagged p src src'), IH.
  by destruct (extractPaint p src).
Qed.

Lemma extractPaint_source p src c :
  extractPaint p src = Some c → source c = src.
Proof.
  unfold extractPaint. destruct (negb _ || _); [done|].
  destruct (paint_color p) as [[? ?] ?]. by intros [= <-].
Qed.

Lemma extractPaints_elem paints src c :
  c ∈ extractPaints paints src
  ↔ ∃ p, p ∈ paints ∧ extractPaint p src = Some c.
Proof. unfold extractPaints. apply list_elem_of_omap. Qed.

Lemma extractPaints_source paints src c :
  c ∈ extractPaints paints src → source c = src.
Proof.
  intros (p & _ & Hp)%extractPaints_elem. by eapply extractPaint_source.
Qed.

Lemma extractColorsFromNode_text fills strokes children :
  extractColorsFromNode (Node "TEXT" (Some fills) strokes children)
  = extractPaints fills fill ++ strokeSamples strokes
    ++ extractPaints fills text ++ childSamples children.
Proof. done. Qed.

(** In a sequence that starts with fill samples, a survivor of the
    deduplication whose hex value occurs among them, and not before
    them, is one of them. *)
Lemma deduplicateColors_first_segment pre fillSamples post c c0 :
  c ∈ deduplicateColors (pre ++ fillSamples ++ post) →
  c0 ∈ fillSamples → hex c0 = hex c →
  hex c ∉ hex <$> pre →
  c ∈ fillSamples.
Proof.
  intros (i & Hi & Hfirst)%deduplicateColors_elem Hc0 Hhex Hpre.
  unfold isFirstOccurrence in Hfirst.
  apply list_elem_of_lookup in Hc0 as [j Hj].
  destruct (decide (i < length pre)) as [Hlt|Hge].
  { exfalso. apply Hpre. rewrite lookup_app_l in Hi by done.
    apply list_elem_of_fmap_2. by eapply list_elem_of_lookup_2. }
  rewrite lookup_app_r in Hi by lia.
  destruct (decide (i - length pre < length fillSamples)) as [Hlt|Hge'].
  { rewrite lookup_app_l in Hi by done. by eapply list_elem_of_lookup_2. }
  exfalso. apply Hfirst. rewrite <- Hhex. apply list_elem_of_fmap_2.
  apply list_elem_of_lookup. exists (length pre + j).
  apply lookup_lt_Some in Hj as Hjlt.
  rewrite lookup_take_lt by lia.
  rewrite lookup_app_r by lia.
  replace (length pre + j - length pre) with j by lia.
  by rewrite lookup_app_l.
Qed.

End Extraction.

(** *** Text samples over a whole selection *)

Section TextSamples.

Implicit Types (c : ExtractedColor) (colors : list ExtractedColor).

Lemma textShadowed_no_text colors :
  (∀ c, c ∈ colors → source c ≠ text) → textShadowed colors.
Proof.
  intros Hnone j c Hj Hsrc. destruct (Hnone c); [|done].
  by eapply list_elem_of_lookup_2.
Qed.

Lemma textShadowed_app colors1 colors2 :
  textShadowed colors1 → textShadowed colors2 →
  textShadowed (colors1 ++ colors2).
Proof.
  intros H1 H2 j c Hj Hsrc.
  destruct (decide (j < length colors1)) as [Hlt|Hge].
  - rewrite lookup_app_l in Hj by done.
    destruct (H1 j c Hj Hsrc) as (i & c' & Hi & Hc' & Hfill & Hhex).
    exists i, c'. split; [done|]. split; [|done].
    by rewrite lookup_app_l by lia.
  - rewrite lookup_app_r in Hj by lia.
    destruct (H2 _ c Hj Hsrc) as (i & c' & Hi & Hc' & Hfill & Hhex).
    exists (length colors1 + i), c'. split; [lia|]. split; [|done].
    rewrite lookup_app_r by lia.
    by replace (length colors1 + i - length colors1) with i by lia.
Qed.

Lemma textShadowed_concat (batches : list (list ExtractedColor)) :
  Forall textShadowed batches → textShadowed (List.concat batches).
Proof.
  induction 1 as [|colors batches Hc _ IH]; cbn [List.concat].
  - by intros j c ?.
  - by apply textShadowed_app.
Qed.

(** The samples a node yields by itself: its fills, its strokes and, for a
    text node, its fills again. *)
Lemma textShadowed_own fills others :
  (∀ c, c ∈ others → source c ≠ text) →
  textShadowed (extractPaints fills fill ++ others
                ++ extractPaints fills text).
Proof.
  intros Hothers j c Hj Hsrc.
  set (fillSamples := extractPaints fills fill) in *.
  destruct (decide (j < length fillSamples)) as [Hlt|Hge].
  { rewrite lookup_app_l in Hj by done.
    apply list_elem_of_lookup_2, extractPaints_source in Hj. congruence. }
  rewrite lookup_app_r in Hj by lia.
  destruct (decide (j - length fillSamples < length others)) as [Hlt|Hge'].
  { rewrite lookup_app_l in Hj by done.
    apply list_elem_of_lookup_2, Hothers in Hj. done. }
  rewrite lookup_app_r in Hj by lia.
  rewrite (extractPaints_retagged fills fill text), list_lookup_fmap in Hj.
  fold fillSamples in Hj.
  destruct (fillSamples !! _) as [c'|] eqn:Hc'; [|done].
  injection Hj as <-. apply lookup_lt_Some in Hc' as Hlt.
  exists (j - length fillSamples - length others), c'.
  split; [lia|]. split; [by rewrite lookup_app_l by lia|].
  split; [|done]. by eapply (extractPaints_source fills), list_elem_of_lookup_2.
Qed.

Lemma extractColorsFromNode_textShadowed node :
  textShadowed (extractColorsFromNode node).
Proof.
  induction node as [type fills strokes children IH] using SceneNode_ind.
  assert (Hstrokes : ∀ c, c ∈ strokeSamples strokes → source c ≠ text).
  { destruct strokes as [ss|]; cbn; [|by intros c ?%elem_of_nil].
    intros c ->%extractPaints_source. done. }
  assert (Hchildren : textShadowed (childSamples children)).
  { destruct children as [cs|]; cbn in IH |- *; [|by intros j c ?].
    apply textShadowed_concat. by apply Forall_fmap. }
  change (extractColorsFromNode (Node type fills strokes children))
    with (match fills with Some fs => extractPaints fs fill | None => [] end
          ++ strokeSamples strokes
          ++ (if String.eqb type "TEXT"
              then match fills with
                   | Some fs => extractPaints fs text
                   | None => []
                   end
              else [])
          ++ childSamples children).
  destruct fills as [fs|], (String.eqb type "TEXT").
  - rewrite !app_assoc. apply textShadowed_app; [|done].
    rewrite <- app_assoc. by apply textShadowed_own.
  - rewrite !app_assoc. apply textShadowed_app; [|done].
    apply textShadowed_no_text. intros c.
    rewrite app_nil_r, elem_of_app.
    intros [->%extractPaints_source|?%Hstrokes]; done.
  - cbn [app]. apply textShadowed_app; [|done].
    by apply textShadowed_no_text.
  - cbn [app]. apply textShadowed_app; [|done].
    by apply textShadowed_no_text.
Qed.

(** What the handler of [extract-colors] returns never holds a sample
    found as text: the fill twin of every text sample comes first. *)
Lemma deduplicated_never_text (selection : list SceneNode) c :
  c ∈ deduplicateColors
        (List.concat (List.map extractColorsFromNode selection)) →
  source c ≠ text.
Proof.
  intros (j & Hj & Hfirst)%deduplicateColors_elem Hsrc.
  assert (Hall : textShadowed
            (List.concat (List.map extractColorsFromNode selection))).
  { apply textShadowed_concat, Forall_fmap, Forall_forall.
    intros node _. apply extractColorsFromNode_textShadowed. }
  destruct (Hall j c Hj Hsrc) as (i & c' & Hi & Hc' & _ & Hhex).
  apply Hfirst. rewrite <- Hhex. apply list_elem_of_fmap_2.
  apply list_elem_of_lookup. exists i. by rewrite lookup_take_lt.
Qed.

End TextSamples.

(** C10. For a text node with a list of fills, the samples of its solid,
    visible fills are emitted once with source [fill] and once more, in the
    same order, with source [text]; each fill sample stands before its
    text twin.  Hence, in any sequence holding the node's samples, the
    deduplication keeps exactly one sample with the hex value of such a
    paint, and that survivor is one of the node's fill samples, with
    source [fill], unless that hex value occurs before the node's
    samples. *)
Theorem text_node_fills_emitted_twice
  (fills : list Paint) (strokes : option (list Paint))
  (children : option (list SceneNode)) :
  let node := Node "TEXT" (Some fills) strokes children in
  let fillSamples := extractPaints fills fill in
  let textSamples := extractPaints fills text in
  (∃ others descendants,
      extractColorsFromNode node
      = fillSamples ++ others ++ textSamples ++ descendants)
  ∧ textSamples = retagged text <$> fillSamples
  ∧ (∀ p, p ∈ fills → solidVisible p →
       ∃ c, extractPaint p fill = Some c ∧ source c = fill
            ∧ c ∈ fillSamples ∧ retagged text c ∈ textSamples)
  ∧ (∀ i c, fillSamples !! i = Some c →
       ∃ j, i < j
            ∧ extractColorsFromNode node !! i = Some c
            ∧ extractColorsFromNode node !! j = Some (retagged text c))
  ∧ (∀ pre post p c0,
       p ∈ fills → extractPaint p fill = Some c0 →
       let all := pre ++ extractColorsFromNode node ++ post in
       ∃ c, c ∈ deduplicateColors all ∧ hex c = hex c0
            ∧ (∀ c', c' ∈ deduplicateColors all → hex c' = hex c0 → c' = c)
            ∧ (hex c0 ∉ hex <$> pre → source c = fill ∧ c ∈ fillSamples)).
Proof.
  intros node fillSamples textSamples.
  assert (Htwin : textSamples = retagged text <$> fillSamples)
    by apply extractPaints_retagged.
  assert (Hnode : extractColorsFromNode node
                  = fillSamples ++ strokeSamples strokes
                    ++ textSamples ++ childSamples children)
    by apply extractColorsFromNode_text.
  split; [by eauto|]. split; [done|]. split; [|split].
  - intros p Hp [c Hc]%(extractPaint_solidVisible p fill).
    exists c. split; [done|]. split; [by eapply extractPaint_source|].
    assert (c ∈ fillSamples) by (apply extractPaints_elem; eauto).
    split; [done|]. rewrite Htwin. by apply list_elem_of_fmap_2.
  - intros i c Hi. apply lookup_lt_Some in Hi as Hlt.
    exists (length fillSamples + (length (strokeSamples strokes) + i)).
    split; [lia|]. rewrite Hnode. split.
    + by rewrite lookup_app_l.
    + rewrite lookup_app_r by lia.
      replace (length fillSamples + (length (strokeSamples strokes) + i)
               - length fillSamples)
        with (length (strokeSamples strokes) + i) by lia.
      rewrite lookup_app_r by lia.
      replace (length (strokeSamples strokes) + i
               - length (strokeSamples strokes)) with i by lia.
      rewrite lookup_app_l by (rewrite Htwin, length_fmap; lia).
      by rewrite Htwin, list_lookup_fmap, Hi.
  - intros pre post p c0 Hp Hc0 all.
    assert (Hfill : c0 ∈ fillSamples) by (apply extractPaints_elem; eauto).
    destruct (deduplicateColors_survivor all c0) as (c & Hc & Hhex & Hone).
    { unfold all. rewrite Hnode, !elem_of_app. auto. }
    exists c. split; [done|]. split; [done|]. split; [done|].
    intros Hpre.
    assert (Hin : c ∈ fillSamples).
    { unfold all in Hc. rewrite Hnode, <- !app_assoc in Hc.
      eapply deduplicateColors_first_segment; [exact Hc|exact Hfill|done|].
      by rewrite Hhex. }
    split; [|done]. by apply (extractPaints_source fills).
Qed.

(** ** Strings *)

Section Strings.

Implicit Types (s t : string) (c : ascii) (parts : list string).

Lemma hasHyphen_app s t : hasHyphen (s +:+ t) = hasHyphen s || hasHyphen t.
Proof.
  induction s as [|c s IH]; [done|].
  change (hasHyphen (String c s +:+ t))
    with (Ascii.eqb c "-" || hasHyphen (s +:+ t)).
  by rewrite IH, orb_assoc.
Qed.

Lemma split_nonempty s : split s ≠ [].
Proof.
  destruct s as [|c s]; [done|]. cbn.
  destruct (Ascii.eqb c "-"); [done|]. by destruct (split s).
Qed.

Lemma split_no_hyphen s : hasHyphen s = false → split s = [s].
Proof.
  induction s as [|c s IH]; [done|]. cbn.
  intros [Hc Hs]%orb_false_iff. by rewrite Hc, (IH Hs).
Qed.

Lemma splitLastHyphen_Some s group shade :
  splitLastHyphen s = Some (group, shade) → s = group +:+ "-" +:+ shade.
Proof.
  revert group. induction s as [|c s IH]; intros group; [done|]. cbn.
  destruct (splitLastHyphen s) as [[group' shade']|].
  - intros [= <- <-]. by rewrite (IH group').
  - destruct (Ascii.eqb_spec c "-") as [->|?]; [|done]. by intros [= <- <-].
Qed.

Lemma split_singleton s seg : split s = [seg] → hasHyphen s = false.
Proof.
  revert seg. induction s as [|c s IH]; intros seg; [done|]. cbn.
  destruct (Ascii.eqb c "-").
  - intros [= _ Hs]. by destruct (split_nonempty s).
  - pose proof (split_nonempty s) as Hne.
    destruct (split s) as [|seg' segs]; [done|].
    intros [= _ ->]. by apply (IH seg').
Qed.

Lemma splitLastHyphen_None s :
  splitLastHyphen s = None ↔ hasHyphen s = false.
Proof.
  induction s as [|c s IH]; [done|]. cbn.
  destruct (splitLastHyphen s) as [[group shade]|].
  - split; [done|]. intros [_ Hs]%orb_false_iff.
    by apply IH in Hs.
  - rewrite (proj1 IH eq_refl), orb_false_r.
    by destruct (Ascii.eqb c "-").
Qed.

(** The prefix [parts.slice(0, parts.length - 1)] and the last element of
    [c :: parts] for a non-empty [parts]. *)
Lemma take_init_cons (p : string) parts :
  parts ≠ [] →
  take (length (p :: parts) - 1) (p :: parts)
  = p :: take (length parts - 1) parts.
Proof. destruct parts; [done|]. intros _. cbn. by rewrite Nat.sub_0_r. Qed.

Lemma join_cons_char c s parts :
  join (String c s :: parts) = String c (join (s :: parts)).
Proof. by destruct parts. Qed.

(** The keys the code computes are the two sides of the last hyphen. *)
Lemma tailwindKeys_splitLastHyphen s group shade :
  splitLastHyphen s = Some (group, shade) →
  tailwindKeys s = (group, shade).
Proof.
  unfold tailwindKeys. cbv zeta.
  revert group shade. induction s as [|c s IH]; intros group shade; [done|].
  cbn [splitLastHyphen split].
  destruct (splitLastHyphen s) as [[group' shade']|] eqn:Hs.
  - intros [= <- <-]. specialize (IH _ _ eq_refl).
    injection IH as IHg IHs.
    pose proof (split_nonempty s) as Hne.
    destruct (Ascii.eqb_spec c "-") as [->|Hc].
    + rewrite take_init_cons by done.
      destruct (split s) as [|seg segs] eqn:Hsplit; [done|].
      rewrite last_cons. destruct (last (seg :: segs)) eqn:Hl; cbn [default].
      * f_equal; [|done].
        destruct segs as [|seg' segs]; [|by rewrite <- IHg].
        apply split_singleton, splitLastHyphen_None in Hsplit.
        congruence.
      * by rewrite last_None in Hl.
    + destruct (split s) as [|seg segs] eqn:Hsplit; [done|].
      destruct segs as [|seg' segs].
      { exfalso. apply split_singleton, splitLastHyphen_None in Hsplit.
        congruence. }
      rewrite take_init_cons by done.
      rewrite take_init_cons in IHg by done.
      rewrite join_cons_char, IHg. f_equal. exact IHs.
  - destruct (Ascii.eqb_spec c "-") as [->|Hc]; [|done].
    intros [= <- <-]. apply splitLastHyphen_None in Hs.
    by rewrite (split_no_hyphen s Hs).
Qed.

Lemma append_assoc s t u : (s +:+ t) +:+ u = s +:+ t +:+ u.
Proof.
  induction s as [|c s IH]; [done|].
  change (String c ((s +:+ t) +:+ u) = String c (s +:+ t +:+ u)).
  by rewrite IH.
Qed.

Lemma splitLastHyphen_app s t :
  hasHyphen t = false → splitLastHyphen (s +:+ "-" +:+ t) = Some (s, t).
Proof.
  intros Ht. induction s as [|c s IH].
  - change (splitLastHyphen (EmptyString +:+ "-" +:+ t))
      with (match splitLastHyphen t with
            | Some (group, shade) => Some (String "-" group, shade)
            | None => Some (EmptyString, t)
            end).
    by rewrite (proj2 (splitLastHyphen_None t) Ht).
  - change (splitLastHyphen (String c s +:+ "-" +:+ t))
      with (match splitLastHyphen (s +:+ "-" +:+ t) with
            | Some (group, shade) => Some (String c group, shade)
            | None => if Ascii.eqb c "-"
                      then Some (EmptyString, s +:+ "-" +:+ t) else None
            end).
    by rewrite IH.
Qed.

Lemma isDigits_no_hyphen s : isDigits s = true → hasHyphen s = false.
Proof.
  induction s as [|c s IH]; [done|]. cbn [isDigits hasHyphen].
  intros [[Hlo Hhi]%andb_prop Hs]%andb_prop. rewrite (IH Hs), orb_false_r.
  destruct (Ascii.eqb_spec c "-") as [->|?]; [|done].
  by vm_compute in Hlo.
Qed.

Lemma pretty_N_go_digits x s :
  isDigits s = true → isDigits (pretty_N_go x s) = true.
Proof.
  revert s. induction (N.lt_wf_0 x) as [x _ IH]; intros s Hs.
  destruct (decide (x = 0)%N) as [->|Hx]; [done|].
  rewrite pretty_N_go_step by lia. apply IH.
  - apply N.div_lt; lia.
  - cbn [isDigits]. rewrite Hs, andb_true_r.
    assert (Hmod : (x `mod` 10 < 10)%N) by (apply N.mod_lt; lia).
    unfold pretty_N_char. by repeat case_match.
Qed.

Lemma ofInt_digits n : (0 ≤ n)%Z → isDigits (ofInt n) = true.
Proof.
  intros Hn. unfold ofInt, pretty, pretty_Z.
  destruct n as [|q|q]; [done| |lia].
  unfold pretty, pretty_positive, pretty, pretty_N.
  rewrite decide_False by done. by apply pretty_N_go_digits.
Qed.

End Strings.

(** ** Export formatter *)

Section ExportFormatter.

Import JsObject.

Lemma get_set {V} (o : t V) k v k' :
  get (set o k v) k' = if decide (k = k') then Some v else get o k'.
Proof.
  induction o as [|[k0 v0] o IH]; cbn [set get].
  - destruct (String.eqb_spec k k'); by case_decide.
  - destruct (String.eqb_spec k0 k) as [->|Hk0]; cbn [get].
    + destruct (String.eqb_spec k k'); by case_decide.
    + rewrite IH. destruct (String.eqb_spec k0 k') as [->|?]; [|done].
      by rewrite decide_False by done.
Qed.

Lemma get_assign o k v k' :
  k ∉ protoKeys →
  get (assign o k v) k' = if decide (k = k') then Some v else get o k'.
Proof.
  intros Hk. unfold assign.
  destruct (String.eqb_spec k "__proto__") as [->|_]; [|apply get_set].
  exfalso. apply Hk. unfold protoKeys. set_solver.
Qed.

(** Setting a property keeps the keys distinct. *)
Lemma set_keys {V} (o : t V) k v :
  (set o k v).*1 = if decide (k ∈ o.*1) then o.*1 else o.*1 ++ [k].
Proof.
  induction o as [|[k0 v0] o IH]; [done|]. cbn [set].
  destruct (String.eqb_spec k0 k) as [->|Hne].
  - cbn. by rewrite decide_True by left.
  - cbn. rewrite IH. destruct (decide (k ∈ o.*1)) as [Hin|Hout].
    + by rewrite decide_True by (by right).
    + rewrite decide_False; [done|].
      intros [?|?]%elem_of_cons; congruence.
Qed.

Lemma set_keys_NoDup {V} (o : t V) k v : NoDup o.*1 → NoDup (set o k v).*1.
Proof.
  intros Hnd. rewrite set_keys. case_decide; [done|].
  apply NoDup_app. split; [done|]. split; [|apply NoDup_singleton].
  intros x Hx ->%list_elem_of_singleton. done.
Qed.

Lemma insertIndexed_Permutation {V} i (kv : string * V) l :
  insertIndexed i kv l ≡ₚ (i, kv) :: l.
Proof.
  induction l as [|[j kv'] l IH]; [done|]. cbn [insertIndexed].
  destruct (i <? j)%N; [done|]. by rewrite IH, Permutation_swap.
Qed.

(** The enumeration order lists every own property once. *)
Lemma entries_Permutation {V} (o : t V) : entries o ≡ₚ o.
Proof.
  unfold entries. induction o as [|[k v] o IH]; [done|].
  cbn [foldr List.filter fst]. destruct (arrayIndex k) as [i|] eqn:Hk.
  - rewrite bool_decide_eq_false_2 by done.
    rewrite insertIndexed_Permutation. cbn. by rewrite IH.
  - rewrite bool_decide_eq_true_2 by done.
    rewrite <- Permutation_middle. by rewrite IH.
Qed.

Lemma flatStep_get flat c name :
  tokenName c ∉ protoKeys →
  get (flatStep flat c) name
  = if decide (tokenName c = name) then Some (hex c) else get flat name.
Proof. apply get_assign. Qed.

Lemma nestedStep_lookup2 nested c group shade :
  fst (tailwindKeys (tokenName c)) ∉ protoKeys →
  snd (tailwindKeys (tokenName c)) ∉ protoKeys →
  lookup2 (nestedStep nested c) group shade
  = if decide (tailwindKeys (tokenName c) = (group, shade))
    then Some (hex c) else lookup2 nested group shade.
Proof.
  unfold nestedStep, lookup2.
  destruct (tailwindKeys (tokenName c)) as [colorName shade0].
  cbn [fst snd]. intros Hgroup Hshade.
  assert (Hstep : ∀ o : t string,
    get (set nested colorName (assign o shade0 (hex c))) group
      ≫= (fun o' => get o' shade)
    = if decide ((colorName, shade0) = (group, shade)) then Some (hex c)
      else if decide (colorName = group) then get o shade
      else get nested group ≫= (fun o' => get o' shade)).
  { intros o. rewrite get_set. destruct (decide (colorName = group)) as [->|?].
    - cbn. rewrite get_assign by done.
      destruct (decide (shade0 = shade)) as [->|?].
      + by rewrite decide_True.
      + rewrite decide_False; [done|congruence].
    - rewrite decide_False; [done|congruence]. }
  destruct (get nested colorName) as [o|] eqn:Hget.
  - rewrite Hstep. repeat case_decide; subst; try done.
    by rewrite Hget.
  - rewrite bool_decide_eq_false_2 by done. rewrite Hstep.
    repeat case_decide; subst; try done. by rewrite Hget.
Qed.

Lemma last_filter_cons {A} (P : A → Prop) `{!∀ x, Decision (P x)} x l :
  last (filter P (x :: l))
  = match last (filter P l) with
    | Some y => Some y
    | None => if decide (P x) then Some x else None
    end.
Proof.
  rewrite filter_cons. destruct (decide (P x)); [|by destruct (last _)].
  by rewrite last_cons.
Qed.

(** The loop of the flat branch, started from any dictionary. *)
Lemma flat_fold_get colors flat name :
  Forall (fun c => tokenName c ∉ protoKeys) colors →
  get (fold_left flatStep colors flat) name
  = match lastHex (fun c => tokenName c = name) colors with
    | Some h => Some h
    | None => get flat name
    end.
Proof.
  unfold lastHex. intros Hall. revert flat.
  induction Hall as [|c colors Hc _ IH]; intros flat; [done|].
  cbn [fold_left]. rewrite IH, last_filter_cons, flatStep_get by done.
  destruct (last (filter _ colors)); [done|]. by case_decide.
Qed.

Lemma hasHyphen_not_inherited name :
  hasHyphen name = true → name ∉ protoKeys.
Proof.
  intros Hname Hin. unfold protoKeys in Hin.
  repeat (apply elem_of_cons in Hin as [->|Hin]; [done|]).
  by apply elem_of_nil in Hin.
Qed.

(** On a name with a hyphen, the keys of the code are the two sides of
    its last hyphen. *)
Lemma tailwindKeys_iff name group shade :
  hasHyphen name = true →
  tailwindKeys name = (group, shade)
  ↔ splitLastHyphen name = Some (group, shade).
Proof.
  intros Hname.
  destruct (splitLastHyphen name) as [[group' shade']|] eqn:Hsplit.
  - rewrite (tailwindKeys_splitLastHyphen _ _ _ Hsplit). naive_solver.
  - apply splitLastHyphen_None in Hsplit. congruence.
Qed.

(** The loop of the tailwind branch, started from any dictionary. *)
Lemma nested_fold_lookup2 colors nested group shade :
  Forall exportable colors →
  lookup2 (fold_left nestedStep colors nested) group shade
  = match lastHex (fun c => splitLastHyphen (tokenName c)
                            = Some (group, shade)) colors with
    | Some h => Some h
    | None => lookup2 nested group shade
    end.
Proof.
  unfold lastHex. intros Hall. revert nested.
  induction Hall as [|c colors (Hname & Hg & Hs) _ IH]; intros nested;
    [done|].
  cbn [fold_left].
  rewrite IH, last_filter_cons, nestedStep_lookup2 by done.
  destruct (last (filter _ colors)); [done|].
  pose proof (tailwindKeys_iff _ group shade Hname).
  repeat case_decide; naive_solver.
Qed.

Lemma get_Some_elem {V} (o : t V) k v :
  NoDup o.*1 → get o k = Some v ↔ (k, v) ∈ o.
Proof.
  induction o as [|[k0 v0] o IH]; cbn [get].
  - intros _. split; [done|]. by intros ?%elem_of_nil.
  - rewrite fmap_cons. intros [Hk0 Hnd]%NoDup_cons. cbn [fst] in Hk0.
    rewrite elem_of_cons. destruct (String.eqb_spec k0 k) as [->|Hne].
    + split; [intros [= ->]; by left|].
      intros [[= ->]|Hin]; [done|].
      exfalso. apply Hk0. by apply (list_elem_of_fmap_2 fst) in Hin.
    + rewrite (IH Hnd). split; [by right|].
      intros [[= ? ?]|?]; [congruence|done].
Qed.

Lemma get_Permutation {V} (o o' : t V) k :
  NoDup o.*1 → o ≡ₚ o' → get o k = get o' k.
Proof.
  intros Hnd Hperm. assert (Hnd' : NoDup o'.*1) by (by rewrite <- Hperm).
  apply option_eq. intros v.
  by rewrite !get_Some_elem, Hperm by done.
Qed.

Lemma get_fmap {V W} (f : V → W) (o : t V) k :
  get (List.map (fun kv => (kv.1, f kv.2)) o) k = f <$> get o k.
Proof.
  induction o as [|[k0 v0] o IH]; [done|]. cbn.
  by destruct (String.eqb k0 k).
Qed.

Lemma member_ofFlat flat k :
  NoDup flat.*1 → Json.member (Json.ofFlat flat) k = Json.Str <$> get flat k.
Proof.
  intros Hnd. unfold Json.ofFlat, Json.member. rewrite get_fmap.
  f_equal. symmetry. apply get_Permutation; [done|].
  symmetry. apply entries_Permutation.
Qed.

Lemma member_ofNested nested k :
  NoDup nested.*1 →
  Json.member (Json.ofNested nested) k = Json.ofFlat <$> get nested k.
Proof.
  intros Hnd. unfold Json.ofNested, Json.member. rewrite get_fmap.
  f_equal. symmetry. apply get_Permutation; [done|].
  symmetry. apply entries_Permutation.
Qed.

Lemma assign_keys_NoDup o k v : NoDup o.*1 → NoDup (assign o k v).*1.
Proof.
  unfold assign. destruct (String.eqb k "__proto__"); [done|].
  apply set_keys_NoDup.
Qed.

Lemma set_elem {V} (o : t V) k v kv :
  kv ∈ set o k v → kv ∈ o ∨ kv = (k, v).
Proof.
  induction o as [|[k0 v0] o IH]; cbn [set].
  - intros ->%list_elem_of_singleton. by right.
  - destruct (String.eqb_spec k0 k) as [->|Hne].
    + intros [->|?]%elem_of_cons; [by right|left; by right].
    + intros [->|Hin]%elem_of_cons; [left; by left|].
      destruct (IH Hin); [left; by right|by right].
Qed.

Lemma flat_fold_NoDup colors flat :
  NoDup flat.*1 → NoDup (fold_left flatStep colors flat).*1.
Proof.
  revert flat. induction colors as [|c colors IH]; intros flat Hnd; [done|].
  cbn [fold_left]. by apply IH, assign_keys_NoDup.
Qed.

Lemma nestedStep_wellKeyed nested c :
  wellKeyed nested → wellKeyed (nestedStep nested c).
Proof.
  intros [Hnd Hgroups]. unfold nestedStep.
  destruct (tailwindKeys (tokenName c)) as [colorName shade].
  assert (Hset : ∀ o : t string, NoDup o.*1 →
            wellKeyed (set nested colorName (assign o shade (hex c)))).
  { intros o Ho. split; [by apply set_keys_NoDup|].
    intros kv [Hin| ->]%set_elem; [by apply Hgroups|].
    by apply assign_keys_NoDup. }
  destruct (get nested colorName) as [o|] eqn:Hget.
  - apply Hset. apply get_Some_elem in Hget; [|done].
    apply (Hgroups _ Hget).
  - case_bool_decide; [done|]. apply Hset. constructor.
Qed.

Lemma nested_fold_wellKeyed colors nested :
  wellKeyed nested → wellKeyed (fold_left nestedStep colors nested).
Proof.
  revert nested. induction colors as [|c colors IH]; intros nested Hwk;
    [done|].
  cbn [fold_left]. by apply IH, nestedStep_wellKeyed.
Qed.

(** Reading the document of the tailwind branch at two levels. *)
Lemma member_ofNested_lookup2 nested group shade :
  wellKeyed nested →
  Json.member (Json.ofNested nested) group
    ≫= (fun o => Json.member o shade)
  = Json.Str <$> lookup2 nested group shade.
Proof.
  intros [Hnd Hgroups]. rewrite member_ofNested by done. unfold lookup2.
  destruct (get nested group) as [o|] eqn:Hget; [|done]. cbn.
  apply member_ofFlat. apply get_Some_elem in Hget; [|done].
  apply (Hgroups _ Hget).
Qed.

(** When the names are pairwise distinct, the last sample with the name
    of [c] is [c]. *)
Lemma lastHex_distinct (P : ExtractedColor → Prop)
  `{!∀ c, Decision (P c)} colors c :
  NoDup (tokenName <$> colors) → c ∈ colors → P c →
  (∀ c', P c' → tokenName c' = tokenName c) →
  lastHex P colors = Some (hex c).
Proof.
  unfold lastHex. intros Hnd Hc HP Hname.
  assert (Hlast : last (filter P colors) = Some c); [|by rewrite Hlast].
  induction colors as [|c0 colors IH]; [by apply elem_of_nil in Hc|].
  rewrite fmap_cons in Hnd. apply NoDup_cons in Hnd as [Hc0 Hnd].
  rewrite last_filter_cons. apply elem_of_cons in Hc as [->|Hc].
  - destruct (last (filter P colors)) as [y|] eqn:Hy.
    + exfalso. apply last_Some_elem_of, list_elem_of_filter in Hy as [HPy Hy].
      apply Hc0. rewrite <- (Hname y HPy). by apply list_elem_of_fmap_2.
    + by rewrite decide_True.
  - by rewrite (IH Hnd Hc).
Qed.

End ExportFormatter.

(** C7. For samples whose token names have a hyphen (and avoid the keys
    inherited by every object), [buildJson] produces the document with the
    single top-level key [colors].  With pattern [tailwind] the value under
    the group key and the shade key that the last hyphen of a token name
    separates is the hex string of the (last) sample with that name, and
    nothing else is in the document; with any other pattern the value
    under a token name is the hex string of the (last) sample with that
    name.  When the names are pairwise distinct every sample is found under
    its own keys. *)
Theorem buildJson_spec (colors : list ExtractedColor) (pattern : string) :
  Forall exportable colors →
  ∃ doc,
    buildJson colors pattern = Json.stringify (Json.Obj [("colors", doc)])
    ∧ (pattern = "tailwind" →
       (∀ group shade,
          Json.member doc group ≫= (fun o => Json.member o shade)
          = Json.Str <$> lastHex (fun c => splitLastHyphen (tokenName c)
                                           = Some (group, shade)) colors)
       ∧ (NoDup (tokenName <$> colors) →
          ∀ c group shade,
            c ∈ colors →
            splitLastHyphen (tokenName c) = Some (group, shade) →
            Json.member doc group ≫= (fun o => Json.member o shade)
            = Some (Json.Str (hex c))))
    ∧ (pattern ≠ "tailwind" →
       (∀ name,
          Json.member doc name
          = Json.Str <$> lastHex (fun c => tokenName c = name) colors)
       ∧ (NoDup (tokenName <$> colors) →
          ∀ c, c ∈ colors →
               Json.member doc (tokenName c) = Some (Json.Str (hex c)))).
Proof.
  intros Hall. unfold buildJson.
  destruct (String.eqb_spec pattern "tailwind") as [->|Hpat].
  - eexists. split; [done|]. split; [intros _|done].
    assert (Hdoc : ∀ group shade,
      Json.member (Json.ofNested (fold_left nestedStep colors [])) group
        ≫= (fun o => Json.member o shade)
      = Json.Str <$> lastHex (fun c => splitLastHyphen (tokenName c)
                                       = Some (group, shade)) colors).
    { intros group shade. rewrite member_ofNested_lookup2.
      - rewrite nested_fold_lookup2 by done. by destruct (lastHex _ _).
      - apply nested_fold_wellKeyed. split; [constructor|].
        by intros kv ?%elem_of_nil. }
    split; [done|].
    intros Hnd c group shade Hc Hsplit. rewrite Hdoc.
    rewrite (lastHex_distinct _ colors c); [done..|].
    intros c' Hc'. apply splitLastHyphen_Some in Hsplit, Hc'. congruence.
  - eexists. split; [done|]. split; [done|intros _].
    assert (Hdoc : ∀ name,
      Json.member (Json.ofFlat (fold_left flatStep colors [])) name
      = Json.Str <$> lastHex (fun c => tokenName c = name) colors).
    { intros name. rewrite member_ofFlat.
      - rewrite flat_fold_get; [by destruct (lastHex _ _)|].
        eapply Forall_impl; [exact Hall|].
        intros c (Hname & _). by apply hasHyphen_not_inherited.
      - apply flat_fold_NoDup. constructor. }
    split; [done|].
    intros Hnd c Hc. rewrite Hdoc.
    by rewrite (lastHex_distinct _ colors c).
Qed.

(** ** Naming engine *)

Section Naming.

Variables pattern customPrefix : string.

Implicit Types (colors pre : list ExtractedColor) (roleCount : gmap string Z).

Local Abbreviation candidate := (candidateName pattern customPrefix).
Local Abbreviation count := (occurrences pattern customPrefix).
Local Abbreviation registryOf := (registryOf pattern customPrefix).

Lemma registryOf_empty : registryOf ∅ [].
Proof. intros name. by rewrite lookup_empty. Qed.

Lemma occurrences_snoc name pre c :
  count name (pre ++ [c])
  = if decide (candidate c = name) then S (count name pre)
    else count name pre.
Proof.
  unfold occurrences. rewrite filter_app, length_app, filter_cons, filter_nil.
  destruct (decide (candidate c = name)); cbn; lia.
Qed.

Lemma resolveCollision_registryOf roleCount pre c :
  registryOf roleCount pre →
  ∃ roleCount',
    resolveCollision roleCount (candidate c)
    = (roleCount', suffixedName (candidate c) (count (candidate c) pre))
    ∧ registryOf roleCount' (pre ++ [c]).
Proof.
  intros Hreg. unfold resolveCollision. rewrite (Hreg (candidate c)).
  destruct (count (candidate c) pre) as [|k] eqn:Hk.
  - eexists. split; [done|]. intros name. rewrite occurrences_snoc.
    destruct (decide (candidate c = name)) as [<-|Hne].
    + by rewrite lookup_insert_eq, Hk.
    + by rewrite lookup_insert_ne.
  - eexists. split.
    { cbn [suffixedName].
      replace (Z.of_nat k + 1)%Z with (Z.of_nat (S k)) by lia. done. }
    intros name. rewrite occurrences_snoc.
    destruct (decide (candidate c = name)) as [<-|Hne].
    + by rewrite lookup_insert_eq, Hk.
    + by rewrite lookup_insert_ne.
Qed.

(** The sample at position [i] is named after the number of earlier
    samples with its candidate name. *)
Lemma assignFrom_lookup roleCount pre colors i c :
  registryOf roleCount pre →
  colors !! i = Some c →
  assignFrom roleCount pattern customPrefix colors !! i
  = Some (withTokenName c
            (suffixedName (candidate c)
               (count (candidate c) (pre ++ take i colors)))).
Proof.
  revert roleCount pre i.
  induction colors as [|c0 rest IH]; intros roleCount pre i Hreg Hi;
    [done|].
  cbn [assignFrom].
  destruct (resolveCollision_registryOf roleCount pre c0 Hreg)
    as (roleCount' & -> & Hreg').
  rewrite lookup_cons in Hi |- *. destruct i as [|i].
  - injection Hi as ->. by rewrite take_0, app_nil_r.
  - rewrite (IH roleCount' (pre ++ [c0]) i Hreg' Hi).
    by rewrite <- app_assoc.
Qed.

Lemma assignFrom_length roleCount colors :
  length (assignFrom roleCount pattern customPrefix colors) = length colors.
Proof.
  revert roleCount. induction colors as [|c rest IH]; intros roleCount;
    [done|].
  cbn [assignFrom]. destruct (resolveCollision _ _). cbn. by rewrite IH.
Qed.

Lemma assignTokenNames_lookup colors i c :
  colors !! i = Some c →
  assignTokenNames colors pattern customPrefix !! i
  = Some (withTokenName c
            (suffixedName (candidate c)
               (count (candidate c) (take i colors)))).
Proof.
  intros Hi. unfold assignTokenNames.
  by rewrite (assignFrom_lookup ∅ [] colors i c registryOf_empty Hi).
Qed.

(** Naming reads only the components [r], [g], [b] of a sample. *)
Lemma candidateName_withTokenName c name :
  candidate (withTokenName c name) = candidate c.
Proof. reflexivity. Qed.

Lemma assignFrom_renames roleCount colors :
  Forall2 (fun c c' => ∃ name, c' = withTokenName c name)
    colors (assignFrom roleCount pattern customPrefix colors).
Proof.
  revert roleCount. induction colors as [|c rest IH]; intros roleCount;
    cbn [assignFrom]; [constructor|].
  destruct (resolveCollision _ _) as [roleCount' name].
  constructor; [by exists name|apply IH].
Qed.

Lemma assignFrom_renamed roleCount colors colors' :
  Forall2 (fun c c' => ∃ name, c' = withTokenName c name) colors colors' →
  assignFrom roleCount pattern customPrefix colors'
  = assignFrom roleCount pattern customPrefix colors.
Proof.
  intros Hren. revert roleCount.
  induction Hren as [|c c' rest rest' [name ->] _ IH]; intros roleCount;
    [done|].
  cbn [assignFrom]. rewrite candidateName_withTokenName.
  destruct (resolveCollision _ _) as [roleCount' name'].
  by rewrite IH.
Qed.

End Naming.

(** ** Names of the known patterns *)

(** Settles that a literal key is none of the inherited keys. *)
Ltac literal_key := apply (bool_decide_unpack _); by vm_compute.

Section Names.

Import JsObject.

Implicit Types (c : ExtractedColor) (pattern customPrefix : string).

Lemma isDigits_not_inherited s : isDigits s = true → s ∉ protoKeys.
Proof.
  intros Hs Hin. unfold protoKeys in Hin.
  repeat (apply elem_of_cons in Hin as [->|Hin]; [by vm_compute in Hs|]).
  by apply elem_of_nil in Hin.
Qed.

(** A name made of a group, a hyphen and a last segment without hyphen,
    none of them inherited, is exportable. *)
Lemma exportable_join c group shade :
  tokenName c = group +:+ "-" +:+ shade →
  hasHyphen shade = false → group ∉ protoKeys → shade ∉ protoKeys →
  exportable c.
Proof.
  intros Hname Hshade Hg Hs. unfold exportable. rewrite Hname.
  rewrite (tailwindKeys_splitLastHyphen _ group shade)
    by (by apply splitLastHyphen_app).
  split; [|done]. rewrite !hasHyphen_app. apply orb_true_iff. right. done.
Qed.

(** The shade is never [undefined]: the index is clamped into the list. *)
Lemma lightnessToShade_total l :
  ∃ shade, lightnessToShade l = Some shade ∧ (0 ≤ shade)%Z.
Proof.
  unfold lightnessToShade, jsIndex. cbn [length shades].
  set (index := Z.max 0 (Z.min _ _)).
  assert (Hindex : (0 ≤ index ≤ 10)%Z) by (unfold index; lia).
  rewrite (proj2 (Z.ltb_ge _ 0)) by lia.
  destruct (lookup_lt_is_Some_2 shades (Z.to_nat index)) as [shade Hshade];
    [cbn; lia|].
  exists shade. split; [done|].
  apply list_elem_of_lookup_2 in Hshade. unfold shades in Hshade.
  repeat (apply elem_of_cons in Hshade as [->|Hshade]; [lia|]).
  by apply elem_of_nil in Hshade.
Qed.

Lemma decimal_segment n :
  (0 ≤ n)%Z → hasHyphen (ofInt n) = false ∧ ofInt n ∉ protoKeys.
Proof.
  intros Hn%ofInt_digits. split.
  - by apply isDigits_no_hyphen.
  - by apply isDigits_not_inherited.
Qed.

(** The candidate name of a known pattern has a last segment without
    hyphen, and neither side of its last hyphen is an inherited key. *)
Lemma candidateName_parts pattern customPrefix c :
  pattern ∈ knownPatterns →
  ∃ group shade,
    candidateName pattern customPrefix c = group +:+ "-" +:+ shade
    ∧ hasHyphen shade = false ∧ (group ∉ protoKeys) ∧ (shade ∉ protoKeys).
Proof.
  intros Hknown. unfold candidateName.
  destruct (rgbToHsl (r c) (g c) (b c)) as [[h s] l].
  destruct (lightnessToShade_total l) as (shade & -> & Hshade).
  destruct (decimal_segment shade Hshade) as [Hshade1 Hshade2].
  destruct (decimal_segment (lightnessToAntLevel l)) as [Hlevel1 Hlevel2];
    [unfold lightnessToAntLevel; lia|].
  cbn [shadeString].
  destruct (String.eqb_spec pattern "material") as [_|?].
  { case_bool_decide.
    - exists "color", (semanticMap (detectColorRole (r c) (g c) (b c))).
      split; [done|]. destruct (detectColorRole _ _ _);
        (split; [done|]); split; literal_key.
    - exists ("color-" +:+ semanticMap (detectColorRole (r c) (g c) (b c))),
        (ofInt shade).
      split; [by rewrite !append_assoc|]. split; [done|]. split; [|done].
      apply hasHyphen_not_inherited. by rewrite hasHyphen_app. }
  destruct (String.eqb_spec pattern "tailwind") as [_|?].
  { exists (roleName (detectColorRole (r c) (g c) (b c))), (ofInt shade).
    split; [done|]. split; [done|]. split; [|done].
    destruct (detectColorRole _ _ _); literal_key. }
  destruct (String.eqb_spec pattern "antd") as [_|?].
  { exists (semanticMapAnt (detectColorRole (r c) (g c) (b c))),
      (ofInt (lightnessToAntLevel l)).
    split; [done|]. split; [done|]. split; [|done].
    destruct (detectColorRole _ _ _); literal_key. }
  destruct (String.eqb_spec pattern "wcag") as [_|?].
  { destruct (detectColorRole _ _ _); cbn [semanticMapWcag];
      try (eexists "color", _; split; [reflexivity|];
           split; [done|]; split; literal_key).
    destruct (gtb l (1 # 2)); eexists "color-neutral", _;
      (split; [reflexivity|]); (split; [done|]); split; literal_key. }
  destruct (String.eqb_spec pattern "custom") as [_|?].
  { set (role := roleName (detectColorRole (r c) (g c) (b c))).
    destruct (trim customPrefix) as [|c0 prefix];
      [exists ("color" +:+ "-" +:+ role), (ofInt shade)
      |exists (String c0 prefix +:+ "-" +:+ role), (ofInt shade)];
      (split; [by rewrite !append_assoc|]); (split; [done|]);
      (split; [|done]); apply hasHyphen_not_inherited;
      rewrite !hasHyphen_app; apply orb_true_iff; by right. }
  exfalso. unfold knownPatterns in Hknown.
  repeat (apply elem_of_cons in Hknown as [->|Hknown]; [done|]).
  by apply elem_of_nil in Hknown.
Qed.

Lemma candidateName_hasHyphen pattern customPrefix c :
  pattern ∈ knownPatterns →
  hasHyphen (candidateName pattern customPrefix c) = true.
Proof.
  intros (group & shade & -> & _)%(candidateName_parts _ customPrefix c).
  rewrite !hasHyphen_app. apply orb_true_iff. right. done.
Qed.

(** The key looked up in [roleCount] is never one that an object literal
    inherits: the registry holds own properties only. *)
Lemma candidateName_own pattern customPrefix c :
  candidateName pattern customPrefix c ∉ protoKeys.
Proof.
  destruct (decide (pattern ∈ knownPatterns)) as [Hknown|Hunknown].
  - by apply hasHyphen_not_inherited, candidateName_hasHyphen.
  - replace (candidateName pattern customPrefix c) with EmptyString;
      [literal_key|].
    unfold candidateName. destruct (rgbToHsl _ _ _) as [[h s] l].
    repeat match goal with
           | |- context [String.eqb pattern ?p] =>
               let E := fresh in
               destruct (String.eqb_spec pattern p) as [E|_];
               [exfalso; apply Hunknown; rewrite E; literal_key|]
           end.
    done.
Qed.

(** Under a known pattern every name leaving [assignTokenNames] is
    exportable, and so not empty. *)
Lemma assignTokenNames_exportable colors pattern customPrefix :
  pattern ∈ knownPatterns →
  Forall exportable (assignTokenNames colors pattern customPrefix).
Proof.
  intros Hknown. apply Forall_lookup. intros i named Hi.
  assert (Hlt : i < length colors).
  { apply lookup_lt_Some in Hi.
    unfold assignTokenNames in Hi. by rewrite assignFrom_length in Hi. }
  destruct (lookup_lt_is_Some_2 colors i Hlt) as [c Hc].
  rewrite (assignTokenNames_lookup pattern customPrefix colors i c Hc) in Hi.
  injection Hi as <-.
  destruct (candidateName_parts pattern customPrefix c Hknown)
    as (group & shade & Hname & Hshade & Hg & Hs).
  destruct (occurrences _ _ _ _) as [|k]; cbn [suffixedName].
  - by apply (exportable_join _ group shade).
  - destruct (decimal_segment (Z.of_nat (S k))) as [Hk1 Hk2]; [lia|].
    apply (exportable_join _ (candidateName pattern customPrefix c)
             (ofInt (Z.of_nat (S k)))); [done..| |done].
    by apply hasHyphen_not_inherited, candidateName_hasHyphen.
Qed.

Lemma assignTokenNames_nonempty colors pattern customPrefix :
  pattern ∈ knownPatterns →
  Forall (fun c => tokenName c ≠ EmptyString)
    (assignTokenNames colors pattern customPrefix).
Proof.
  intros Hknown. eapply Forall_impl; [by apply assignTokenNames_exportable|].
  intros c [Hname _] Hempty. by rewrite Hempty in Hname.
Qed.

End Names.

(** C2. In one call of [assignTokenNames], the sample at position [i] with
    candidate name [name] is named after the number [k] of earlier samples
    with the same candidate name: [name] itself when there is none, and
    [name-k] when there are [k >= 1]; the suffixed name is not looked up
    again.  Every call starts from the empty registry. *)
Theorem assignTokenNames_collision_suffix
  (colors : list ExtractedColor) (pattern customPrefix : string)
  (i : nat) (c : ExtractedColor) :
  colors !! i = Some c →
  let name := candidateName pattern customPrefix c in
  let k := occurrences pattern customPrefix name (take i colors) in
  tokenName <$> assignTokenNames colors pattern customPrefix !! i
  = Some (suffixedName name k)
  ∧ (k = 0 → suffixedName name k = name)
  ∧ ((1 ≤ k)%nat → suffixedName name k = name +:+ "-" +:+ ofInt (Z.of_nat k))
  ∧ assignTokenNames colors pattern customPrefix
    = assignFrom ∅ pattern customPrefix colors.
Proof.
  intros Hi name k. split; [|split; [|split]].
  - by rewrite (assignTokenNames_lookup pattern customPrefix colors i c Hi).
  - by intros ->.
  - intros Hk. destruct k; [lia|done].
  - done.
Qed.

(** C8. A pattern that is none of the five known patterns matches no case
    of the switch: the candidate name of every color is the empty string.
    The registry then leaves the first color with the empty name and
    suffixes the following ones. *)
Theorem assignTokenNames_unknown_pattern (pattern customPrefix : string) :
  pattern ∉ knownPatterns →
  (∀ c, candidateName pattern customPrefix c = EmptyString)
  ∧ ∀ colors i c,
      colors !! i = Some c →
      tokenName <$> assignTokenNames colors pattern customPrefix !! i
      = Some (suffixedName EmptyString i).
Proof.
  intros Hunknown.
  assert (Hcand : ∀ c, candidateName pattern customPrefix c = EmptyString).
  { intros c. unfold candidateName.
    destruct (rgbToHsl _ _ _) as [[h s] l].
    repeat match goal with
           | |- context [String.eqb pattern ?p] =>
               let E := fresh in
               destruct (String.eqb_spec pattern p) as [E|_];
               [exfalso; apply Hunknown; rewrite E; set_solver|]
           end.
    done. }
  split; [done|].
  intros colors i c Hi.
  rewrite (assignTokenNames_lookup pattern customPrefix colors i c Hi).
  rewrite Hcand. unfold occurrences.
  assert (Hall : ∀ l : list ExtractedColor,
             filter (fun c' => candidateName pattern customPrefix c'
                               = EmptyString) l = l).
  { induction l as [|c' l IH]; [done|].
    rewrite filter_cons, decide_True by apply Hcand. by rewrite IH. }
  rewrite Hall, length_take. apply lookup_lt_Some in Hi.
  by replace (i `min` length colors) with i by lia.
Qed.

(** C9. [assignTokenNames] returns as many samples as it receives, in the
    same order, each with the [hex], [r], [g], [b], [a] and [source] of the
    input sample at the same position.  Its result depends on nothing but
    its arguments, and not on the token names the input carries: naming
    the output of a previous call again yields the same samples. *)
Theorem assignTokenNames_frame
  (colors : list ExtractedColor) (pattern customPrefix : string) :
  let named := assignTokenNames colors pattern customPrefix in
  length named = length colors
  ∧ (∀ i c, colors !! i = Some c →
       ∃ c', named !! i = Some c'
             ∧ hex c' = hex c ∧ r c' = r c ∧ g c' = g c ∧ b c' = b c
             ∧ a c' = a c ∧ source c' = source c)
  ∧ (∀ colors',
       Forall2 (fun c c' => ∃ name, c' = withTokenName c name) colors colors' →
       assignTokenNames colors' pattern customPrefix = named)
  ∧ assignTokenNames named pattern customPrefix = named.
Proof.
  intros named. split; [apply assignFrom_length|]. split; [|split].
  - intros i c Hi. eexists. split.
    + apply (assignTokenNames_lookup pattern customPrefix colors i c Hi).
    + done.
  - intros colors' Hren. by apply assignFrom_renamed.
  - apply assignFrom_renamed, assignFrom_renames.
Qed.

(** C1. The names of a batch are not always distinct.  Under the pattern
    [material] the fifty-first mid red is named [color-error-50], the name
    the pale red of shade 50 receives as its own candidate name: the two
    samples, of different hex values, leave [assignTokenNames] with the
    same token name. *)
Theorem assignTokenNames_duplicate_name :
  let samples := deduplicateColors (extractColorsFromNode manyReds) in
  let named := assignTokenNames samples "material" "color" in
  length samples = 52%nat
  ∧ NoDup (hex <$> samples)
  ∧ tokenName <$> named !! 50%nat = Some "color-error-50"
  ∧ tokenName <$> named !! 51%nat = Some "color-error-50"
  ∧ hex <$> named !! 50%nat = Some "#E63232"
  ∧ hex <$> named !! 51%nat = Some "#FFFAFA"
  ∧ ¬ NoDup (tokenName <$> named).
Proof.
  intros samples named.
  split; [by vm_compute|].
  split; [apply (bool_decide_unpack _); by vm_compute|].
  split; [by vm_compute|]. split; [by vm_compute|].
  split; [by vm_compute|]. split; [by vm_compute|].
  intros Hnd. apply (NoDup_lookup _ 50%nat 51%nat "color-error-50") in Hnd;
    [lia|by vm_compute..].
Qed.

(** ** The properties at concrete designs *)

(** The color (0.625, 0.75, 0): its hue is 70 degrees in exact
    arithmetic and the double just below 70 in the code, which names it
    yellow. *)
Lemma detectColorRole_spec_witness :
  isDouble (5 # 8) ∧ isDouble (3 # 4) ∧ isDouble 0
  ∧ (0 <= 5 # 8 <= 1)%Q ∧ (0 <= 3 # 4 <= 1)%Q ∧ (0 <= 0 <= 1)%Q
  ∧ bucketRole (rgbToHsl (5 # 8) (3 # 4) 0).1.1
    = Some (detectColorRole (5 # 8) (3 # 4) 0)
  ∧ ((rgbToHsl (5 # 8) (3 # 4) 0).1.1 < 70)%Q
  ∧ detectColorRole (5 # 8) (3 # 4) 0 = yellow.
Proof.
  assert (Dr : isDouble (5 # 8)) by (by vm_compute).
  assert (Dg : isDouble (3 # 4)) by (by vm_compute).
  assert (Db : isDouble 0) by (by vm_compute).
  assert (Hr : (0 <= 5 # 8 <= 1)%Q) by (split; lra).
  assert (Hg : (0 <= 3 # 4 <= 1)%Q) by (split; lra).
  assert (Hb : (0 <= 0 <= 1)%Q) by (split; lra).
  split; [done|]. split; [done|]. split; [done|].
  split; [done|]. split; [done|]. split; [done|].
  pose proof (detectColorRole_spec (5 # 8) (3 # 4) 0 Dr Dg Db Hr Hg Hb)
    as Hspec.
  destruct (rgbToHsl (5 # 8) (3 # 4) 0) as [[h s] l] eqn:Hhsl.
  destruct Hspec as (_ & _ & _ & _ & _ & _ & _ & _ & _ & Hrole & _).
  vm_compute in Hhsl. injection Hhsl as <- <- _.
  split; [|split; by vm_compute].
  apply Hrole; by vm_compute.
Defined.

(** The lightness 0.55: the product [(1 - l) * 10] is below 4.5 in exact
    arithmetic and is the double 4.5 in the code, which returns 500. *)
Lemma lightnessToShade_spec_witness :
  (0 <= lit (55 # 100))%Q ∧ (lit (55 # 100) <= 1)%Q
  ∧ lightnessToShade (lit (55 # 100))
    = shades !! Z.to_nat (shadeIndex (lit (55 # 100)))
  ∧ mul (sub 1 (lit (55 # 100))) 10 = (9 # 2)%Q
  ∧ ((1 - lit (55 # 100)) * 10 < 9 # 2)%Q
  ∧ lightnessToShade (lit (55 # 100)) = Some 500%Z.
Proof.
  assert (H0 : (0 <= lit (55 # 100))%Q) by (by vm_compute).
  assert (H1 : (lit (55 # 100) <= 1)%Q) by (by vm_compute).
  split; [done|]. split; [done|].
  split; [apply (lightnessToShade_spec (lit (55 # 100)) H0 H1)|].
  split; [|split]; by vm_compute.
Defined.

Lemma deduplicateColors_first_occurrences_witness :
  (threeBlues ++ threeBlues) !! 4%nat = Some (blueSample 254)
  ∧ ∃ j c', j < 4 ∧ (threeBlues ++ threeBlues) !! j = Some c'
            ∧ hex c' = hex (blueSample 254).
Proof.
  split; [done|].
  destruct (deduplicateColors_first_occurrences (threeBlues ++ threeBlues))
    as (_ & _ & _ & Hdrop).
  destruct (Hdrop 4%nat (blueSample 254) eq_refl) as [_ [Hearlier _]].
  apply Hearlier. intros Hfirst. apply Hfirst.
  apply (bool_decide_unpack _). by vm_compute.
Defined.

Lemma deduplicateColors_idempotent_witness :
  NoDup (hex <$> threeBlues) ∧ deduplicateColors threeBlues = threeBlues.
Proof.
  assert (Hnd : NoDup (hex <$> threeBlues))
    by (apply (bool_decide_unpack _); by vm_compute).
  split; [done|].
  apply (proj2 deduplicateColors_idempotent threeBlues Hnd).
Defined.

Lemma buildJson_spec_witness :
  let named := assignTokenNames threeBlues "tailwind" "color" in
  Forall exportable named
  ∧ ∃ doc, buildJson named "tailwind"
           = Json.stringify (Json.Obj [("colors", doc)])
           ∧ Json.member doc "blue" ≫= (fun o => Json.member o "500")
             = Some (Json.Str "#0000FF").
Proof.
  intros named.
  assert (Hnamed : Forall exportable named)
    by (apply (bool_decide_unpack _); by vm_compute).
  split; [done|].
  destruct (buildJson_spec named "tailwind" Hnamed) as (doc & Hdoc & Htw & _).
  exists doc. split; [done|].
  destruct (Htw eq_refl) as [_ Hfound].
  assert (Hdistinct : NoDup (tokenName <$> named))
    by (apply (bool_decide_unpack _); by vm_compute).
  apply (Hfound Hdistinct (withTokenName (blueSample 255) "blue-500")
           "blue" "500").
  - apply list_elem_of_lookup. exists 0%nat. by vm_compute.
  - done.
Defined.

Lemma assignTokenNames_collision_suffix_witness :
  threeBlues !! 2%nat = Some (blueSample 253)
  ∧ tokenName <$> assignTokenNames threeBlues "tailwind" "color" !! 2%nat
    = Some "blue-500-2".
Proof.
  split; [done|].
  rewrite (proj1 (assignTokenNames_collision_suffix
                    threeBlues "tailwind" "color" 2%nat (blueSample 253)
                    eq_refl)).
  by vm_compute.
Defined.

Lemma assignTokenNames_unknown_pattern_witness :
  "pastel" ∉ knownPatterns
  ∧ ∀ c, candidateName "pastel" "color" c = EmptyString.
Proof.
  assert (Hunknown : "pastel" ∉ knownPatterns)
    by (apply (bool_decide_unpack _); by vm_compute).
  split; [done|].
  apply (assignTokenNames_unknown_pattern "pastel" "color" Hunknown).
Defined.

Lemma assignTokenNames_frame_witness :
  threeBlues !! 1%nat = Some (blueSample 254)
  ∧ ∃ c', assignTokenNames threeBlues "antd" "color" !! 1%nat = Some c'
          ∧ hex c' = hex (blueSample 254)
          ∧ source c' = source (blueSample 254).
Proof.
  split; [done|].
  destruct (assignTokenNames_frame threeBlues "antd" "color")
    as (_ & Hsame & _).
  destruct (Hsame 1%nat (blueSample 254) eq_refl)
    as (c' & Hc' & Hhex & _ & _ & _ & _ & Hsrc).
  exists c'. split; [exact Hc'|]. split; [exact Hhex|exact Hsrc].
Defined.

Lemma text_node_fills_emitted_twice_witness :
  ∃ c0, extractPaints [solidPaint 0 0 1] fill !! 0%nat = Some c0
        ∧ hex c0 = "#0000FF"
        ∧ (∃ j, 0 < j
                ∧ extractColorsFromNode blueLabel !! 0%nat = Some c0
                ∧ extractColorsFromNode blueLabel !! j
                  = Some (retagged text c0))
        ∧ ∃ c, c ∈ deduplicateColors
                     ([] ++ extractColorsFromNode blueLabel ++ [])
               ∧ hex c = "#0000FF" ∧ source c = fill
               ∧ ∀ c', c' ∈ deduplicateColors
                              ([] ++ extractColorsFromNode blueLabel ++ []) →
                       hex c' = "#0000FF" → c' = c.
Proof.
  destruct (text_node_fills_emitted_twice
              [solidPaint 0 0 1] (Some [solidPaint 0 0 1]) None)
    as (_ & _ & _ & Htwice & Hkept).
  eexists. split; [reflexivity|]. split; [by vm_compute|].
  split; [apply (Htwice 0%nat _ eq_refl)|].
  destruct (Hkept [] [] (solidPaint 0 0 1) _ ltac:(apply list_elem_of_here)
              eq_refl) as (c & Hc & Hhex & Hone & Hfill).
  exists c. split; [exact Hc|]. split; [exact Hhex|].
  split; [apply Hfill, not_elem_of_nil|]. exact Hone.
Defined.

(** * Further properties of the code *)

Local Open Scope nat_scope.

(** ** The candidate name of each pattern *)

(** Evaluates the comparisons of two literal strings in the goal. *)
Ltac literal_patterns :=
  repeat match goal with
    | |- context [String.eqb ?p ?q] =>
        let v := eval vm_compute in (String.eqb p q) in
        change (String.eqb p q) with v
    end;
  cbv iota.

Section CandidateNames.

Implicit Types (c : ExtractedColor) (customPrefix : string).

Lemma shadeOf_elem c : ∃ shade, shadeOf c = Some shade ∧ shade ∈ shades.
Proof.
  unfold shadeOf, lightnessToShade, jsIndex. cbn [length shades].
  set (index := Z.max 0 (Z.min _ _)).
  assert (Hindex : (0 ≤ index ≤ 10)%Z) by (unfold index; lia).
  rewrite (proj2 (Z.ltb_ge _ 0)) by lia.
  destruct (lookup_lt_is_Some_2 shades (Z.to_nat index)) as [shade Hshade];
    [cbn; lia|].
  exists shade. split; [done|]. by eapply list_elem_of_lookup_2.
Qed.

Lemma shades_bounds shade : shade ∈ shades → (50 ≤ shade ≤ 950)%Z.
Proof.
  unfold shades. intros Hshade.
  repeat (apply elem_of_cons in Hshade as [->|Hshade]; [lia|]).
  by apply elem_of_nil in Hshade.
Qed.

Lemma levelOf_bounds c : (1 ≤ levelOf c ≤ 10)%Z.
Proof. unfold levelOf, lightnessToAntLevel. lia. Qed.

Lemma candidateName_material customPrefix c :
  candidateName "material" customPrefix c
  = if bool_decide (shadeOf c = Some 500%Z)
    then "color-" +:+ semanticMap (roleOf c)
    else "color-" +:+ semanticMap (roleOf c) +:+ "-"
         +:+ shadeString (shadeOf c).
Proof.
  unfold candidateName, shadeOf, roleOf, lightnessOf.
  by destruct (rgbToHsl _ _ _) as [[h s] l].
Qed.

Lemma candidateName_tailwind customPrefix c :
  candidateName "tailwind" customPrefix c
  = roleName (roleOf c) +:+ "-" +:+ shadeString (shadeOf c).
Proof.
  unfold candidateName, shadeOf, roleOf, lightnessOf.
  by destruct (rgbToHsl _ _ _) as [[h s] l].
Qed.

Lemma candidateName_antd customPrefix c :
  candidateName "antd" customPrefix c
  = semanticMapAnt (roleOf c) +:+ "-" +:+ ofInt (levelOf c).
Proof.
  unfold candidateName, levelOf, roleOf, lightnessOf.
  by destruct (rgbToHsl _ _ _) as [[h s] l].
Qed.

Lemma candidateName_wcag customPrefix c :
  candidateName "wcag" customPrefix c
  = "color-" +:+ semanticMapWcag (lightnessOf c) (roleOf c).
Proof.
  unfold candidateName, roleOf, lightnessOf.
  by destruct (rgbToHsl _ _ _) as [[h s] l].
Qed.

Lemma candidateName_custom customPrefix c :
  candidateName "custom" customPrefix c
  = effectivePrefix customPrefix +:+ "-" +:+ roleName (roleOf c) +:+ "-"
    +:+ shadeString (shadeOf c).
Proof.
  unfold candidateName, shadeOf, roleOf, lightnessOf, effectivePrefix.
  by destruct (rgbToHsl _ _ _) as [[h s] l].
Qed.

End CandidateNames.

(** ** Hex strings *)

Section HexStrings.

Local Open Scope Q_scope.

Lemma round_inject_Z (z : Z) : round (inject_Z z) = z.
Proof.
  destruct (round_bounds (inject_Z z) z z); [apply Qle_refl..|lia].
Qed.

Lemma round_Qeq x y : x == y → round x = round y.
Proof. unfold round. by intros ->. Qed.

(** Every integer from 0 to 255 is printed as two digits that read back as
    the integer. *)
Lemma printsChannel_byte (z : Z) : (0 ≤ z ≤ 255)%Z → printsChannel z = true.
Proof.
  intros Hz.
  assert (Hall : Forall (fun z => printsChannel z = true) (seqZ 0 256))
    by (apply (bool_decide_unpack _); by vm_compute).
  rewrite Forall_forall in Hall. apply Hall, elem_of_seqZ. lia.
Qed.

(** The scaled channel of a component between 0 and 1. *)
Lemma channel_byte (n : Q) :
  0 <= n <= 1 → (0 ≤ round (mul n 255) ≤ 255)%Z.
Proof.
  intros Hn.
  assert (E255 : rnd 255 = 255) by (by vm_compute).
  apply round_bounds; [change (inject_Z 0) with 0|
                       change (inject_Z 255) with 255].
  - unfold mul. rewrite <- rnd_0. apply rnd_le. lra.
  - apply Qle_trans with (rnd 255); [apply rnd_le; lra|].
    rewrite E255. lra.
Qed.

Lemma toHex_pair (n : Q) :
  0 <= n <= 1 →
  ∃ hi lo, toHex n = String hi (String lo EmptyString)
           ∧ hexPairValue (upperChar hi) (upperChar lo)
             = Some (round (mul n 255)).
Proof.
  intros Hn. unfold toHex.
  pose proof (channel_byte n Hn) as Hbyte.
  apply printsChannel_byte in Hbyte. unfold printsChannel in Hbyte.
  destruct (padStart2 _) as [|hi [|lo [|? ?]]]; try done.
  exists hi, lo. split; [done|]. by apply bool_decide_eq_true in Hbyte.
Qed.

(** The hex string of a color with components between 0 and 1 has seven
    characters and reads back as the rounded channels. *)
Lemma rgbToHex_channels (r g b : Q) :
  0 <= r <= 1 → 0 <= g <= 1 → 0 <= b <= 1 →
  String.length (rgbToHex r g b) = 7%nat
  ∧ decodeHex (rgbToHex r g b)
    = Some (round (mul r 255), round (mul g 255), round (mul b 255)).
Proof.
  intros Hr Hg Hb. unfold rgbToHex.
  destruct (toHex_pair r Hr) as (r1 & r0 & -> & Hrv).
  destruct (toHex_pair g Hg) as (g1 & g0 & -> & Hgv).
  destruct (toHex_pair b Hb) as (b1 & b0 & -> & Hbv).
  split; [done|].
  change (decodeHex _)
    with (match hexPairValue (upperChar r1) (upperChar r0),
                hexPairValue (upperChar g1) (upperChar g0),
                hexPairValue (upperChar b1) (upperChar b0) with
          | Some r, Some g, Some b => Some (r, g, b)
          | _, _, _ => None
          end).
  by rewrite Hrv, Hgv, Hbv.
Qed.

(** The double [z / 255] of an 8-bit channel lies between 0 and 1 and
    scales back to [z]. *)
Lemma channel_round_trip (z : Z) :
  (0 ≤ z ≤ 255)%Z →
  0 <= channel z <= 1 ∧ round (mul (channel z) 255) = z.
Proof.
  intros Hz.
  assert (Hall : forallb (fun z =>
            Qle_bool 0 (channel z) && Qle_bool (channel z) 1
            && (round (mul (channel z) 255) =? z)%Z) (seqZ 0 256) = true)
    by (by vm_compute).
  rewrite forallb_forall in Hall.
  specialize (Hall z). rewrite <- list_elem_of_In, elem_of_seqZ in Hall.
  specialize (Hall ltac:(lia)).
  apply andb_prop in Hall as [[H0 H1]%andb_prop Hround].
  apply Qle_bool_iff in H0, H1. apply Z.eqb_eq in Hround. done.
Qed.

End HexStrings.

(** X2. For components between 0 and 1, [rgbToHex] returns a string of the
    form [#RRGGBB] that reads back as the three channels, each the double
    product by 255 rounded to an integer: two colors get the same hex
    string exactly when their three channels round to the same
    integers. *)
Theorem rgbToHex_decode (r g b : Q) :
  (0 <= r <= 1)%Q → (0 <= g <= 1)%Q → (0 <= b <= 1)%Q →
  String.length (rgbToHex r g b) = 7
  ∧ decodeHex (rgbToHex r g b)
    = Some (round (mul r 255), round (mul g 255), round (mul b 255))
  ∧ (0 ≤ round (mul r 255) ≤ 255)%Z
  ∧ (0 ≤ round (mul g 255) ≤ 255)%Z
  ∧ (0 ≤ round (mul b 255) ≤ 255)%Z
  ∧ ∀ r' g' b' : Q,
      (0 <= r' <= 1)%Q → (0 <= g' <= 1)%Q → (0 <= b' <= 1)%Q →
      rgbToHex r g b = rgbToHex r' g' b'
      ↔ round (mul r 255) = round (mul r' 255)
        ∧ round (mul g 255) = round (mul g' 255)
        ∧ round (mul b 255) = round (mul b' 255).
Proof.
  intros Hr Hg Hb. destruct (rgbToHex_channels r g b Hr Hg Hb) as [Hlen Hdec].
  split; [done|]. split; [done|].
  split; [by apply channel_byte|]. split; [by apply channel_byte|].
  split; [by apply channel_byte|].
  intros r' g' b' Hr' Hg' Hb'.
  destruct (rgbToHex_channels r' g' b' Hr' Hg' Hb') as [_ Hdec']. split.
  - intros Heq. rewrite Heq, Hdec' in Hdec. by injection Hdec as -> -> ->.
  - intros (Hrr & Hgg & Hbb). unfold rgbToHex, toHex.
    by rewrite Hrr, Hgg, Hbb.
Qed.

(** X3. A channel that is an exact multiple of 1/255 is printed as its two
    hexadecimal digits: the hex string of [(i/255, j/255, k/255)] reads
    back as [(i, j, k)], for the doubles [i / 255], [j / 255] and [k / 255]
    of the code as for the exact fractions, so distinct 8-bit colors have
    distinct hex strings. *)
Theorem rgbToHex_round_trip (i j k : Z) :
  (0 ≤ i ≤ 255)%Z → (0 ≤ j ≤ 255)%Z → (0 ≤ k ≤ 255)%Z →
  decodeHex (rgbToHex (i # 255) (j # 255) (k # 255)) = Some (i, j, k)
  ∧ decodeHex (rgbToHex (channel i) (channel j) (channel k)) = Some (i, j, k).
Proof.
  assert (Hround : ∀ z : Z, (0 ≤ z ≤ 255)%Z → round (mul (z # 255) 255) = z).
  { intros z Hz. rewrite <- (round_inject_Z z) at 2. apply round_Qeq.
    unfold mul. rewrite (rnd_Qeq ((z # 255) * 255) (inject_Z z)).
    - apply isDouble_Z. change (2 ^ 53)%Z with 9007199254740992%Z. lia.
    - unfold Qeq, inject_Z. cbn. lia. }
  assert (Hunit : ∀ z : Z, (0 ≤ z ≤ 255)%Z → (0 <= z # 255 <= 1)%Q).
  { intros z Hz. unfold Qle. cbn. lia. }
  intros Hi Hj Hk. split.
  - destruct (rgbToHex_channels (i # 255) (j # 255) (k # 255)) as [_ Hdec];
      [by apply Hunit..|].
    by rewrite Hdec, !Hround.
  - destruct (channel_round_trip i Hi) as [Hi01 Hir].
    destruct (channel_round_trip j Hj) as [Hj01 Hjr].
    destruct (channel_round_trip k Hk) as [Hk01 Hkr].
    destruct (rgbToHex_channels (channel i) (channel j) (channel k))
      as [_ Hdec]; [done..|].
    by rewrite Hdec, Hir, Hjr, Hkr.
Qed.

(** ** Deduplication across sequences *)

Section DedupComposition.

Implicit Types (colors : list ExtractedColor) (seen : gset string).

(** Samples already seen are filtered out of the result. *)
Lemma dedupFrom_union seen seen' colors :
  dedupFrom (seen ∪ seen') colors
  = filter (fun c => hex c ∉ seen') (dedupFrom seen colors).
Proof.
  revert seen. induction colors as [|c rest IH]; intros seen; [done|].
  cbn [dedupFrom].
  assert (Hassoc : ({[hex c]} ∪ seen) ∪ seen'
                   = {[hex c]} ∪ (seen ∪ seen')).
  { apply set_eq. intros x. rewrite !elem_of_union. tauto. }
  destruct (decide (hex c ∈ seen)) as [Hin|Hout].
  - rewrite decide_True by (apply elem_of_union; by left). apply IH.
  - destruct (decide (hex c ∈ seen')) as [Hin'|Hout'].
    + rewrite decide_True by (apply elem_of_union; by right).
      rewrite filter_cons_False by tauto.
      rewrite <- IH, Hassoc. f_equal. apply set_eq. intros x.
      rewrite !elem_of_union, elem_of_singleton.
      split; [tauto|]. intros [->|?]; tauto.
    + rewrite decide_False by (rewrite elem_of_union; tauto).
      rewrite filter_cons_True by done. by rewrite <- IH, Hassoc.
Qed.

Lemma dedupFrom_app seen colors1 colors2 :
  dedupFrom seen (colors1 ++ colors2)
  = dedupFrom seen colors1
    ++ dedupFrom (seen ∪ list_to_set (hex <$> colors1)) colors2.
Proof.
  revert seen. induction colors1 as [|c rest IH]; intros seen.
  - cbn. by rewrite (right_id_L ∅ (∪)).
  - cbn [app dedupFrom]. rewrite fmap_cons. cbn [list_to_set].
    destruct (decide (hex c ∈ seen)) as [Hin|Hout].
    + rewrite IH. do 2 f_equal. apply set_eq. intros x.
      rewrite !elem_of_union, elem_of_singleton.
      split; [tauto|]. intros [?|[->|?]]; tauto.
    + cbn [app]. rewrite IH. do 3 f_equal. apply set_eq. intros x.
      rewrite !elem_of_union, elem_of_singleton. tauto.
Qed.

End DedupComposition.

(** X8. Deduplication loses no hex value and keeps none twice: the hex
    values of the result are those of the input, and the result has as
    many samples as the input has distinct hex values. *)
Theorem deduplicateColors_hex_values (colors : list ExtractedColor) :
  (∀ h, h ∈ hex <$> deduplicateColors colors ↔ h ∈ hex <$> colors)
  ∧ length (deduplicateColors colors)
    = size (list_to_set (hex <$> colors) : gset string)
  ∧ length (deduplicateColors colors) ≤ length colors.
Proof.
  assert (Hsame : ∀ h, h ∈ hex <$> deduplicateColors colors
                       ↔ h ∈ hex <$> colors).
  { intros h. unfold deduplicateColors. rewrite dedupFrom_hexes.
    rewrite elem_of_empty. tauto. }
  split; [done|]. split.
  - rewrite <- (length_fmap hex).
    rewrite <- (size_list_to_set (C:=gset string))
      by apply dedupFrom_NoDup.
    f_equal. apply set_eq. intros h. by rewrite !elem_of_list_to_set.
  - apply sublist_length, dedupFrom_sublist.
Qed.

(** X9. Deduplicating two sequences one after the other: the result for
    the first sequence, followed by the result for the second one without
    the hex values of the first.  This is how the samples of the nodes of
    a selection combine. *)
Theorem deduplicateColors_app (colors1 colors2 : list ExtractedColor) :
  deduplicateColors (colors1 ++ colors2)
  = deduplicateColors colors1
    ++ filter (fun c => hex c ∉ hex <$> colors1) (deduplicateColors colors2).
Proof.
  unfold deduplicateColors.
  rewrite dedupFrom_app, (left_id_L ∅ (∪)). f_equal.
  rewrite <- (left_id_L ∅ (∪) (list_to_set _)), dedupFrom_union.
  apply list_filter_iff. intros c. by rewrite elem_of_list_to_set.
Qed.

(** ** Samples and paints *)

Section Provenance.

Implicit Types (p : Paint) (c : ExtractedColor) (node : SceneNode).

Lemma extractPaint_sampleOf p src c :
  extractPaint p src = Some c → solidVisible p ∧ sampleOf p c.
Proof.
  intros Hc. split.
  - apply (extractPaint_solidVisible p src). by rewrite Hc.
  - unfold extractPaint in Hc. destruct (negb _ || _); [done|].
    unfold sampleOf. destruct (paint_color p) as [[pr pg] pb].
    by injection Hc as <-.
Qed.

Lemma elem_of_concat {A} (x : A) (ls : list (list A)) :
  x ∈ List.concat ls ↔ ∃ l, l ∈ ls ∧ x ∈ l.
Proof.
  rewrite list_elem_of_In, in_concat.
  by setoid_rewrite list_elem_of_In.
Qed.

Lemma extractColorsFromNode_unfold type fills strokes children :
  extractColorsFromNode (Node type fills strokes children)
  = match fills with Some fs => extractPaints fs fill | None => [] end
    ++ strokeSamples strokes
    ++ (if String.eqb type "TEXT"
        then match fills with
             | Some fs => extractPaints fs text
             | None => []
             end
        else [])
    ++ childSamples children.
Proof. done. Qed.

(** Every sample comes from a solid, visible paint of the tree. *)
Lemma extractColorsFromNode_sound node c :
  c ∈ extractColorsFromNode node →
  ∃ p, p ∈ paintsOf node ∧ solidVisible p ∧ sampleOf p c.
Proof.
  revert c.
  induction node as [type fills strokes children IH] using SceneNode_ind.
  intros c. rewrite extractColorsFromNode_unfold. cbn [paintsOf].
  assert (Hown : ∀ ps src, c ∈ extractPaints ps src →
            ∃ p, p ∈ ps ∧ solidVisible p ∧ sampleOf p c).
  { intros ps src (p & Hp & Hc)%extractPaints_elem.
    exists p. split; [done|]. by eapply extractPaint_sampleOf. }
  rewrite !elem_of_app. intros [Hc|[Hc|[Hc|Hc]]].
  - destruct fills as [fs|]; [|by apply elem_of_nil in Hc].
    destruct (Hown _ _ Hc) as (p & Hp & Hsv). exists p.
    split; [|done]. rewrite !elem_of_app. by left.
  - destruct strokes as [ss|]; [|by apply elem_of_nil in Hc].
    destruct (Hown _ _ Hc) as (p & Hp & Hsv). exists p.
    split; [|done]. rewrite !elem_of_app. right. by left.
  - destruct (String.eqb type "TEXT"), fills as [fs|];
      try (by apply elem_of_nil in Hc).
    destruct (Hown _ _ Hc) as (p & Hp & Hsv). exists p.
    split; [|done]. rewrite !elem_of_app. by left.
  - destruct children as [cs|]; [|by apply elem_of_nil in Hc].
    cbn [childSamples default] in Hc, IH.
    apply elem_of_concat in Hc as (l & Hl & Hc).
    apply list_elem_of_In, in_map_iff in Hl as (child & <- & Hchild).
    apply list_elem_of_In in Hchild. rewrite Forall_forall in IH.
    destruct (IH child Hchild c Hc) as (p & Hp & Hsv). exists p.
    split; [|done]. rewrite !elem_of_app. right. right.
    apply elem_of_concat. exists (paintsOf child). split; [|done].
    apply list_elem_of_In, in_map. by apply list_elem_of_In.
Qed.

(** Every solid, visible paint of the tree yields a sample. *)
Lemma extractColorsFromNode_complete node p :
  p ∈ paintsOf node → solidVisible p →
  ∃ c, c ∈ extractColorsFromNode node ∧ sampleOf p c.
Proof.
  induction node as [type fills strokes children IH] using SceneNode_ind.
  rewrite extractColorsFromNode_unfold. cbn [paintsOf].
  intros Hp Hsv.
  assert (Hown : ∀ ps src, p ∈ ps →
            ∃ c, c ∈ extractPaints ps src ∧ sampleOf p c).
  { intros ps src Hps.
    destruct (proj1 (extractPaint_solidVisible p src) Hsv) as [c Hc].
    exists c. split; [apply extractPaints_elem; eauto|].
    by eapply extractPaint_sampleOf. }
  rewrite !elem_of_app in Hp. destruct Hp as [Hp|[Hp|Hp]].
  - destruct fills as [fs|]; [|by apply elem_of_nil in Hp].
    destruct (Hown fs fill Hp) as (c & Hc & Hs). exists c.
    split; [|done]. rewrite !elem_of_app. by left.
  - destruct strokes as [ss|]; [|by apply elem_of_nil in Hp].
    destruct (Hown ss stroke Hp) as (c & Hc & Hs). exists c.
    split; [|done]. rewrite !elem_of_app. right. by left.
  - destruct children as [cs|]; [|by apply elem_of_nil in Hp].
    cbn [default] in IH.
    apply elem_of_concat in Hp as (l & Hl & Hp).
    apply list_elem_of_In, in_map_iff in Hl as (child & <- & Hchild).
    apply list_elem_of_In in Hchild. rewrite Forall_forall in IH.
    destruct (IH child Hchild Hp Hsv) as (c & Hc & Hs). exists c.
    split; [|done]. rewrite !elem_of_app. right. right. right.
    apply elem_of_concat. exists (extractColorsFromNode child).
    split; [|done]. apply list_elem_of_In, in_map. by apply list_elem_of_In.
Qed.

End Provenance.

(** X7. The samples of a tree are exactly the samples of its solid, visible
    paints: every sample carries the components of such a paint of the
    tree, its opacity (1 when absent), the hex string of its own
    components and an empty token name; and every such paint, at any
    depth, yields a sample.  Paints of another kind and hidden paints
    yield nothing. *)
Theorem extractColorsFromNode_paints (node : SceneNode) :
  (∀ c, c ∈ extractColorsFromNode node →
        ∃ p, p ∈ paintsOf node ∧ solidVisible p ∧ sampleOf p c)
  ∧ (∀ p, p ∈ paintsOf node → solidVisible p →
          ∃ c, c ∈ extractColorsFromNode node ∧ sampleOf p c)
  ∧ ((∀ p, p ∈ paintsOf node → ¬ solidVisible p) →
     extractColorsFromNode node = []).
Proof.
  split; [apply extractColorsFromNode_sound|].
  split; [apply extractColorsFromNode_complete|].
  intros Hnone. destruct (extractColorsFromNode node) as [|c rest] eqn:Hc;
    [done|].
  destruct (extractColorsFromNode_sound node c) as (p & Hp & Hsv & _).
  - rewrite Hc. by left.
  - by destruct (Hnone p Hp).
Qed.

(** ** Lightness, shades and levels *)

Section Lightness.

Local Open Scope Q_scope.

Lemma round_le x y : x <= y → (round x ≤ round y)%Z.
Proof. intros Hxy. unfold round. apply Qfloor_resp_le. lra. Qed.

(** The list of shades is increasing. *)
Lemma shades_increasing (i j : nat) (si sj : Z) :
  (i ≤ j)%nat → shades !! i = Some si → shades !! j = Some sj → (si ≤ sj)%Z.
Proof.
  intros Hij Hi Hj.
  apply lookup_lt_Some in Hj as Hlt. cbn [length shades] in Hlt.
  assert (Hall : forallb (fun j => forallb (fun i =>
            match shades !! i, shades !! j with
            | Some si, Some sj => (si <=? sj)%Z
            | _, _ => true
            end) (seq 0 (S j))) (seq 0 11) = true) by (by vm_compute).
  rewrite forallb_forall in Hall.
  specialize (Hall j ltac:(apply in_seq; lia)).
  rewrite forallb_forall in Hall.
  specialize (Hall i ltac:(apply in_seq; lia)).
  rewrite Hi, Hj in Hall. by apply Z.leb_le.
Qed.

(** The result of [rgbToHsl] when the largest and the smallest components
    are equal. *)
Lemma rgbToHsl_achromatic r g b :
  eqb (max3 r g b) (min3 r g b) = true →
  rgbToHsl r g b = (0, 0, div (add (max3 r g b) (min3 r g b)) 2).
Proof. intros Heq. unfold rgbToHsl. by rewrite Heq. Qed.

(** The lightness, whatever the branch taken. *)
Lemma rgbToHsl_lightness r g b :
  (rgbToHsl r g b).2 = div (add (max3 r g b) (min3 r g b)) 2.
Proof. unfold rgbToHsl. cbv zeta. by destruct (negb _). Qed.

(** The mean of two doubles, as the code computes it, lies between
    them. *)
Lemma mean_between lo hi :
  isDouble lo → isDouble hi → lo <= hi →
  lo <= div (add hi lo) 2 ∧ div (add hi lo) 2 <= hi.
Proof.
  intros Dlo Dhi Hle.
  apply isDouble_twice in Dlo as Dlo2. apply isDouble_twice in Dhi as Dhi2.
  unfold isDouble in *.
  assert (Hsum : 2 * lo <= add hi lo ∧ add hi lo <= 2 * hi).
  { split.
    - rewrite <- Dlo2. apply rnd_le. lra.
    - rewrite <- Dhi2. apply rnd_le. lra. }
  split.
  - rewrite <- Dlo at 1. apply rnd_le, Qle_shift_div_l; lra.
  - rewrite <- Dhi at 2. apply rnd_le, Qle_shift_div_r; lra.
Qed.

(** The two quantizers without their clamps. *)
Lemma lightnessToShade_index l :
  lightnessToShade l
  = shades !! Z.to_nat (Z.max 0 (Z.min 10 (round (mul (sub 1 l) 10)))).
Proof.
  unfold lightnessToShade, jsIndex. cbn [length shades].
  change (inject_Z (Z.of_nat 11 - 1)) with 10.
  change (Z.of_nat 11 - 1)%Z with 10%Z.
  by rewrite (proj2 (Z.ltb_ge _ 0)) by lia.
Qed.

(** The scaled darkness never increases with the lightness. *)
Lemma darkness_antitone l1 l2 k :
  0 <= k → l1 <= l2 →
  (round (mul (sub 1 l2) k) ≤ round (mul (sub 1 l1) k))%Z.
Proof.
  intros Hk Hl. apply round_le, mul_le_r; [done|]. apply sub_le; lra.
Qed.

End Lightness.

(** X4. A color whose three components are equal has hue 0, saturation 0
    and its component as lightness, and its role is gray. *)
Theorem equal_components_gray (r g b : Q) :
  (r == g)%Q → (g == b)%Q →
  let '(h, s, l) := rgbToHsl r g b in
  (h == 0)%Q ∧ (s == 0)%Q ∧ (isDouble r → l == r)%Q
  ∧ detectColorRole r g b = gray.
Proof.
  intros Hrg Hgb.
  destruct (max3_spec r g b) as (_ & _ & _ & Hmax).
  destruct (min3_spec r g b) as (_ & _ & _ & Hmin).
  assert (Hmx : (max3 r g b == r)%Q)
    by (destruct Hmax as [->|[->| ->]]; lra).
  assert (Hmn : (min3 r g b == r)%Q)
    by (destruct Hmin as [->|[->| ->]]; lra).
  assert (Heq : eqb (max3 r g b) (min3 r g b) = true).
  { destruct (eqb_spec (max3 r g b) (min3 r g b)) as [|Hne]; [done|].
    destruct Hne. lra. }
  unfold detectColorRole. rewrite (rgbToHsl_achromatic r g b Heq).
  split; [lra|]. split; [lra|]. split; [|by vm_compute].
  intros Dr. apply isDouble_twice in Dr as Dr2. unfold isDouble in Dr, Dr2.
  unfold div, add.
  rewrite (rnd_Qeq (max3 r g b + min3 r g b) (2 * r)) by lra.
  rewrite (rnd_Qeq (rnd (2 * r) / 2) r); [done|].
  rewrite Dr2. field.
Qed.

(** X5. For double components between 0 and 1 the lightness lies between
    the smallest and the largest component, hence between 0 and 1, and the
    clamps of the two quantizers never act: the shade is the element at
    index [round((1 - l) * 10)] and the level is [round((1 - l) * 9) + 1],
    the differences and the products being those of doubles. *)
Theorem lightness_in_range (r g b : Q) :
  isDouble r → isDouble g → isDouble b →
  (0 <= r <= 1)%Q → (0 <= g <= 1)%Q → (0 <= b <= 1)%Q →
  let l := (rgbToHsl r g b).2 in
  (min3 r g b <= l)%Q ∧ (l <= max3 r g b)%Q ∧ (0 <= l)%Q ∧ (l <= 1)%Q
  ∧ (0 ≤ round (mul (sub 1 l) 10) ≤ 10)%Z
  ∧ lightnessToShade l = shades !! Z.to_nat (round (mul (sub 1 l) 10))
  ∧ (0 ≤ round (mul (sub 1 l) 9) ≤ 9)%Z
  ∧ lightnessToAntLevel l = (round (mul (sub 1 l) 9) + 1)%Z.
Proof.
  intros Dr Dg Db Hr Hg Hb l.
  destruct (max3_spec r g b) as (Hr1 & Hg1 & Hb1 & Hmax).
  destruct (min3_spec r g b) as (Hr0 & Hg0 & Hb0 & Hmin).
  assert (Hmx : (max3 r g b <= 1)%Q)
    by (destruct Hmax as [->|[->| ->]]; lra).
  assert (Hmn : (0 <= min3 r g b)%Q)
    by (destruct Hmin as [->|[->| ->]]; lra).
  destruct (mean_between (min3 r g b) (max3 r g b)) as [Hlo Hhi];
    [by apply isDouble_min3|by apply isDouble_max3|lra|].
  rewrite <- (rgbToHsl_lightness r g b) in Hlo, Hhi. fold l in Hlo, Hhi.
  split; [done|]. split; [done|]. split; [lra|]. split; [lra|].
  destruct (darkness_product l 10) as (H10a & H10b & _);
    [lra|lra|lra|lra|by vm_compute|].
  destruct (darkness_product l 9) as (H9a & H9b & _);
    [lra|lra|lra|lra|by vm_compute|].
  assert (H10 : (0 ≤ round (mul (sub 1 l) 10) ≤ 10)%Z).
  { apply round_bounds; [change (inject_Z 0) with 0%Q|
                         change (inject_Z 10) with 10%Q]; done. }
  assert (H9 : (0 ≤ round (mul (sub 1 l) 9) ≤ 9)%Z).
  { apply round_bounds; [change (inject_Z 0) with 0%Q|
                         change (inject_Z 9) with 9%Q]; done. }
  split; [done|]. split; [|split; [done|]].
  - rewrite lightnessToShade_index. f_equal. lia.
  - unfold lightnessToAntLevel. lia.
Qed.

(** X6. Both quantizers are defined for every number and never increase
    with the lightness: a lighter color never gets a higher shade or
    level.  At lightness 1 and above they return shade 50 and level 1, at
    lightness 0 and below shade 950 and level 10. *)
Theorem quantizers_antitone (l1 l2 : Q) :
  (l1 <= l2)%Q →
  (∃ s1 s2, lightnessToShade l1 = Some s1 ∧ lightnessToShade l2 = Some s2
            ∧ (s2 ≤ s1)%Z)
  ∧ (1 ≤ lightnessToAntLevel l2 ≤ lightnessToAntLevel l1)%Z
  ∧ (lightnessToAntLevel l1 ≤ 10)%Z
  ∧ ((1 <= l1)%Q →
     lightnessToShade l1 = Some 50%Z ∧ lightnessToAntLevel l1 = 1%Z)
  ∧ ((l2 <= 0)%Q →
     lightnessToShade l2 = Some 950%Z ∧ lightnessToAntLevel l2 = 10%Z).
Proof.
  intros Hl.
  pose proof (darkness_antitone l1 l2 10 ltac:(lra) Hl) as H10.
  pose proof (darkness_antitone l1 l2 9 ltac:(lra) Hl) as H9.
  assert (Hdark : ∀ l k : Q, (1 <= l)%Q → (0 <= k)%Q →
            (round (mul (sub 1 l) k) ≤ 0)%Z).
  { intros l k H1 Hk. rewrite <- (round_inject_Z 0). apply round_le.
    change (inject_Z 0) with 0%Q. unfold mul. rewrite <- rnd_0.
    apply rnd_le.
    assert (Hs : (sub 1 l <= 0)%Q) by (apply sub_nonpos; lra).
    assert (Hp : (sub 1 l * k <= 0 * k)%Q)
      by (by apply Qmult_le_compat_r).
    lra. }
  assert (Hlight : ∀ l k : Q, (l <= 0)%Q → (0 <= k)%Q → isDouble k →
            (round k ≤ round (mul (sub 1 l) k))%Z).
  { intros l k H0 Hk Dk. apply round_le. unfold isDouble in Dk.
    rewrite <- Dk at 1. apply rnd_le.
    assert (Hs : (1 <= sub 1 l)%Q).
    { unfold sub. rewrite <- rnd_1 at 1. apply rnd_le. lra. }
    assert (Hp : (1 * k <= sub 1 l * k)%Q)
      by (by apply Qmult_le_compat_r).
    lra. }
  split; [|split; [|split; [|split]]].
  - rewrite !lightnessToShade_index.
    set (i1 := Z.to_nat (Z.max 0 (Z.min 10 (round (mul (sub 1 l1) 10))))).
    set (i2 := Z.to_nat (Z.max 0 (Z.min 10 (round (mul (sub 1 l2) 10))))).
    destruct (lookup_lt_is_Some_2 shades i1) as [s1 Hs1];
      [cbn; unfold i1; lia|].
    destruct (lookup_lt_is_Some_2 shades i2) as [s2 Hs2];
      [cbn; unfold i2; lia|].
    exists s1, s2. split; [done|]. split; [done|].
    apply (shades_increasing i2 i1); [unfold i1, i2; lia|done..].
  - unfold lightnessToAntLevel. lia.
  - unfold lightnessToAntLevel. lia.
  - intros H1.
    pose proof (Hdark l1 10%Q H1 ltac:(lra)).
    pose proof (Hdark l1 9%Q H1 ltac:(lra)).
    split.
    + rewrite lightnessToShade_index. by replace (Z.max 0 _) with 0%Z by lia.
    + unfold lightnessToAntLevel. lia.
  - intros H0.
    pose proof (Hlight l2 10%Q H0 ltac:(lra) ltac:(by vm_compute)) as H10'.
    pose proof (Hlight l2 9%Q H0 ltac:(lra) ltac:(by vm_compute)) as H9'.
    change (round 10) with 10%Z in H10'. change (round 9) with 9%Z in H9'.
    split.
    + rewrite lightnessToShade_index. by replace (Z.max 0 _) with 10%Z by lia.
    + unfold lightnessToAntLevel. lia.
Qed.

(** ** Distinct names *)

Section DistinctNames.

Variables pattern customPrefix : string.

Implicit Types (c : ExtractedColor) (colors : list ExtractedColor).

Local Abbreviation candidate := (candidateName pattern customPrefix).
Local Abbreviation count := (occurrences pattern customPrefix).

Lemma roleName_no_hyphen role : hasHyphen (roleName role) = false.
Proof. by destruct role. Qed.

Lemma ofInt_nat_inj (k k' : nat) :
  ofInt (Z.of_nat k) = ofInt (Z.of_nat k') → k = k'.
Proof. intros Hk%(inj pretty). lia. Qed.

Lemma ofInt_not_word n (word : string) :
  (0 ≤ n)%Z → isDigits word = false → ofInt n ≠ word.
Proof. intros Hn%ofInt_digits Hword Heq. congruence. Qed.

Lemma occurrences_le name colors : count name colors ≤ length colors.
Proof. apply length_filter. Qed.

(** A later position has seen the candidate of an earlier one once more. *)
Lemma occurrences_take_lt colors i j c :
  i < j → colors !! i = Some c →
  count (candidate c) (take i colors) < count (candidate c) (take j colors).
Proof.
  intros Hij Hi.
  assert (Hsplit : take j colors
                   = take i colors ++ c :: drop (S i) (take j colors)).
  { rewrite <- (take_drop i (take j colors)) at 1.
    rewrite take_take, Nat.min_l by lia. f_equal.
    apply drop_S. by rewrite lookup_take_lt. }
  rewrite Hsplit. unfold occurrences.
  rewrite filter_app, filter_cons, decide_True, length_app by done.
  cbn [length]. lia.
Qed.

(** No candidate name is another candidate name followed by a counter:
    always under the other patterns, and for counters below fifty under
    [material]. *)
Lemma candidateName_no_clash c c' (k : nat) :
  1 ≤ k → collisionFree pattern (k + 2) →
  candidate c ≠ candidate c' +:+ "-" +:+ ofInt (Z.of_nat k).
Proof.
  intros Hk Hfree Heq.
  assert (Hknown : pattern ∈ knownPatterns).
  { destruct Hfree as [Hin|[-> _]]; [|literal_key].
    repeat (apply elem_of_cons in Hin as [->|Hin]; [literal_key|]).
    by apply elem_of_nil in Hin. }
  pose proof (candidateName_hasHyphen pattern customPrefix c' Hknown) as Hc'.
  assert (Hsplit : splitLastHyphen (candidate c)
                   = Some (candidate c', ofInt (Z.of_nat k))).
  { rewrite Heq. apply splitLastHyphen_app, isDigits_no_hyphen, ofInt_digits.
    lia. }
  clear Heq. destruct (shadeOf_elem c) as (shade & Hshade & Hin).
  apply shades_bounds in Hin.
  assert (Hdigits : hasHyphen (ofInt shade) = false)
    by (apply isDigits_no_hyphen, ofInt_digits; lia).
  destruct Hfree as [Hpattern|[-> Hbound]].
  - rewrite !elem_of_cons in Hpattern.
    destruct Hpattern as [->|[->|[->|[->|[]%elem_of_nil]]]].
    + rewrite (candidateName_tailwind customPrefix c), Hshade in Hsplit.
      rewrite splitLastHyphen_app in Hsplit by done.
      apply (inj Some), pair_equal_spec in Hsplit as [Hrole _].
      rewrite <- Hrole in Hc'.
      by rewrite roleName_no_hyphen in Hc'.
    + rewrite (candidateName_antd customPrefix c) in Hsplit.
      rewrite splitLastHyphen_app in Hsplit
        by (apply isDigits_no_hyphen, ofInt_digits;
            pose proof (levelOf_bounds c); lia).
      apply (inj Some), pair_equal_spec in Hsplit as [Hrole _].
      rewrite <- Hrole in Hc'.
      by destruct (roleOf c).
    + rewrite (candidateName_wcag customPrefix c) in Hsplit.
      assert (Hword : ∃ group word,
                "color-" +:+ semanticMapWcag (lightnessOf c) (roleOf c)
                = group +:+ "-" +:+ word
                ∧ hasHyphen word = false ∧ isDigits word = false).
      { destruct (roleOf c); cbn [semanticMapWcag];
          try (by eexists "color", _).
        destruct (gtb _ _); by eexists "color-neutral", _. }
      destruct Hword as (group & word & Hname & Hword1 & Hword2).
      rewrite Hname, splitLastHyphen_app in Hsplit by done.
      injection Hsplit as _ Hsuffix.
      by apply (ofInt_not_word (Z.of_nat k) word); [lia|..].
    + rewrite (candidateName_custom customPrefix c), Hshade in Hsplit.
      cbn [shadeString] in Hsplit.
      rewrite <- (append_assoc _ "-" (roleName _ +:+ _)),
        <- (append_assoc _ (roleName _) ("-" +:+ _)),
        (append_assoc _ "-" (roleName _)) in Hsplit.
      rewrite splitLastHyphen_app in Hsplit by done.
      injection Hsplit as Hgroup _.
      rewrite (candidateName_custom customPrefix c') in Hgroup.
      apply (inj (String.app _)), (inj (String.app _)) in Hgroup.
      apply (f_equal hasHyphen) in Hgroup.
      rewrite roleName_no_hyphen, !hasHyphen_app in Hgroup.
      by rewrite orb_true_r in Hgroup.
  - rewrite (candidateName_material customPrefix c), Hshade in Hsplit.
    case_bool_decide as H500.
    + assert (Hword : hasHyphen (semanticMap (roleOf c)) = false
                      ∧ isDigits (semanticMap (roleOf c)) = false)
        by (by destruct (roleOf c)).
      change ("color-" +:+ semanticMap (roleOf c))
        with ("color" +:+ "-" +:+ semanticMap (roleOf c)) in Hsplit.
      rewrite splitLastHyphen_app in Hsplit by apply Hword.
      injection Hsplit as _ Hsuffix.
      by apply (ofInt_not_word (Z.of_nat k) (semanticMap (roleOf c)));
        [lia|apply Hword|].
    + cbn [shadeString] in Hsplit.
      rewrite <- (append_assoc "color-" _ ("-" +:+ _)) in Hsplit.
      rewrite splitLastHyphen_app in Hsplit by done.
      injection Hsplit as _ Hsuffix.
      apply (inj pretty) in Hsuffix. lia.
Qed.

Lemma collisionFree_le (n m : nat) :
  collisionFree pattern n → m ≤ n → collisionFree pattern m.
Proof. intros [?|[? ?]] ?; [by left|right; split; [done|lia]]. Qed.

Lemma append_nil_r (s : string) : s +:+ EmptyString = s.
Proof.
  induction s as [|c0 s IH]; [done|].
  change (String c0 (s +:+ EmptyString) = String c0 s). by rewrite IH.
Qed.

Lemma append_hyphen_ne (s t : string) : s ≠ s +:+ "-" +:+ t.
Proof.
  intros Heq. rewrite <- (append_nil_r s) in Heq at 1.
  by apply (inj (String.app _)) in Heq.
Qed.

(** A position before [j] with another candidate leaves at most [j - 1]
    occurrences of [name] before [j]. *)
Lemma occurrences_take_other colors i j c name :
  i < j → colors !! i = Some c → candidate c ≠ name →
  count name (take j colors) + 1 ≤ j.
Proof.
  intros Hij Hi Hother.
  assert (Hsplit : take j colors
                   = take i colors ++ c :: drop (S i) (take j colors)).
  { rewrite <- (take_drop i (take j colors)) at 1.
    rewrite take_take, Nat.min_l by lia. f_equal.
    apply drop_S. by rewrite lookup_take_lt. }
  rewrite Hsplit. unfold occurrences.
  rewrite filter_app, filter_cons, decide_False, length_app by done.
  pose proof (length_filter (fun c' => candidate c' = name) (take i colors)).
  pose proof (length_filter (fun c' => candidate c' = name)
                (drop (S i) (take j colors))).
  rewrite length_take in *. rewrite length_drop, length_take in *. lia.
Qed.

(** The names given to two positions of a batch differ. *)
Lemma suffixedName_differ colors i j ci cj :
  collisionFree pattern (length colors) →
  i < j → colors !! i = Some ci → colors !! j = Some cj →
  suffixedName (candidate ci) (count (candidate ci) (take i colors))
  ≠ suffixedName (candidate cj) (count (candidate cj) (take j colors)).
Proof.
  intros Hfree Hij Hi Hj.
  pose proof (occurrences_take_lt colors i j ci Hij Hi) as Hlt.
  pose proof (occurrences_le (candidate ci) (take i colors)) as Hki.
  rewrite length_take in Hki.
  apply lookup_lt_Some in Hi as Hilt. apply lookup_lt_Some in Hj as Hjlt.
  assert (Hsegment : ∀ k : nat,
            hasHyphen (ofInt (Z.of_nat k)) = false)
    by (intros k; apply isDigits_no_hyphen, ofInt_digits; lia).
  destruct (count (candidate ci) (take i colors)) as [|ki] eqn:Eki,
           (count (candidate cj) (take j colors)) as [|kj] eqn:Ekj;
    cbn [suffixedName]; intros Heq.
  - rewrite Heq, Ekj in Hlt. lia.
  - assert (Hother : candidate ci ≠ candidate cj)
      by (rewrite Heq; intros Hsame; symmetry in Hsame;
          by apply append_hyphen_ne in Hsame).
    pose proof (occurrences_take_other colors i j ci (candidate cj)
                  Hij Hi Hother) as Hkj.
    rewrite Ekj in Hkj.
    apply (candidateName_no_clash ci cj (S kj)); [lia| |done].
    apply (collisionFree_le (length colors)); [done|lia].
  - symmetry in Heq.
    apply (candidateName_no_clash cj ci (S ki)); [lia| |done].
    apply (collisionFree_le (length colors)); [done|lia].
  - apply (f_equal splitLastHyphen) in Heq.
    rewrite !splitLastHyphen_app in Heq by done.
    apply (inj Some), pair_equal_spec in Heq as [Hname Hsuffix].
    apply ofInt_nat_inj in Hsuffix. rewrite Hname, Ekj in Hlt. lia.
Qed.

End DistinctNames.

(** The names of a batch are pairwise distinct under a collision-free
    pattern. *)
Lemma assignTokenNames_NoDup
  (colors : list ExtractedColor) (pattern customPrefix : string) :
  collisionFree pattern (length colors) →
  NoDup (tokenName <$> assignTokenNames colors pattern customPrefix).
Proof.
  intros Hfree. apply NoDup_alt. intros i j name Hi Hj.
  assert (Hat : ∀ n, (tokenName <$> assignTokenNames colors pattern
                        customPrefix) !! n = Some name →
            ∃ c, colors !! n = Some c
                 ∧ name = suffixedName (candidateName pattern customPrefix c)
                            (occurrences pattern customPrefix
                               (candidateName pattern customPrefix c)
                               (take n colors))).
  { intros n Hn. apply lookup_lt_Some in Hn as Hlt.
    rewrite length_fmap in Hlt. unfold assignTokenNames in Hlt.
    rewrite assignFrom_length in Hlt.
    destruct (lookup_lt_is_Some_2 colors n Hlt) as [c Hc]. exists c.
    split; [done|].
    rewrite list_lookup_fmap,
      (assignTokenNames_lookup pattern customPrefix colors n c Hc) in Hn.
    by injection Hn as <-. }
  destruct (Hat i Hi) as (ci & Hci & Hnamei).
  destruct (Hat j Hj) as (cj & Hcj & Hnamej).
  destruct (Nat.lt_trichotomy i j) as [Hlt|[Heq|Hgt]]; [|done|]; exfalso.
  - apply (suffixedName_differ pattern customPrefix colors i j ci cj);
      [done..|congruence].
  - apply (suffixedName_differ pattern customPrefix colors j i cj ci);
      [done..|congruence].
Qed.

Lemma collisionFree_known pattern n :
  collisionFree pattern n → pattern ∈ knownPatterns.
Proof.
  intros [Hin|[-> _]]; [|literal_key].
  repeat (apply elem_of_cons in Hin as [->|Hin]; [literal_key|]).
  by apply elem_of_nil in Hin.
Qed.

(** X1. Under the patterns tailwind, antd, wcag and custom the token names
    of a batch are pairwise distinct, whatever the batch; under material
    they are for a batch of at most fifty-one samples.  Two different
    positions of such a batch never share a name, and no name is empty. *)
Theorem assignTokenNames_distinct
  (colors : list ExtractedColor) (pattern customPrefix : string) :
  collisionFree pattern (length colors) →
  let named := assignTokenNames colors pattern customPrefix in
  NoDup (tokenName <$> named)
  ∧ (∀ i j ci cj, named !! i = Some ci → named !! j = Some cj →
                  tokenName ci = tokenName cj → i = j)
  ∧ Forall (fun c => tokenName c ≠ EmptyString) named.
Proof.
  intros Hfree named. subst named.
  pose proof (assignTokenNames_NoDup colors pattern customPrefix Hfree)
    as Hnd.
  split; [done|]. split.
  - intros i j ci cj Hi Hj Hname.
    apply (NoDup_lookup _ i j (tokenName ci) Hnd).
    + by rewrite list_lookup_fmap, Hi.
    + by rewrite list_lookup_fmap, Hj, Hname.
  - apply assignTokenNames_nonempty. by eapply collisionFree_known.
Qed.

(** ** The custom prefix and the order of a batch *)

Section PrefixAndOrder.

Implicit Types (s t : string) (c : ExtractedColor)
  (colors : list ExtractedColor).

Lemma append_cons (ch : ascii) s t :
  String ch s +:+ t = String ch (s +:+ t).
Proof. done. Qed.

Lemma stripWhite_length s rest :
  stripWhite s = Some rest → String.length rest < String.length s.
Proof.
  unfold stripWhite, codePointAt. intros Hs.
  repeat (case_match; simplify_eq; try done); cbn; lia.
Qed.

(** Stripping looks at the first code point only. *)
Lemma stripWhite_app s rest t :
  stripWhite s = Some rest → stripWhite (s +:+ t) = Some (rest +:+ t).
Proof.
  unfold stripWhite, codePointAt. intros Hs.
  destruct s as [|c0 [|c1 [|c2 s2]]]; rewrite ?append_cons;
    repeat (case_match; simplify_eq; try done).
Qed.

Lemma trimStartFrom_fuel fuel fuel' s :
  String.length s ≤ fuel → String.length s ≤ fuel' →
  trimStartFrom fuel s = trimStartFrom fuel' s.
Proof.
  revert fuel' s. induction fuel as [|fuel IH]; intros fuel' s Hf Hf'.
  - destruct s; [|cbn in Hf; lia]. by destruct fuel'.
  - destruct fuel' as [|fuel'].
    { destruct s; [done|cbn in Hf'; lia]. }
    cbn [trimStartFrom]. destruct (stripWhite s) as [rest|] eqn:Hs; [|done].
    apply stripWhite_length in Hs. apply IH; lia.
Qed.

Lemma trimStart_step s :
  trimStart s = match stripWhite s with
                | Some rest => trimStart rest
                | None => s
                end.
Proof.
  unfold trimStart. destruct s as [|ch s]; [done|].
  cbn [String.length trimStartFrom].
  destruct (stripWhite (String ch s)) as [rest|] eqn:Hs; [|done].
  apply stripWhite_length in Hs. cbn in Hs. apply trimStartFrom_fuel; lia.
Qed.

(** What is left by [trimStart] does not start with white space. *)
Lemma stripWhite_trimStart s : stripWhite (trimStart s) = None.
Proof.
  remember (String.length s) as n eqn:Hn.
  revert s Hn. induction (lt_wf n) as [n _ IH]. intros s ->.
  rewrite trimStart_step. destruct (stripWhite s) as [rest|] eqn:Hs; [|done].
  apply stripWhite_length in Hs as Hlen. by apply (IH _ Hlen).
Qed.

Lemma trimStart_fixed s : stripWhite s = None → trimStart s = s.
Proof. intros Hs. by rewrite trimStart_step, Hs. Qed.

Lemma trimStart_idempotent s : trimStart (trimStart s) = trimStart s.
Proof. apply trimStart_fixed, stripWhite_trimStart. Qed.

Lemma isBlank_trimStart s : isBlank s = true ↔ trimStart s = EmptyString.
Proof. unfold isBlank. by destruct (trimStart s). Qed.

(** White space before a string is dropped whole. *)
Lemma trimStart_app_blank s t :
  isBlank s = true → trimStart (s +:+ t) = trimStart t.
Proof.
  remember (String.length s) as n eqn:Hn.
  revert s Hn. induction (lt_wf n) as [n _ IH]. intros s -> Hs.
  apply isBlank_trimStart in Hs. rewrite trimStart_step in Hs.
  destruct (stripWhite s) as [rest|] eqn:Hstrip.
  - rewrite trimStart_step, (stripWhite_app s rest t Hstrip).
    apply stripWhite_length in Hstrip as Hlen.
    apply (IH _ Hlen rest eq_refl). by apply isBlank_trimStart.
  - by subst s.
Qed.

Lemma isBlank_app s t :
  isBlank s = true → isBlank t = true → isBlank (s +:+ t) = true.
Proof.
  intros Hs Ht. apply isBlank_trimStart.
  rewrite trimStart_app_blank by done. by apply isBlank_trimStart.
Qed.

(** [trimEnd] removes a suffix of white space. *)
Lemma trimEnd_split s :
  ∃ w, s = trimEnd s +:+ w ∧ isBlank w = true.
Proof.
  induction s as [|ch s (w & Hw & Hblank)]; [by exists EmptyString|].
  cbn [trimEnd]. destruct (isBlank (String ch s)) eqn:Hs.
  - by exists (String ch s).
  - exists w. split; [|done]. by rewrite append_cons, <- Hw.
Qed.

Lemma trimEnd_idempotent s : trimEnd (trimEnd s) = trimEnd s.
Proof.
  induction s as [|ch s IH]; [done|]. cbn [trimEnd].
  destruct (isBlank (String ch s)) eqn:Hs; [done|].
  cbn [trimEnd]. rewrite IH.
  destruct (isBlank (String ch (trimEnd s))) eqn:Hkept; [|done].
  destruct (trimEnd_split s) as (w & Hw & Hblank).
  rewrite Hw, <- append_cons, isBlank_app in Hs; done.
Qed.

(** Trimming the end uncovers no white space at the start. *)
Lemma stripWhite_trimEnd s :
  stripWhite s = None → stripWhite (trimEnd s) = None.
Proof.
  intros Hs. destruct (stripWhite (trimEnd s)) as [rest|] eqn:Hkept; [|done].
  destruct (trimEnd_split s) as (w & Hw & _).
  apply (stripWhite_app _ _ w) in Hkept. rewrite <- Hw in Hkept. congruence.
Qed.

Lemma trim_idempotent s : trim (trim s) = trim s.
Proof.
  unfold trim.
  rewrite (trimStart_fixed (trimEnd (trimStart s))).
  - apply trimEnd_idempotent.
  - apply stripWhite_trimEnd, stripWhite_trimStart.
Qed.

(** A code point is read off the first bytes of a string. *)
Lemma codePointAt_prefix s cp rest :
  codePointAt s = Some (cp, rest) →
  ∃ w, s = w +:+ rest ∧ codePointAt w = Some (cp, EmptyString).
Proof.
  unfold codePointAt. destruct s as [|c0 s0]; [done|].
  destruct (N_of_ascii c0 <? 128)%N eqn:H1.
  { intros [= <- <-]. exists (String c0 EmptyString). by rewrite H1. }
  destruct ((194 <=? N_of_ascii c0) && (N_of_ascii c0 <=? 223))%N eqn:H2.
  { destruct s0 as [|c1 s1]; [done|].
    destruct (isContinuation c1) eqn:Hc1; [|done].
    intros [= <- <-]. exists (String c0 (String c1 EmptyString)).
    by rewrite H1, H2, Hc1. }
  destruct ((224 <=? N_of_ascii c0) && (N_of_ascii c0 <=? 239))%N eqn:H3;
    [|done].
  destruct s0 as [|c1 [|c2 s2]]; [done..|].
  destruct (isContinuation c1 && isContinuation c2 && _) eqn:Hc; [|done].
  intros [= <- <-]. exists (String c0 (String c1 (String c2 EmptyString))).
  by rewrite H1, H2, H3, Hc.
Qed.

(** What [stripWhite] removes is one code point of white space. *)
Lemma stripWhite_prefix s rest :
  stripWhite s = Some rest →
  ∃ w, s = w +:+ rest ∧ stripWhite w = Some EmptyString.
Proof.
  unfold stripWhite.
  destruct (codePointAt s) as [[cp rest']|] eqn:Hcp; [|done].
  destruct (isWhiteSpace cp) eqn:Hws; [|done]. intros [= ->].
  destruct (codePointAt_prefix s cp rest Hcp) as (w & Hs & Hw).
  exists w. by rewrite Hw, Hws.
Qed.

(** [trimStart] removes a prefix of white space. *)
Lemma trimStart_split s :
  ∃ w, s = w +:+ trimStart s ∧ isBlank w = true.
Proof.
  remember (String.length s) as n eqn:Hn.
  revert s Hn. induction (lt_wf n) as [n _ IH]. intros s ->.
  rewrite trimStart_step. destruct (stripWhite s) as [rest|] eqn:Hs.
  - apply stripWhite_length in Hs as Hlen.
    destruct (stripWhite_prefix s rest Hs) as (w1 & -> & Hw1).
    destruct (IH _ Hlen rest eq_refl) as (w2 & Hw2 & Hblank).
    exists (w1 +:+ w2). split.
    + by rewrite append_assoc, <- Hw2.
    + apply isBlank_app; [|done]. apply isBlank_trimStart.
      by rewrite trimStart_step, Hw1.
  - by exists EmptyString.
Qed.

(** [trim] removes white space at both ends and nothing else, and leaves
    none there. *)
Lemma trim_split s :
  (∃ w1 w2, s = w1 +:+ trim s +:+ w2
            ∧ isBlank w1 = true ∧ isBlank w2 = true)
  ∧ stripWhite (trim s) = None
  ∧ trimEnd (trim s) = trim s.
Proof.
  unfold trim. split; [|split].
  - destruct (trimStart_split s) as (w1 & Hw1 & Hb1).
    destruct (trimEnd_split (trimStart s)) as (w2 & Hw2 & Hb2).
    exists w1, w2. split; [|done]. by rewrite <- Hw2.
  - apply stripWhite_trimEnd, stripWhite_trimStart.
  - apply trimEnd_idempotent.
Qed.

(** The names depend on the pattern and the prefix through the candidate
    names only. *)
Lemma assignFrom_candidates roleCount pattern customPrefix pattern'
  customPrefix' colors :
  (∀ c, candidateName pattern customPrefix c
        = candidateName pattern' customPrefix' c) →
  assignFrom roleCount pattern customPrefix colors
  = assignFrom roleCount pattern' customPrefix' colors.
Proof.
  intros Hsame. revert roleCount.
  induction colors as [|c rest IH]; intros roleCount; [done|].
  cbn [assignFrom]. rewrite Hsame. destruct (resolveCollision _ _).
  by rewrite IH.
Qed.

End PrefixAndOrder.

(** X10. The custom prefix is used trimmed: white space around it changes
    no name, and an empty or blank prefix names as the prefix [color]
    does.  Every name of the custom pattern starts with the trimmed
    prefix and a hyphen.  Under every other pattern the prefix is not
    used at all.  The trimmed prefix is the prefix without the white
    space at its two ends, the white space being that of ECMAScript, and
    has none left there. *)
Theorem customPrefix_trimmed
  (colors : list ExtractedColor) (customPrefix : string) :
  (∃ w1 w2, customPrefix = w1 +:+ trim customPrefix +:+ w2
            ∧ isBlank w1 = true ∧ isBlank w2 = true)
  ∧ stripWhite (trim customPrefix) = None
  ∧ trimEnd (trim customPrefix) = trim customPrefix
  ∧ assignTokenNames colors "custom" customPrefix
    = assignTokenNames colors "custom" (trim customPrefix)
  ∧ (trim customPrefix = EmptyString →
     assignTokenNames colors "custom" customPrefix
     = assignTokenNames colors "custom" "color")
  ∧ (∀ c, c ∈ assignTokenNames colors "custom" customPrefix →
          ∃ rest, tokenName c
                  = effectivePrefix customPrefix +:+ "-" +:+ rest)
  ∧ (∀ pattern customPrefix',
       pattern ≠ "custom" →
       assignTokenNames colors pattern customPrefix
       = assignTokenNames colors pattern customPrefix').
Proof.
  destruct (trim_split customPrefix) as (Hsplit & Hstart & Hend).
  split; [done|]. split; [done|]. split; [done|].
  split; [|split; [|split]].
  - apply assignFrom_candidates. intros c.
    rewrite !candidateName_custom. unfold effectivePrefix.
    by rewrite trim_idempotent.
  - intros Hblank. apply assignFrom_candidates. intros c.
    rewrite !candidateName_custom. unfold effectivePrefix.
    by rewrite Hblank.
  - intros named (i & Hi)%list_elem_of_lookup.
    apply lookup_lt_Some in Hi as Hlt. unfold assignTokenNames in Hlt.
    rewrite assignFrom_length in Hlt.
    destruct (lookup_lt_is_Some_2 colors i Hlt) as [c Hc].
    rewrite (assignTokenNames_lookup "custom" customPrefix colors i c Hc)
      in Hi.
    injection Hi as <-. cbn [tokenName withTokenName].
    rewrite candidateName_custom.
    destruct (occurrences _ _ _ _) as [|k]; cbn [suffixedName].
    + by eexists.
    + eexists. by rewrite !append_assoc.
  - intros pattern customPrefix' Hpattern. apply assignFrom_candidates.
    intros c. unfold candidateName.
    destruct (rgbToHsl _ _ _) as [[h s] l].
    by destruct (String.eqb_spec pattern "custom").
Qed.

(** X11. Names are given in input order and never revised: the names of
    the first samples of a batch are those they get when named without
    the samples that follow. *)
Theorem assignTokenNames_prefix_stable
  (colors more : list ExtractedColor) (pattern customPrefix : string) :
  take (length colors) (assignTokenNames (colors ++ more) pattern customPrefix)
  = assignTokenNames colors pattern customPrefix.
Proof.
  apply list_eq. intros i.
  destruct (decide (i < length colors)) as [Hlt|Hge].
  - rewrite lookup_take_lt by done.
    destruct (lookup_lt_is_Some_2 colors i Hlt) as [c Hc].
    rewrite (assignTokenNames_lookup pattern customPrefix
               (colors ++ more) i c) by (by rewrite lookup_app_l).
    rewrite (assignTokenNames_lookup pattern customPrefix colors i c Hc).
    by rewrite take_app_le by lia.
  - rewrite lookup_take_ge by lia. symmetry. apply lookup_ge_None.
    unfold assignTokenNames. rewrite assignFrom_length. lia.
Qed.

(** ** From names to the document *)

Section NamedExport.

Import JsObject.

Implicit Types (c : ExtractedColor) (colors : list ExtractedColor).

Lemma buildJson_document colors pattern :
  buildJson colors pattern
  = Json.stringify (Json.Obj [("colors", colorsDocument colors pattern)]).
Proof. unfold buildJson, colorsDocument. by destruct (String.eqb _ _). Qed.

(** A sample with distinct, exportable names around it is found under the
    two sides of the last hyphen of its name in the nested document. *)
Lemma colorsDocument_nested colors c group shade :
  Forall exportable colors → NoDup (tokenName <$> colors) →
  c ∈ colors → splitLastHyphen (tokenName c) = Some (group, shade) →
  member2 (colorsDocument colors "tailwind") group shade
  = Some (Json.Str (hex c)).
Proof.
  intros Hall Hnd Hc Hsplit. unfold member2, colorsDocument.
  change (String.eqb "tailwind" "tailwind") with true. cbv iota.
  rewrite member_ofNested_lookup2.
  - rewrite nested_fold_lookup2 by done.
    rewrite (lastHex_distinct _ colors c); [done..|].
    intros c' Hc'. apply splitLastHyphen_Some in Hsplit, Hc'. congruence.
  - apply nested_fold_wellKeyed. split; [constructor|].
    by intros kv ?%elem_of_nil.
Qed.

(** The same under its whole name in the flat document. *)
Lemma colorsDocument_flat colors pattern c :
  pattern ≠ "tailwind" →
  Forall exportable colors → NoDup (tokenName <$> colors) → c ∈ colors →
  Json.member (colorsDocument colors pattern) (tokenName c)
  = Some (Json.Str (hex c)).
Proof.
  intros Hpattern Hall Hnd Hc. unfold colorsDocument.
  destruct (String.eqb_spec pattern "tailwind") as [|_]; [done|].
  rewrite member_ofFlat by (apply flat_fold_NoDup; constructor).
  rewrite flat_fold_get.
  - by rewrite (lastHex_distinct _ colors c).
  - eapply Forall_impl; [exact Hall|].
    intros c' (Hname & _). by apply hasHyphen_not_inherited.
Qed.

End NamedExport.

(** X12. Naming a batch and exporting it under the same collision-free
    pattern loses no color: every named sample is in the document of
    [buildJson], under its token name for the flat patterns and under the
    two sides of the last hyphen of its name for tailwind. *)
Theorem named_batch_exported
  (colors : list ExtractedColor) (pattern customPrefix : string) :
  collisionFree pattern (length colors) →
  let named := assignTokenNames colors pattern customPrefix in
  let doc := colorsDocument named pattern in
  buildJson named pattern = Json.stringify (Json.Obj [("colors", doc)])
  ∧ ∀ c, c ∈ named →
      if String.eqb pattern "tailwind"
      then ∃ group shade,
             tokenName c = group +:+ "-" +:+ shade
             ∧ member2 doc group shade = Some (Json.Str (hex c))
      else Json.member doc (tokenName c) = Some (Json.Str (hex c)).
Proof.
  intros Hfree named doc. subst doc named. split; [apply buildJson_document|].
  pose proof (assignTokenNames_NoDup colors pattern customPrefix Hfree)
    as Hnd.
  pose proof (assignTokenNames_exportable colors pattern customPrefix
                (collisionFree_known _ _ Hfree)) as Hall.
  intros c Hc. destruct (String.eqb_spec pattern "tailwind") as [->|Hpat].
  - assert (Hname : hasHyphen (tokenName c) = true).
    { rewrite Forall_forall in Hall. apply (Hall c Hc). }
    destruct (splitLastHyphen (tokenName c)) as [[group shade]|] eqn:Hsplit.
    + exists group, shade. split; [by apply splitLastHyphen_Some|].
      by apply colorsDocument_nested.
    + apply splitLastHyphen_None in Hsplit. congruence.
  - by apply colorsDocument_flat.
Qed.

(** X13. The layout of the tailwind document for a batch named with the
    tailwind pattern: the first sample of a role and a shade is stored
    under the role and the shade, one of 50, 100, ..., 950; the [k]-th
    sample that repeats them is stored in a group of its own, named by
    the role and the shade, under the key [k]. *)
Theorem tailwind_document_layout
  (colors : list ExtractedColor) (customPrefix : string)
  (i : nat) (c : ExtractedColor) :
  colors !! i = Some c →
  let doc := colorsDocument (assignTokenNames colors "tailwind" customPrefix)
               "tailwind" in
  let k := occurrences "tailwind" customPrefix
             (candidateName "tailwind" customPrefix c) (take i colors) in
  ∃ shade,
    shadeOf c = Some shade ∧ shade ∈ shades
    ∧ buildJson (assignTokenNames colors "tailwind" customPrefix) "tailwind"
      = Json.stringify (Json.Obj [("colors", doc)])
    ∧ (k = 0 →
       member2 doc (roleName (roleOf c)) (ofInt shade)
       = Some (Json.Str (hex c)))
    ∧ (1 ≤ k →
       member2 doc (roleName (roleOf c) +:+ "-" +:+ ofInt shade)
         (ofInt (Z.of_nat k))
       = Some (Json.Str (hex c))).
Proof.
  intros Hc doc k. subst doc.
  destruct (shadeOf_elem c) as (shade & Hshade & Hin).
  exists shade. split; [done|]. split; [done|].
  split; [apply buildJson_document|].
  assert (Hfree : collisionFree "tailwind" (length colors))
    by (left; literal_key).
  pose proof (assignTokenNames_NoDup colors "tailwind" customPrefix Hfree)
    as Hnd.
  pose proof (assignTokenNames_exportable colors "tailwind" customPrefix
                ltac:(literal_key)) as Hall.
  pose proof (assignTokenNames_lookup "tailwind" customPrefix colors i c Hc)
    as Hnamed. fold k in Hnamed.
  apply list_elem_of_lookup_2 in Hnamed as Helem.
  assert (Hcand : candidateName "tailwind" customPrefix c
                  = roleName (roleOf c) +:+ "-" +:+ ofInt shade)
    by (by rewrite candidateName_tailwind, Hshade).
  apply shades_bounds in Hin as Hbounds.
  split.
  - intros Hk. rewrite Hk in Helem. cbn [suffixedName] in Helem.
    apply (colorsDocument_nested _ _ _ _ Hall Hnd Helem).
    cbn [tokenName withTokenName]. rewrite Hcand.
    apply splitLastHyphen_app, isDigits_no_hyphen, ofInt_digits. lia.
  - intros Hk. destruct k as [|k']; [lia|]. cbn [suffixedName] in Helem.
    rewrite <- Hcand.
    apply (colorsDocument_nested _ _ _ _ Hall Hnd Helem).
    cbn [tokenName withTokenName].
    apply splitLastHyphen_app, isDigits_no_hyphen, ofInt_digits. lia.
Qed.

(** ** The handler of the panel's messages *)

Section Handler.

Implicit Types (c : ExtractedColor) (colors : list ExtractedColor).

(** Naming changes neither the hex values nor the sources of a batch. *)
Lemma assignFrom_fields roleCount pattern customPrefix colors :
  hex <$> assignFrom roleCount pattern customPrefix colors = hex <$> colors
  ∧ source <$> assignFrom roleCount pattern customPrefix colors
    = source <$> colors.
Proof.
  pose proof (assignFrom_renames pattern customPrefix roleCount colors)
    as Hren.
  induction Hren as [|c c' rest rest' [name ->] _ [IHhex IHsrc]]; [done|].
  rewrite !fmap_cons, IHhex, IHsrc. done.
Qed.

End Handler.

(** X14. The reply to [extract-colors].  Without selection the handler
    posts [no-selection] and nothing else.  Otherwise it posts one
    [colors-extracted] message whose samples have pairwise distinct hex
    values, exactly the hex values found in the selected trees, none of
    them with source [text]; when the message brings no pattern they are
    named as with [tailwind], with pairwise distinct names. *)
Theorem onmessage_extract_colors
  (selection : list SceneNode) (outcome : ExportOutcome) (msg : Message) :
  msg_type msg = "extract-colors" →
  (selection = [] → onmessage selection outcome msg = [PostNoSelection])
  ∧ (selection ≠ [] →
     ∃ named,
       onmessage selection outcome msg = [PostColorsExtracted named "extract"]
       ∧ NoDup (hex <$> named)
       ∧ (∀ h, h ∈ hex <$> named
               ↔ ∃ node, node ∈ selection
                         ∧ h ∈ hex <$> extractColorsFromNode node)
       ∧ (∀ c, c ∈ named → source c ≠ text)
       ∧ (msg_pattern msg = None →
          named = assignTokenNames
                    (deduplicateColors
                       (List.concat
                          (List.map extractColorsFromNode selection)))
                    "tailwind" (default "color" (msg_customPrefix msg))
          ∧ NoDup (tokenName <$> named))).
Proof.
  intros Htype. unfold onmessage. rewrite Htype.
  change (String.eqb "extract-colors" "extract-colors") with true.
  cbv iota. split; [by intros ->|].
  intros Hsel. destruct selection as [|node nodes]; [done|].
  set (selection := node :: nodes).
  set (raw := List.concat (List.map extractColorsFromNode selection)).
  set (pattern := default "tailwind" (msg_pattern msg)).
  set (customPrefix := default "color" (msg_customPrefix msg)).
  destruct (assignFrom_fields ∅ pattern customPrefix (deduplicateColors raw))
    as [Hhex Hsrc].
  fold (assignTokenNames (deduplicateColors raw) pattern customPrefix)
    in Hhex, Hsrc.
  eexists. split; [reflexivity|]. split; [|split; [|split]].
  - rewrite Hhex. apply dedupFrom_NoDup.
  - intros h. rewrite Hhex. unfold deduplicateColors.
    rewrite dedupFrom_hexes, elem_of_empty.
    unfold raw. rewrite list_elem_of_fmap. split.
    + intros [(c & -> & Hc) _].
      apply list_elem_of_In, in_concat in Hc as (l & Hl & Hc).
      apply in_map_iff in Hl as (n & <- & Hn). exists n.
      split; [by apply list_elem_of_In|].
      by apply list_elem_of_fmap_2, list_elem_of_In.
    + intros (n & Hn & (c & -> & Hc)%list_elem_of_fmap). split; [|tauto].
      exists c. split; [done|].
      apply list_elem_of_In, in_concat. exists (extractColorsFromNode n).
      split; [apply in_map|]; by apply list_elem_of_In.
  - intros c Hc Htext.
    apply (list_elem_of_fmap_2 source) in Hc. rewrite Hsrc in Hc.
    apply list_elem_of_fmap in Hc as (c0 & Hsame & Hc0).
    apply (deduplicated_never_text selection c0 Hc0). congruence.
  - intros Hnone. unfold pattern. rewrite Hnone. split; [done|].
    apply assignTokenNames_NoDup. left. literal_key.
Qed.

(** X15. The keys [buildJson] takes from a token name with a hyphen are the
    two sides of its last hyphen: joined by a hyphen they give the name
    back, so two such names never share a place in the nested document.
    A name without hyphen is stored whole under the empty group, the place
    of the same name after a leading hyphen. *)
Theorem tailwindKeys_reassemble (name : string) :
  (hasHyphen name = true →
   name = (tailwindKeys name).1 +:+ "-" +:+ (tailwindKeys name).2
   ∧ hasHyphen (tailwindKeys name).2 = false
   ∧ ∀ name', hasHyphen name' = true →
              tailwindKeys name' = tailwindKeys name → name' = name)
  ∧ (hasHyphen name = false →
     tailwindKeys name = (EmptyString, name)
     ∧ tailwindKeys ("-" +:+ name) = tailwindKeys name).
Proof.
  assert (Hkeys : ∀ s, hasHyphen s = true →
            splitLastHyphen s = Some (tailwindKeys s)).
  { intros s Hs.
    destruct (splitLastHyphen s) as [[group shade]|] eqn:Hsplit.
    - by rewrite (tailwindKeys_splitLastHyphen s group shade Hsplit).
    - apply splitLastHyphen_None in Hsplit. congruence. }
  assert (Hshade : ∀ s group shade,
            splitLastHyphen s = Some (group, shade) → hasHyphen shade = false).
  { induction s as [|ch s IH]; intros group shade; [done|]. cbn.
    destruct (splitLastHyphen s) as [[group' shade']|] eqn:Hs.
    - intros [= _ <-]. by eapply IH.
    - destruct (Ascii.eqb ch "-"); [|done]. intros [= _ <-].
      by apply splitLastHyphen_None. }
  split.
  - intros Hname. pose proof (Hkeys name Hname) as Hsplit.
    destruct (tailwindKeys name) as [group shade]. cbn [fst snd].
    split; [by apply splitLastHyphen_Some|].
    split; [by eapply Hshade|].
    intros name' Hname' Hsame. apply Hkeys in Hname'.
    rewrite Hsame in Hname'.
    apply splitLastHyphen_Some in Hsplit, Hname'. congruence.
  - intros Hname.
    assert (Hwhole : tailwindKeys name = (EmptyString, name)).
    { unfold tailwindKeys. by rewrite (split_no_hyphen name Hname). }
    split; [done|]. rewrite Hwhole.
    apply (tailwindKeys_splitLastHyphen ("-" +:+ name)).
    by apply (splitLastHyphen_app EmptyString name).
Qed.

(** X16. The wcag pattern starts from six names only: every candidate
    name is one of them, and every token name of a batch is one of them,
    alone or followed by a hyphen and a counter. *)
Theorem wcag_names (colors : list ExtractedColor) (customPrefix : string) :
  (∀ c, candidateName "wcag" customPrefix c ∈ wcagNames)
  ∧ ∀ c, c ∈ assignTokenNames colors "wcag" customPrefix →
         ∃ base, base ∈ wcagNames
                 ∧ (tokenName c = base
                    ∨ ∃ k : nat, 1 ≤ k ∧ k < length colors
                        ∧ tokenName c = base +:+ "-" +:+ ofInt (Z.of_nat k)).
Proof.
  assert (Hbase : ∀ c, candidateName "wcag" customPrefix c ∈ wcagNames).
  { intros c. rewrite candidateName_wcag.
    destruct (roleOf c); cbn [semanticMapWcag];
      [literal_key..|destruct (gtb _ _); literal_key]. }
  split; [done|].
  intros named (i & Hi)%list_elem_of_lookup.
  apply lookup_lt_Some in Hi as Hlt. unfold assignTokenNames in Hlt.
  rewrite assignFrom_length in Hlt.
  destruct (lookup_lt_is_Some_2 colors i Hlt) as [c Hc].
  rewrite (assignTokenNames_lookup "wcag" customPrefix colors i c Hc) in Hi.
  injection Hi as <-. cbn [tokenName withTokenName].
  exists (candidateName "wcag" customPrefix c). split; [done|].
  pose proof (length_filter
    (fun c' => candidateName "wcag" customPrefix c'
               = candidateName "wcag" customPrefix c) (take i colors)) as Hk.
  rewrite length_take in Hk. fold (occurrences "wcag" customPrefix
    (candidateName "wcag" customPrefix c) (take i colors)) in Hk.
  destruct (occurrences _ _ _ _) as [|k]; [by left|right].
  exists (S k). split; [lia|]. split; [lia|done].
Qed.

(** X17. The reply to [apply-naming].  Sent with the pattern and the
    prefix of an earlier [extract-colors] and with the samples of its
    reply, the message is answered with the same samples: renaming changes
    nothing.  Sent without pattern it does not fall back to [tailwind] as
    [extract-colors] does: no case of the switch matches, the first sample
    is left with the empty name and the sample at position [i] is named
    [-i]. *)
Theorem onmessage_apply_naming
  (selection : list SceneNode) (outcome : ExportOutcome) (msg : Message) :
  msg_type msg = "apply-naming" →
  (∀ pattern colors,
     msg_pattern msg = Some pattern →
     msg_colors msg
     = assignTokenNames colors pattern (default "color" (msg_customPrefix msg)) →
     onmessage selection outcome msg
     = [PostColorsExtracted (msg_colors msg) "rename"])
  ∧ (msg_pattern msg = None →
     ∃ renamed,
       onmessage selection outcome msg = [PostColorsExtracted renamed "rename"]
       ∧ ∀ i c, msg_colors msg !! i = Some c →
                tokenName <$> renamed !! i = Some (suffixedName EmptyString i)).
Proof.
  intros Htype. unfold onmessage. rewrite Htype.
  change (String.eqb "apply-naming" "extract-colors") with false.
  change (String.eqb "apply-naming" "apply-naming") with true. cbv iota zeta.
  split.
  - intros pattern colors -> ->. cbn [patternArgument default]. do 2 f_equal.
    apply assignFrom_renamed, assignFrom_renames.
  - intros ->. cbn [patternArgument default]. eexists. split; [reflexivity|].
    intros i c Hi.
    set (customPrefix := default "color" (msg_customPrefix msg)).
    assert (Hcand : ∀ c', candidateName EmptyString customPrefix c'
                          = EmptyString).
    { intros c'. unfold candidateName. by destruct (rgbToHsl _ _ _) as [[? ?] ?]. }
    rewrite (assignTokenNames_lookup EmptyString customPrefix _ i c Hi).
    cbn [fmap option_fmap option_map tokenName withTokenName].
    rewrite Hcand. do 2 f_equal. unfold occurrences.
    assert (Hall : ∀ l : list ExtractedColor,
              filter (fun c' => candidateName EmptyString customPrefix c'
                                = EmptyString) l = l).
    { induction l as [|c' l IH]; [done|].
      rewrite filter_cons, decide_True by apply Hcand. by rewrite IH. }
    rewrite Hall, length_take. apply lookup_lt_Some in Hi. lia.
Qed.

(** ** The further properties at concrete designs *)

Lemma assignTokenNames_distinct_witness :
  collisionFree "tailwind" (length threeBlues)
  ∧ NoDup (tokenName <$> assignTokenNames threeBlues "tailwind" "color").
Proof.
  assert (Hfree : collisionFree "tailwind" (length threeBlues))
    by (left; literal_key).
  split; [done|].
  apply (assignTokenNames_distinct threeBlues "tailwind" "color" Hfree).
Defined.

(** The red component [0.5 / 255]: the product by 255 is below 0.5 in
    exact arithmetic and is the double 0.5 in the code, which prints 01. *)
Lemma rgbToHex_decode_witness :
  (0 <= div (1 # 2) 255 <= 1)%Q ∧ (0 <= 0 <= 1)%Q
  ∧ decodeHex (rgbToHex (div (1 # 2) 255) 0 0)
    = Some (round (mul (div (1 # 2) 255) 255), round (mul 0 255),
            round (mul 0 255))
  ∧ (div (1 # 2) 255 * 255 < 1 # 2)%Q
  ∧ mul (div (1 # 2) 255) 255 = (1 # 2)%Q
  ∧ rgbToHex (div (1 # 2) 255) 0 0 = "#010000".
Proof.
  assert (Hr : (0 <= div (1 # 2) 255 <= 1)%Q) by (split; by vm_compute).
  assert (H0 : (0 <= 0 <= 1)%Q) by (split; lra).
  split; [done|]. split; [done|].
  split; [apply (rgbToHex_decode (div (1 # 2) 255) 0 0 Hr H0 H0)|].
  split; [|split]; by vm_compute.
Defined.

Lemma rgbToHex_round_trip_witness :
  (0 ≤ 26 ≤ 255)%Z ∧ (0 ≤ 115 ≤ 255)%Z ∧ (0 ≤ 232 ≤ 255)%Z
  ∧ decodeHex (rgbToHex (26 # 255) (115 # 255) (232 # 255))
    = Some (26, 115, 232)%Z
  ∧ decodeHex (rgbToHex (channel 26) (channel 115) (channel 232))
    = Some (26, 115, 232)%Z.
Proof.
  assert (H26 : (0 ≤ 26 ≤ 255)%Z) by lia.
  assert (H115 : (0 ≤ 115 ≤ 255)%Z) by lia.
  assert (H232 : (0 ≤ 232 ≤ 255)%Z) by lia.
  split; [done|]. split; [done|]. split; [done|].
  apply (rgbToHex_round_trip 26 115 232 H26 H115 H232).
Defined.

Lemma equal_components_gray_witness :
  (1 # 2 == 2 # 4)%Q ∧ (2 # 4 == 3 # 6)%Q ∧ isDouble (1 # 2)
  ∧ ((rgbToHsl (1 # 2) (2 # 4) (3 # 6)).2 == 1 # 2)%Q
  ∧ detectColorRole (1 # 2) (2 # 4) (3 # 6) = gray.
Proof.
  assert (H1 : (1 # 2 == 2 # 4)%Q) by (by vm_compute).
  assert (H2 : (2 # 4 == 3 # 6)%Q) by (by vm_compute).
  assert (Dr : isDouble (1 # 2)) by (by vm_compute).
  split; [done|]. split; [done|]. split; [done|].
  pose proof (equal_components_gray (1 # 2) (2 # 4) (3 # 6) H1 H2) as Hgray.
  destruct (rgbToHsl (1 # 2) (2 # 4) (3 # 6)) as [[h s] l].
  destruct Hgray as (_ & _ & Hl & Hrole).
  split; [exact (Hl Dr)|exact Hrole].
Defined.

(** The gray of components 0.3888888888888889: the product
    [(1 - l) * 9] is below 5.5 in exact arithmetic and is the double 5.5
    in the code, which returns level 7. *)
Lemma lightness_in_range_witness :
  isDouble (lit (3888888888888889 # 10000000000000000))
  ∧ (0 <= lit (3888888888888889 # 10000000000000000) <= 1)%Q
  ∧ lightnessToAntLevel
      (rgbToHsl (lit (3888888888888889 # 10000000000000000))
                (lit (3888888888888889 # 10000000000000000))
                (lit (3888888888888889 # 10000000000000000))).2
    = (round (mul (sub 1
        (rgbToHsl (lit (3888888888888889 # 10000000000000000))
                  (lit (3888888888888889 # 10000000000000000))
                  (lit (3888888888888889 # 10000000000000000))).2) 9)
       + 1)%Z
  ∧ lightnessToAntLevel
      (rgbToHsl (lit (3888888888888889 # 10000000000000000))
                (lit (3888888888888889 # 10000000000000000))
                (lit (3888888888888889 # 10000000000000000))).2
    = 7%Z.
Proof.
  assert (Dx : isDouble (lit (3888888888888889 # 10000000000000000)))
    by (by vm_compute).
  assert (Hx : (0 <= lit (3888888888888889 # 10000000000000000) <= 1)%Q)
    by (split; by vm_compute).
  split; [done|]. split; [done|].
  split; [|by vm_compute].
  apply (lightness_in_range _ _ _ Dx Dx Dx Hx Hx Hx).
Defined.

Lemma quantizers_antitone_witness :
  (1 # 4 <= 3 # 4)%Q
  ∧ (lightnessToAntLevel (3 # 4) ≤ lightnessToAntLevel (1 # 4))%Z.
Proof.
  assert (Hle : (1 # 4 <= 3 # 4)%Q) by lra.
  split; [done|].
  destruct (quantizers_antitone (1 # 4) (3 # 4) Hle) as (_ & Hlevel & _).
  apply Hlevel.
Defined.

Lemma extractColorsFromNode_paints_witness :
  solidPaint 0 0 1 ∈ paintsOf blueLabel ∧ solidVisible (solidPaint 0 0 1)
  ∧ ∃ c, c ∈ extractColorsFromNode blueLabel
         ∧ sampleOf (solidPaint 0 0 1) c.
Proof.
  assert (Hp : solidPaint 0 0 1 ∈ paintsOf blueLabel) by (by left).
  assert (Hsv : solidVisible (solidPaint 0 0 1)) by (by split).
  split; [done|]. split; [done|].
  apply (proj1 (proj2 (extractColorsFromNode_paints blueLabel)) _ Hp Hsv).
Defined.

(** A prefix of two no-break spaces (U+00A0, the bytes C2 A0 in UTF-8)
    and a space is blank, and no-break spaces around a prefix are
    dropped. *)
Lemma customPrefix_trimmed_witness :
  trim (noBreakSpace +:+ noBreakSpace +:+ " ") = EmptyString
  ∧ assignTokenNames threeBlues "custom" (noBreakSpace +:+ noBreakSpace +:+ " ")
    = assignTokenNames threeBlues "custom" "color"
  ∧ trim (noBreakSpace +:+ "brand" +:+ noBreakSpace) = "brand"
  ∧ tokenName <$> assignTokenNames threeBlues "custom"
                    (noBreakSpace +:+ "brand" +:+ noBreakSpace)
    = ["brand-blue-500"; "brand-blue-500-1"; "brand-blue-500-2"].
Proof.
  assert (Hblank : trim (noBreakSpace +:+ noBreakSpace +:+ " ") = EmptyString)
    by (by vm_compute).
  split; [done|].
  split; [|split; by vm_compute].
  apply (proj1 (proj2 (proj2 (proj2 (proj2
           (customPrefix_trimmed threeBlues
              (noBreakSpace +:+ noBreakSpace +:+ " ")))))) Hblank).
Defined.

Lemma named_batch_exported_witness :
  collisionFree "material" (length threeBlues)
  ∧ ∀ c, c ∈ assignTokenNames threeBlues "material" "color" →
         Json.member
           (colorsDocument (assignTokenNames threeBlues "material" "color")
              "material") (tokenName c)
         = Some (Json.Str (hex c)).
Proof.
  assert (Hfree : collisionFree "material" (length threeBlues))
    by (right; split; [done|cbn; lia]).
  split; [done|].
  apply (proj2 (named_batch_exported threeBlues "material" "color" Hfree)).
Defined.

Lemma tailwind_document_layout_witness :
  threeBlues !! 2 = Some (blueSample 253)
  ∧ ∃ shade, shadeOf (blueSample 253) = Some shade ∧ shade ∈ shades.
Proof.
  split; [done|].
  destruct (tailwind_document_layout threeBlues "color" 2 (blueSample 253)
              eq_refl)
    as (shade & Hshade & Hin & _).
  exists shade. split; [exact Hshade|exact Hin].
Defined.

Lemma onmessage_extract_colors_witness :
  let msg := {| msg_type := "extract-colors"; msg_pattern := None;
                msg_customPrefix := None; msg_colors := [] |} in
  msg_type msg = "extract-colors"
  ∧ onmessage [] Exported msg = [PostNoSelection].
Proof.
  intros msg. split; [done|].
  by apply (proj1 (onmessage_extract_colors [] Exported msg eq_refl)).
Defined.

Lemma tailwindKeys_reassemble_witness :
  hasHyphen "blue-500-1" = true
  ∧ "blue-500-1"
    = (tailwindKeys "blue-500-1").1 +:+ "-" +:+ (tailwindKeys "blue-500-1").2.
Proof.
  split; [done|].
  destruct (proj1 (tailwindKeys_reassemble "blue-500-1") eq_refl)
    as [Hname _].
  exact Hname.
Defined.

Lemma wcag_names_witness :
  ∃ c, c ∈ assignTokenNames threeBlues "wcag" "color"
       ∧ ∃ base, base ∈ wcagNames
                 ∧ (tokenName c = base
                    ∨ ∃ k : nat, 1 ≤ k ∧ k < length threeBlues
                        ∧ tokenName c
                          = base +:+ "-" +:+ ofInt (Z.of_nat k)).
Proof.
  destruct (lookup_lt_is_Some_2
              (assignTokenNames threeBlues "wcag" "color") 1) as [c Hc].
  { unfold assignTokenNames. rewrite assignFrom_length. cbn. lia. }
  apply list_elem_of_lookup_2 in Hc. exists c. split; [done|].
  apply (proj2 (wcag_names threeBlues "color") c Hc).
Defined.

Lemma onmessage_apply_naming_witness :
  let msg := {| msg_type := "apply-naming"; msg_pattern := None;
                msg_customPrefix := None; msg_colors := threeBlues |} in
  msg_type msg = "apply-naming" ∧ msg_pattern msg = None
  ∧ ∃ renamed,
      onmessage [] Exported msg = [PostColorsExtracted renamed "rename"]
      ∧ tokenName <$> renamed !! 2 = Some "-2".
Proof.
  intros msg. split; [done|]. split; [done|].
  destruct (proj2 (onmessage_apply_naming [] Exported msg eq_refl) eq_refl)
    as (renamed & Hreply & Hnames).
  exists renamed. split; [done|].
  apply (Hnames 2 (blueSample 253) eq_refl).
Defined.
